(** * microsat: conversion of ms output into microsatellite length data

    A shallow embedding of [microsat.c] (M. P. Cox, after R. Hudson) and the
    properties of its dataset reader, haplotype buffers, mutation engine and
    output formatter.

    Conventions of the embedding.
    - [double] is IEEE binary64, taken as Rocq's primitive [float]; the C
      comparison [a > b] is [b <? a].
    - [int] is a 32-bit two's complement integer carried in [Z]; additions that
      the program performs on stored values go through [wrap_int].
    - Character buffers and the input stream are [list ascii]; text written to
      standard output is a [string].
    - The generator behind [ran1()] is a sequence of draws with a cursor.
    - Loop counters that start at 0 and only count up are [nat]; a bound held
      in an [int] is converted with [Z.to_nat], so that a bound that is zero or
      negative gives no iteration, as [i < bound] does.
    - A read outside an array yields a fixed default and a write outside it is
      dropped; an object read before its first assignment holds zero (a
      character array, the empty string): the C program has no defined meaning
      there.
    - Whether [malloc] and [realloc] grant a request belongs to the C library
      and is a parameter of the run, the [heap]; [unsigned] has 32 bits and
      [size_t] 64.
    - The conversion of decimal text to a double belongs to the C library and
      is a parameter, [strtod], of the part of the program that reads numbers. *)

From Stdlib Require Import ZArith String Ascii List Bool Lia.
From Stdlib Require Import PrimFloat FloatOps FloatAxioms SpecFloat.
From Stdlib Require Uint63.
From Stdlib Require Import DecimalString DecimalZ.
From Equations.Prop Require Import Equations Logic.
Import ListNotations.

Set Warnings "-inexact-float".

Local Open Scope Z_scope.
Local Open Scope list_scope.

(* ------------------------------------------------------------------------- *)
(** ** Machine numbers and characters *)

Definition double : Set := float.

(** [a > b] on doubles. *)
Definition fgt (a b : double) : bool := (b <? a)%float.

Definition wrap_int (z : Z) : Z := (z + 2 ^ 31) mod 2 ^ 32 - 2 ^ 31.

Definition int_add (a b : Z) : Z := wrap_int (a + b).

Definition TAB : string := String "009"%char EmptyString.
Definition NL : string := String "010"%char EmptyString.

Definition newline : ascii := "010"%char.
Definition NUL : ascii := "000"%char.

(** [printf("%d", v)]. *)
Definition fmt_d (v : Z) : string := NilZero.string_of_int (Z.to_int v).

(* ------------------------------------------------------------------------- *)
(** ** Constants and globals of the program *)

Definition MAX_STRS : nat := 1000.
Definition MAX_LINE_LENGTH : nat := 1000.
Definition TOLERANCE : double := 0.00000000000001%float.
Definition MAX_SITES_init : Z := 1000.

(* ------------------------------------------------------------------------- *)
(** ** Counted loops and arrays *)

(** [for (i = start; <n more iterations>; ++i) s = body i s]. *)
Fixpoint for_loop {S : Type} (n : nat) (i : nat) (body : nat -> S -> S) (s : S) : S :=
  match n with
  | O => s
  | Datatypes.S n' => for_loop n' (Datatypes.S i) body (body i s)
  end.

(** [for (i = 0; i < bound; ++i)] with an [int] bound. *)
Definition for_upto {S : Type} (bound : Z) (body : nat -> S -> S) (s : S) : S :=
  for_loop (Z.to_nat bound) 0%nat body s.

(** [a[i] = x] on an array of fixed length. *)
Fixpoint set_nth {A : Type} (i : nat) (x : A) (a : list A) : list A :=
  match a, i with
  | [], _ => []
  | _ :: t, O => x :: t
  | h :: t, Datatypes.S i' => h :: set_nth i' x t
  end.

(** The two-dimensional array [int nrep[nsam][linked_n]]. *)
Definition matrix : Type := list (list Z).

Definition mget (m : matrix) (r c : nat) : Z := nth c (nth r m []) 0.

Definition mset (m : matrix) (r c : nat) (v : Z) : matrix :=
  set_nth r (set_nth c v (nth r m [])) m.

(** The variable-length array as declared, before any cell is assigned. *)
Definition vla (nsam linked_n : Z) : matrix :=
  repeat (repeat 0 (Z.to_nat linked_n)) (Z.to_nat nsam).

(* ------------------------------------------------------------------------- *)
(** ** The random generator *)

Record rng : Type := mkRng { draws : nat -> double; cursor : nat }.

(** [ran1()]: the next draw, and the generator advanced by one. *)
Definition ran1 (g : rng) : double * rng :=
  (draws g (cursor g), mkRng (draws g) (S (cursor g))).

(* ------------------------------------------------------------------------- *)
(** ** Configuration (the locals of [main] set from the command line) *)

Record config : Type := mkConfig {
  ancstate : Z;
  linked_n : Z;
  im_flag : Z;
  thetas : list double;
  theta_sum : double
}.

(** Initial values: [ancstate = 0, linked_n = 1, im_flag = 0, theta_sum = 0];
    [thetas] is an array of [MAX_STRS] doubles. *)
Definition config_init : config :=
  mkConfig 0 1 0 (repeat 0%float MAX_STRS) 0%float.

(* ------------------------------------------------------------------------- *)
(** ** Mutation engine (main, lines 186-230) *)

(** Lines 188-193: every cell receives the ancestral state. *)
Definition init_nrep (nsam : Z) (cfg : config) : matrix :=
  for_upto nsam (fun ind nrep =>
    for_upto (linked_n cfg) (fun j nrep => mset nrep ind j (ancstate cfg)) nrep)
    (vla nsam (linked_n cfg)).

(** Lines 202-203: the direction of the single step. *)
Definition step_of (d : double) : Z := if (d <? 0.5)%float then -1 else 1.

(** Lines 212-220: [n] iterations remain, [j] is the loop index, [value] the
    running sum, [this_str] the locus chosen so far. *)
Fixpoint locus_loop (th : list double) (random : double)
    (n : nat) (j : nat) (value : double) (this_str : nat) : nat :=
  match n with
  | O => this_str
  | S n' =>
      let value := (value + nth j th 0)%float in
      if fgt random value then locus_loop th random n' (S j) value this_str
      else j
  end.

(** Lines 209-220. *)
Definition choose_str (cfg : config) (random : double) : nat :=
  locus_loop (thetas cfg) random (Z.to_nat (linked_n cfg)) 0%nat 0%float 0%nat.

(** [list[ind][i]]. *)
Definition hap (list_ : list (list ascii)) (ind i : nat) : ascii :=
  nth i (nth ind list_ []) NUL.

(** Lines 223-229: the step is added for every individual carrying '1'. *)
Definition apply_step (nsam : Z) (list_ : list (list ascii)) (i : nat)
    (this_str : nat) (step : Z) (nrep : matrix) : matrix :=
  for_upto nsam (fun ind nrep =>
    if Ascii.eqb (hap list_ ind i) "1"%char
    then mset nrep ind this_str (int_add (mget nrep ind this_str) step)
    else nrep) nrep.

(** Lines 199-229: the body of the loop over segregating sites. *)
Definition site_body (cfg : config) (nsam : Z) (list_ : list (list ascii))
    (i : nat) (st : matrix * rng) : matrix * rng :=
  let (nrep, g) := st in
  let (d, g) := ran1 g in
  let step := step_of d in
  let (random, g) := ran1 g in
  let this_str := choose_str cfg random in
  (apply_step nsam list_ i this_str step nrep, g).

(** Lines 186-230. *)
Definition mutate (cfg : config) (nsam segsites : Z) (list_ : list (list ascii))
    (g : rng) : matrix * rng :=
  for_upto segsites (site_body cfg nsam list_) (init_nrep nsam cfg, g).

(* ------------------------------------------------------------------------- *)
(** ** Output formatter (main, lines 233-252) *)

(** Lines 235-243. *)
Definition print_flat (cfg : config) (nsam : Z) (nrep : matrix) (out : string) : string :=
  for_upto (linked_n cfg) (fun a out =>
    for_upto nsam (fun b out =>
      if (Z.of_nat b =? nsam - 1) && (Z.of_nat a =? linked_n cfg - 1)
      then (out ++ fmt_d (mget nrep b a) ++ NL)%string
      else (out ++ fmt_d (mget nrep b a) ++ TAB)%string) out) out.

(** Lines 245-251. *)
Definition print_im (cfg : config) (nsam : Z) (nrep : matrix) (out : string) : string :=
  let out :=
    for_upto nsam (fun a out =>
      let out :=
        for_upto (linked_n cfg - 1) (fun b out =>
          (out ++ fmt_d (mget nrep a b) ++ TAB)%string) out in
      (out ++ fmt_d (mget nrep a (Z.to_nat (linked_n cfg - 1))) ++ NL)%string) out in
  (out ++ "//" ++ NL)%string.

(** Lines 233-252. *)
Definition print_dataset (cfg : config) (nsam : Z) (nrep : matrix) (out : string) : string :=
  if im_flag cfg =? 0 then print_flat cfg nsam nrep out
  else print_im cfg nsam nrep out.

(* ------------------------------------------------------------------------- *)
(** ** Diagnostics and outcomes *)

Definition cstr : Type := list ascii.

(** The messages written to the error channel, one constructor per
    [fprintf(stderr, ...)] or [perror] of the program. *)
Inductive diag : Type :=
| no_values_a                                  (* line 78 *)
| no_values_l                                  (* line 92 *)
| only_thetas (j : nat) (linked_n : Z)         (* line 105 *)
| theta_sum_exceeds (theta_sum : double)       (* line 114 *)
| option_unknown (arg : cstr)                  (* line 121 *)
| malloc_failure_posit                         (* line 138 *)
| line_retrieval_fault                         (* line 149 *)
| realloc_failure_posit                        (* line 162 *)
| malloc_failure_1_cmatrix                     (* line 266 *)
| malloc_failure_2_cmatrix                     (* line 271 *)
| realloc_failure_biggerlist.                  (* line 286 *)

(** A step either continues with a value or leaves through [exit(status)]. *)
Inductive outcome (A : Type) : Type :=
| Ok (a : A)
| Exit (status : Z) (d : diag).

Arguments Ok {A} a.
Arguments Exit {A} status d.

(** What a run leaves behind: the text on standard output, the exit status
    and the diagnostic, if any. *)
Record result : Type := mkResult {
  stdout : string;
  status : Z;
  stderr : option diag
}.

(** A counted loop whose body may leave through [exit]. *)
Fixpoint for_loop_exit {S : Type} (n : nat) (i : nat) (body : nat -> S -> outcome S)
    (s : S) : outcome S :=
  match n with
  | O => Ok s
  | Datatypes.S n' =>
      match body i s with
      | Ok s' => for_loop_exit n' (Datatypes.S i) body s'
      | Exit status d => Exit status d
      end
  end.

Definition for_upto_exit {S : Type} (bound : Z) (body : nat -> S -> outcome S)
    (s : S) : outcome S :=
  for_loop_exit (Z.to_nat bound) 0%nat body s.

(* ------------------------------------------------------------------------- *)
(** ** The allocator *)

(** Whether the C library grants an allocation request is not decided by the
    program.  The heap is the sequence of these decisions, one for each
    [malloc] or [realloc] call of the run in the order of the calls, with a
    cursor, as the generator is for [ran1()].  A request for a block of no
    bytes is granted or refused like any other: the C standard leaves it to
    the library. *)
Record heap : Type := mkHeap { granted : nat -> bool; requests : nat }.

(** One call of [malloc] or [realloc]: whether it returns a block, and the
    heap after it. *)
Definition request (h : heap) : bool * heap :=
  (granted h (requests h), mkHeap (granted h) (S (requests h))).

(** Conversions to [unsigned] (32 bits), and to [size_t] (64 bits). *)
Definition to_unsigned (z : Z) : Z := z mod 2 ^ 32.

Definition to_size_t (z : Z) : Z := z mod 2 ^ 64.

(** The number of doubles in a block of [n * sizeof(double)] bytes, the
    product taken in [size_t]. *)
Definition doubles (n : Z) : Z := to_size_t (to_size_t n * 8) / 8.

(* ------------------------------------------------------------------------- *)
(** ** Haplotype buffers (cmatrix, biggerlist, main lines 135-140 and 158-166) *)

(** The global [MAX_SITES], the capacity of [posit] (in doubles), the
    character buffers [list[0..nsam-1]], each as long as its allocation, and
    the heap. *)
Record buffers : Type := mkBuffers {
  MAX_SITES : Z;
  posit : Z;
  list_ : list cstr;
  mem : heap
}.

(** The block of [malloc(n)] and of [realloc(buf, n)], for [n] characters;
    the bytes that the C library leaves indeterminate are zero here. *)
Definition malloc_chars (n : Z) : cstr := repeat NUL (Z.to_nat n).

Definition realloc_chars (buf : cstr) (n : Z) : cstr :=
  firstn (Z.to_nat n) buf ++ repeat NUL (Z.to_nat n - length buf).

(** Lines 261-276: one request for the array of [nsam] pointers, then one
    for each row of [(unsigned) len] characters. *)
Definition cmatrix (h : heap) (nsam len : Z) : outcome (list cstr * heap) :=
  let (ok, h) := request h in
  if negb ok then Exit 1 malloc_failure_1_cmatrix
  else
    for_upto_exit nsam (fun i (st : list cstr * heap) =>
      let (m, h) := st in
      let (ok, h) := request h in
      if negb ok then Exit 1 malloc_failure_2_cmatrix
      else Ok (set_nth i (malloc_chars (to_unsigned len)) m, h))
      (repeat [] (Z.to_nat nsam), h).

(** Lines 279-290: the [unsigned] argument is stored in the [int]
    [MAX_SITES], and every row is reallocated to [MAX_SITES] characters, the
    size taken in [size_t]. *)
Definition biggerlist (nsam : Z) (nmax : Z) (b : buffers) : outcome buffers :=
  let max := wrap_int (to_unsigned nmax) in
  match
    for_upto_exit nsam (fun i (st : list cstr * heap) =>
      let (l, h) := st in
      let (ok, h) := request h in
      if negb ok then Exit 1 realloc_failure_biggerlist
      else Ok (set_nth i (realloc_chars (nth i l []) (to_size_t max)) l, h))
      (list_ b, mem b)
  with
  | Ok (l, h) => Ok (mkBuffers max (posit b) l h)
  | Exit status d => Exit status d
  end.

(** Lines 135-140. *)
Definition alloc_buffers (h : heap) (nsam : Z) : outcome buffers :=
  match cmatrix h nsam (MAX_SITES_init + 1) with
  | Exit status d => Exit status d
  | Ok (l, h) =>
      let (ok, h) := request h in
      if negb ok then Exit 1 malloc_failure_posit
      else Ok (mkBuffers MAX_SITES_init (doubles MAX_SITES_init) l h)
  end.

(** Lines 158-166.  Line 165 is a declaration of [biggerlist], not a call of
    it: only [MAX_SITES] and [posit] change. *)
Definition grow (b : buffers) (segsites : Z) : outcome buffers :=
  if segsites >=? MAX_SITES b then
    let max := int_add segsites 10 in
    let (ok, h) := request (mem b) in
    if negb ok then Exit 1 realloc_failure_posit
    else Ok (mkBuffers max (doubles max) (list_ b) h)
  else Ok b.

(** The capacity of every haplotype buffer is at least [n]. *)
Definition capacity_ge (n : Z) (b : buffers) : Prop :=
  Forall (fun buf => n <= Z.of_nat (length buf)) (list_ b).

(** [fscanf(pfin, " %s", buf)] stores the token and a terminating NUL at the
    start of [buf]; bytes past the end of [buf] are not represented. *)
Definition write_str (tok buf : cstr) : cstr :=
  firstn (length buf) (tok ++ NUL :: skipn (S (length tok)) buf).

(* ------------------------------------------------------------------------- *)
(** ** Reading characters: fgets and the conversions of scanf *)

(** Characters of one [fgets] call, at most [k], through the first newline. *)
Fixpoint fgets_chars (k : nat) (inp : cstr) : cstr * cstr :=
  match k with
  | O => ([], inp)
  | S k' =>
      match inp with
      | [] => ([], [])
      | c :: rest =>
          if Ascii.eqb c newline then ([c], rest)
          else let (l, r) := fgets_chars k' rest in (c :: l, r)
      end
  end.

(** [fgets(line, n, pfin)]: [None] is the NULL returned at end of input. *)
Definition fgets (n : nat) (inp : cstr) : option (cstr * cstr) :=
  match inp with
  | [] => None
  | _ :: _ => Some (fgets_chars (n - 1) inp)
  end.

Definition isspace (c : ascii) : bool :=
  let n := nat_of_ascii c in
  (n =? 32)%nat || ((9 <=? n)%nat && (n <=? 13)%nat).

Definition isdigit (c : ascii) : bool :=
  let n := nat_of_ascii c in (48 <=? n)%nat && (n <=? 57)%nat.

Fixpoint skip_ws (inp : cstr) : cstr :=
  match inp with
  | c :: rest => if isspace c then skip_ws rest else inp
  | [] => []
  end.

(** The longest run of characters that are not white space. *)
Fixpoint take_token (inp : cstr) : cstr * cstr :=
  match inp with
  | c :: rest =>
      if isspace c then ([], inp)
      else let (t, r) := take_token rest in (c :: t, r)
  | [] => ([], [])
  end.

(** [%s]: [None] when the input ends before a token starts. *)
Definition scan_s (inp : cstr) : option cstr * cstr :=
  match take_token (skip_ws inp) with
  | ([], r) => (None, r)
  | (t, r) => (Some t, r)
  end.

(** The longest run of digits, with its value after [acc]. *)
Fixpoint take_digits (inp : cstr) (acc : Z) (seen : bool) : Z * bool * cstr :=
  match inp with
  | c :: rest =>
      if isdigit c
      then take_digits rest (10 * acc + Z.of_nat (nat_of_ascii c - 48)) true
      else (acc, seen, inp)
  | [] => (acc, seen, [])
  end.

(** [%d]: optional sign, then digits; [None] when no digit follows. *)
Definition scan_d (inp : cstr) : option Z * cstr :=
  let inp := skip_ws inp in
  let '(neg, inp) :=
    match inp with
    | c :: rest =>
        if Ascii.eqb c "-" then (true, rest)
        else if Ascii.eqb c "+" then (false, rest)
        else (false, inp)
    | [] => (false, [])
    end in
  match take_digits inp 0 false with
  | (v, true, r) => (Some (wrap_int (if neg then - v else v)), r)
  | (_, false, r) => (None, r)
  end.

(** [atoi(s)]. *)
Definition atoi (s : cstr) : Z :=
  match scan_d s with
  | (Some v, _) => v
  | (None, _) => 0
  end.

(** Ordinary characters of a format: each must equal the next input
    character; the scan stops at the first that does not. *)
Fixpoint match_lit (lit inp : cstr) : bool * cstr :=
  match lit with
  | [] => (true, inp)
  | c :: lit' =>
      match inp with
      | c' :: rest => if Ascii.eqb c c' then match_lit lit' rest else (false, inp)
      | [] => (false, [])
      end
  end.

(** Line 155: [fscanf(pfin, "  segsites: %d", &segsites)]; [segsites] keeps
    its value when the input does not match. *)
Definition scan_segsites (segsites : Z) (inp : cstr) : Z * cstr :=
  match match_lit (list_ascii_of_string "segsites:") (skip_ws inp) with
  | (false, r) => (segsites, r)
  | (true, r) =>
      match scan_d (skip_ws r) with
      | (Some v, r') => (v, r')
      | (None, r') => (segsites, r')
      end
  end.

Lemma fgets_chars_length (k : nat) (inp l r : cstr) :
  fgets_chars k inp = (l, r) -> (length l + length r = length inp)%nat.
Proof.
  revert inp l r.
  induction k as [|k IH]; intros inp l r H; simpl in H.
  - inversion H; reflexivity.
  - destruct inp as [|c rest].
    + inversion H; reflexivity.
    + destruct (Ascii.eqb c newline).
      * inversion H; reflexivity.
      * destruct (fgets_chars k rest) as [l' r'] eqn:E.
        inversion H; subst. simpl. f_equal. apply (IH _ _ _ E).
Qed.

Lemma fgets_chars_nonempty (k : nat) (c : ascii) (rest l r : cstr) :
  fgets_chars (S k) (c :: rest) = (l, r) -> l <> [].
Proof.
  simpl. destruct (Ascii.eqb c newline).
  - intros H; inversion H; discriminate.
  - destruct (fgets_chars k rest); intros H; inversion H; discriminate.
Qed.

Lemma fgets_inv (n : nat) (inp l r : cstr) :
  (2 <= n)%nat -> fgets n inp = Some (l, r) ->
  l <> [] /\ (length l + length r = length inp)%nat.
Proof.
  intros Hn H. destruct inp as [|c rest]; [discriminate|].
  unfold fgets in H.
  destruct (n - 1)%nat as [|k] eqn:Ek; [lia|].
  assert (E : fgets_chars (S k) (c :: rest) = (l, r)) by congruence.
  split.
  - exact (fgets_chars_nonempty _ _ _ _ _ E).
  - exact (fgets_chars_length _ _ _ _ E).
Qed.

Lemma fgets_shrinks (inp l r : cstr) :
  fgets MAX_LINE_LENGTH inp = Some (l, r) -> (length r < length inp)%nat.
Proof.
  intros H. apply fgets_inv in H; [|unfold MAX_LINE_LENGTH; lia].
  destruct H as [Hl Hlen]. destruct l; [contradiction|]. simpl in Hlen. lia.
Qed.

(** Lines 147-152: the do-while loop that looks for the start of a sample.
    [None] is the [exit(1)] taken when [fgets] returns NULL; otherwise the
    line that stopped the loop and the input after it. *)
Equations? skip_to_boundary (inp : cstr) : option (cstr * cstr)
  by wf (length inp) lt :=
skip_to_boundary inp with inspect (fgets MAX_LINE_LENGTH inp) := {
  | exist _ None _ => None
  | exist _ (Some (line, rest)) e =>
      if negb (Ascii.eqb (nth 0 line NUL) "/")
      then skip_to_boundary rest
      else Some (line, rest) }.
Proof.
  apply (fgets_shrinks _ _ _ e).
Qed.

(* ------------------------------------------------------------------------- *)
(** ** The program over the C library's number conversion *)

Section Program.

(** [strtod(s, &end)]: the value converted and the number of characters of
    [s] used ([end - s]); no characters used means no conversion. *)
Variable strtod : cstr -> double * nat.

(** [atof(s)]. *)
Definition atof (s : cstr) : double := fst (strtod s).

(** [%lf] and, without the value, [%*lf]: [None] when nothing converts. *)
Definition scan_lf (inp : cstr) : option double * cstr :=
  let inp := skip_ws inp in
  match strtod inp with
  | (_, O) => (None, inp)
  | (x, n) => (Some x, skipn n inp)
  end.

(** *** Command line (main, lines 68-132) *)

Definition set_ancstate (v : Z) (c : config) : config :=
  mkConfig v (linked_n c) (im_flag c) (thetas c) (theta_sum c).

Definition set_linked_n (v : Z) (c : config) : config :=
  mkConfig (ancstate c) v (im_flag c) (thetas c) (theta_sum c).

Definition set_im_flag (v : Z) (c : config) : config :=
  mkConfig (ancstate c) (linked_n c) v (thetas c) (theta_sum c).

Definition set_theta (j : nat) (x : double) (c : config) : config :=
  mkConfig (ancstate c) (linked_n c) (im_flag c) (set_nth j x (thetas c)) (theta_sum c).

Definition set_theta_sum (x : double) (c : config) : config :=
  mkConfig (ancstate c) (linked_n c) (im_flag c) (thetas c) x.

(** Lines 101-112: [n] iterations remain; [argv[flag_c]] past the last
    argument is the NULL that ends [argv]. *)
Fixpoint read_thetas (argv : list cstr) (n j flag_c : nat) (cfg : config)
    : outcome (nat * config) :=
  match n with
  | O => Ok (flag_c, cfg)
  | S n' =>
      let flag_c := S flag_c in
      match nth_error argv flag_c with
      | None => Exit 1 (only_thetas j (linked_n cfg))
      | Some a =>
          let cfg := set_theta j (atof a) cfg in
          let cfg := set_theta_sum (theta_sum cfg + nth j (thetas cfg) 0)%float cfg in
          read_thetas argv n' (S j) flag_c cfg
      end
  end.

(** Line 113. *)
Definition theta_sum_bad (theta_sum : double) : bool :=
  fgt (1 - theta_sum)%float TOLERANCE || fgt (theta_sum - 1)%float TOLERANCE.

(** Lines 69-126: the loop over [flag_c]; every iteration advances [flag_c],
    so [fuel] iterations are enough once [fuel] is at least [argc - flag_c]. *)
Fixpoint parse_loop (fuel : nat) (argv : list cstr) (flag_c : nat) (cfg : config)
    : outcome config :=
  match fuel with
  | O => Ok cfg
  | S fuel' =>
      if (flag_c <? length argv)%nat then
        let arg := nth flag_c argv [] in
        if Ascii.eqb (nth 0 arg NUL) "-" then
          let sw := nth 1 arg NUL in
          if Ascii.eqb sw "a" then
            let flag_c := S flag_c in
            match nth_error argv flag_c with
            | None => Exit 1 no_values_a
            | Some v => parse_loop fuel' argv (S flag_c) (set_ancstate (atoi v) cfg)
            end
          else if Ascii.eqb sw "i" then
            parse_loop fuel' argv (S flag_c) (set_im_flag 1 cfg)
          else if Ascii.eqb sw "l" then
            let flag_c := S flag_c in
            match nth_error argv flag_c with
            | None => Exit 1 no_values_l
            | Some v =>
                let cfg := set_linked_n (atoi v) cfg in
                if negb (linked_n cfg =? 1) then
                  match read_thetas argv (Z.to_nat (linked_n cfg)) 0 flag_c cfg with
                  | Exit s d => Exit s d
                  | Ok (flag_c, cfg) =>
                      if theta_sum_bad (theta_sum cfg)
                      then Exit 1 (theta_sum_exceeds (theta_sum cfg))
                      else parse_loop fuel' argv (S flag_c) cfg
                  end
                else parse_loop fuel' argv (S flag_c) cfg
            end
          else Exit 1 (option_unknown arg)
        else parse_loop fuel' argv (S (S flag_c)) cfg
      else Ok cfg
  end.

(** Lines 130-132. *)
Definition default_theta (cfg : config) : config :=
  if linked_n cfg =? 1 then set_theta 0 1%float cfg else cfg.

(** Lines 68-132. *)
Definition parse_args (argv : list cstr) : outcome config :=
  match parse_loop (length argv) argv 1 config_init with
  | Ok cfg => Ok (default_theta cfg)
  | Exit s d => Exit s d
  end.

(** *** Reading one sample (main, lines 146-183) *)

(** What [main] carries from one dataset to the next. *)
Record state : Type := mkState {
  bufs : buffers;
  segsites : Z;
  astr : cstr;
  pfin : cstr;
  gen : rng;
  out : string
}.

(** Lines 169-183.  The values stored in [prob] and [posit] are never read
    again and are not kept. *)
Definition read_sample (nsam : Z) (segsites : Z) (astr : cstr) (list_ : list cstr)
    (inp : cstr) : cstr * list cstr * cstr :=
  if segsites >? 0 then
    let (t, inp) := scan_s inp in
    let astr := match t with Some t => t | None => astr end in
    let inp :=
      if Ascii.eqb (nth 1 astr NUL) "r"
      then snd (scan_s (snd (scan_lf inp)))
      else inp in
    let inp := for_upto segsites (fun i inp => snd (scan_lf inp)) inp in
    let (list_, inp) :=
      for_upto nsam (fun i (st : list cstr * cstr) =>
        let (l, inp) := st in
        let (t, inp) := scan_s inp in
        (match t with
         | Some t => set_nth i (write_str t (nth i l [])) l
         | None => l
         end, inp)) (list_, inp) in
    (astr, list_, inp)
  else (astr, list_, inp).

(** Lines 146-252: one iteration of the loop over datasets. *)
Definition process_dataset (cfg : config) (nsam : Z) (st : state) : outcome state :=
  match skip_to_boundary (pfin st) with
  | None => Exit 1 line_retrieval_fault
  | Some (_, inp) =>
      let (segsites, inp) := scan_segsites (segsites st) inp in
      match grow (bufs st) segsites with
      | Exit status d => Exit status d
      | Ok b =>
          let '(astr, list_, inp) :=
            read_sample nsam segsites (astr st) (list_ b) inp in
          let b := mkBuffers (MAX_SITES b) (posit b) list_ (mem b) in
          let (nrep, g) := mutate cfg nsam segsites list_ (gen st) in
          Ok (mkState b segsites astr inp g (print_dataset cfg nsam nrep (out st)))
      end
  end.

(** Lines 143-254: [while (ms_datasets - count++)]. [None] stands for a loop
    that needs more than [fuel] iterations. *)
Fixpoint dataset_loop (fuel : nat) (cfg : config) (nsam ms_datasets count : Z)
    (st : state) : option result :=
  match fuel with
  | O => None
  | S fuel' =>
      if wrap_int (ms_datasets - count) =? 0
      then Some (mkResult (out st) 0 None)
      else
        match process_dataset cfg nsam st with
        | Exit s d => Some (mkResult (out st) s (Some d))
        | Ok st' => dataset_loop fuel' cfg nsam ms_datasets (wrap_int (count + 1)) st'
        end
  end.

(** Lines 63-65: the parameter line gives [nsam] and [ms_datasets]; the seed
    line is dropped. *)
Definition read_header (stdin : cstr) : Z * Z * cstr :=
  let (line, inp) :=
    match fgets MAX_LINE_LENGTH stdin with
    | Some p => p
    | None => ([], [])
    end in
  let (dummy, line) := scan_s line in
  let '(nsam, ms_datasets) :=
    match dummy with
    | None => (0, 0)
    | Some _ =>
        match scan_d line with
        | (None, _) => (0, 0)
        | (Some nsam, line) =>
            match scan_d line with
            | (None, _) => (nsam, 0)
            | (Some ms_datasets, _) => (nsam, ms_datasets)
            end
        end
    end in
  let inp :=
    match fgets MAX_LINE_LENGTH inp with
    | Some (_, inp) => inp
    | None => []
    end in
  (nsam, ms_datasets, inp).

(** Lines 51-257.  Every dataset uses at least one character of input, so the
    loop never needs more iterations than there are characters. *)
Definition main (argv : list cstr) (stdin : cstr) (g : rng) (h : heap)
    : option result :=
  let '(nsam, ms_datasets, inp) := read_header stdin in
  match parse_args argv with
  | Exit s d => Some (mkResult EmptyString s (Some d))
  | Ok cfg =>
      match alloc_buffers h nsam with
      | Exit s d => Some (mkResult EmptyString s (Some d))
      | Ok b =>
          dataset_loop (S (length inp)) cfg nsam ms_datasets 0
            (mkState b 0 [] inp g EmptyString)
      end
  end.

End Program.

(* ------------------------------------------------------------------------- *)
(** * Specification-level definitions and example data

    What the properties below are stated with: the reading of the
    specification's words next to the functions of the program, and the
    concrete inputs of the closed examples. *)

(** ** Reading the specification: the matrix and the draws *)

(** A matrix of [N] rows of [L] cells each. *)
Definition shape (N L : nat) (m : matrix) : Prop :=
  length m = N /\ forall r, (r < N)%nat -> length (nth r m []) = L.

(** The cell of individual [ind] at locus [k] after one site. *)
Definition stepped (list_ : list cstr) (i ind : nat) (step v : Z) : Z :=
  if Ascii.eqb (hap list_ ind i) "1" then int_add v step else v.

(** The two draws that site [k] of a dataset receives when the generator is
    [g] at the start of the dataset. *)
Definition direction_draw (g : rng) (k : nat) : double :=
  draws g (cursor g + 2 * k)%nat.

Definition locus_draw (g : rng) (k : nat) : double :=
  draws g (cursor g + 2 * k + 1)%nat.

(** The engine with the draws of every site handed to it: site [i] steps by
    [step_of (d i)] at the locus chosen from [r i]. *)
Definition mutate_with (cfg : config) (nsam : Z) (list_ : list cstr) (S : nat)
    (d r : nat -> double) : matrix :=
  fold_left
    (fun nrep i => apply_step nsam list_ i (choose_str cfg (r i)) (step_of (d i)) nrep)
    (seq 0 S) (init_nrep nsam cfg).

(** ** Reading the specification: locus assignment *)

(** The running sum [value] after the iterations [j, ..., j + k], started
    from [v]. *)
Definition partial (th : list double) (v : double) (j k : nat) : double :=
  fold_left (fun a x => (a + nth x th 0)%float) (seq j (S k)) v.

(** [theta[0] + ... + theta[j]], summed from 0.0 in index order. *)
Definition cumsum (th : list double) (j : nat) : double := partial th 0%float 0 j.

(** The assignment as the specification words it: the first locus whose
    cumulative sum reaches the draw, and the last locus when none does. *)
Definition assigned_first_else_last (cfg : config) (r : double) : Prop :=
  let L := Z.to_nat (linked_n cfg) in
  let cum := cumsum (thetas cfg) in
  (forall j, (j < L)%nat -> (r <=? cum j)%float = true ->
     (forall k, (k < j)%nat -> (r <=? cum k)%float = false) ->
     choose_str cfg r = j) /\
  ((forall j, (j < L)%nat -> (r <=? cum j)%float = false) ->
     choose_str cfg r = (L - 1)%nat).

(** ** Reading the specification: the command line *)

(** The configuration after [thetas[j] = x; theta_sum += thetas[j]]. *)
Definition add_theta (j : nat) (x : double) (cfg : config) : config :=
  let cfg := set_theta j x cfg in
  set_theta_sum (theta_sum cfg + nth j (thetas cfg) 0)%float cfg.

Fixpoint store_thetas (j : nat) (xs : list double) (cfg : config) : config :=
  match xs with
  | [] => cfg
  | x :: xs' => store_thetas (S j) xs' (add_theta j x cfg)
  end.

(** The command line [prog -l n t1 ... tL]. *)
Definition argv_l (prog n : cstr) (ts : list cstr) : list cstr :=
  prog :: list_ascii_of_string "-l" :: n :: ts.

(** The configuration that [-l n t1 ... tL] leaves when it is accepted. *)
Definition cfg_l (strtod : cstr -> double * nat) (n : cstr) (ts : list cstr) : config :=
  store_thetas 0 (map (atof strtod) ts) (set_linked_n (atoi n) config_init).

(** ** Reading the specification: the lines of the input *)

Fixpoint is_prefix (p s : cstr) : bool :=
  match p, s with
  | [], _ => true
  | c :: p', c' :: s' => Ascii.eqb c c' && is_prefix p' s'
  | _ :: _, [] => false
  end.

(** The input as successive [fgets] calls cut it: whole lines, and pieces of
    [MAX_LINE_LENGTH - 1] characters of a longer line. *)
Equations? fgets_lines (inp : cstr) : list cstr by wf (length inp) lt :=
fgets_lines inp with inspect (fgets MAX_LINE_LENGTH inp) := {
  | exist _ None _ => []
  | exist _ (Some (line, rest)) e => line :: fgets_lines rest }.
Proof.
  apply (fgets_shrinks _ _ _ e).
Qed.

Definition no_slash (line : cstr) : Prop := nth 0 line NUL <> "/"%char.

(** The boundary as the specification words it: the line that ends the
    skipping begins with the two characters of the marker. *)
Definition stops_at_marker (inp : cstr) : Prop :=
  forall line rest,
    skip_to_boundary inp = Some (line, rest) ->
    is_prefix (list_ascii_of_string "//") line = true.

(** ** Reading the specification: the text of the output *)

Fixpoint join (l : list string) : string :=
  match l with
  | [] => EmptyString
  | x :: l' => (x ++ join l')%string
  end.

(** Every string of the list followed by a tab. *)
Definition tabbed (l : list string) : string :=
  join (map (fun s => (s ++ TAB)%string) l).

(** The values of a dataset in flat order: locus by locus, and within a
    locus individual by individual. *)
Definition flat_values (nsam linked_n : Z) (nrep : matrix) : list Z :=
  flat_map (fun a => map (fun b => mget nrep b a) (seq 0 (Z.to_nat nsam)))
    (seq 0 (Z.to_nat linked_n)).

(** The values of individual [a], locus by locus. *)
Definition row_values (linked_n : Z) (nrep : matrix) (a : nat) : list Z :=
  map (fun b => mget nrep a b) (seq 0 (Z.to_nat linked_n)).

(** Values in decimal, separated by tabs. *)
Definition tab_line (vs : list Z) : string := String.concat TAB (map fmt_d vs).

(** Lines, each ended by a newline. *)
Definition text_of_lines (ls : list string) : string :=
  join (map (fun l => (l ++ NL)%string) ls).

Fixpoint has_char (c : ascii) (s : string) : bool :=
  match s with
  | EmptyString => false
  | String c' s' => Ascii.eqb c c' || has_char c s'
  end.

Definition newline_free (s : string) : Prop := has_char newline s = false.

(** ** Example data *)

(** A [strtod] that knows the literals of a table and converts nothing else;
    it stands for the C library in the closed examples below. *)
Fixpoint strtod_table (tbl : list (string * double)) (s : cstr) : double * nat :=
  match tbl with
  | [] => (0%float, 0%nat)
  | (k, v) :: tbl' =>
      if is_prefix (list_ascii_of_string k) s then (v, String.length k)
      else strtod_table tbl' s
  end.

Definition strtod_ex : cstr -> double * nat :=
  strtod_table
    [("0.25", 0.25%float); ("0.75", 0.75%float);
     ("0.49999999999999", 0.49999999999999%float); ("0.4", 0.4%float);
     ("0.5", 0.5%float); ("0.6", 0.6%float)]%string.

(** A [strtod] for plain decimals, [digits], [digits.digits], [.digits] or
    [digits.] after an optional sign: the longest prefix of that form is
    used, and converted to the double nearest to the quotient of its digits
    by the power of ten (exact operands up to 2^53).  It stands for the C
    library where the numbers read are of that form. *)
Fixpoint span_digits (s : cstr) : cstr * cstr :=
  match s with
  | c :: r =>
      if isdigit c then let (d, r') := span_digits r in (c :: d, r') else ([], s)
  | [] => ([], [])
  end.

Definition digits_val (ds : cstr) : Z :=
  fold_left (fun a c => 10 * a + Z.of_nat (nat_of_ascii c - 48)) ds 0.

Definition float_of_Z (z : Z) : double := PrimFloat.of_uint63 (Uint63.of_Z z).

Definition strtod_dec (s : cstr) : double * nat :=
  let '(neg, nsign, s1) :=
    match s with
    | c :: r =>
        if Ascii.eqb c "-" then (true, 1%nat, r)
        else if Ascii.eqb c "+" then (false, 1%nat, r)
        else (false, 0%nat, s)
    | [] => (false, 0%nat, [])
    end in
  let (ip, r1) := span_digits s1 in
  let '(fp, ndot) :=
    match r1 with
    | c :: r => if Ascii.eqb c "." then (fst (span_digits r), 1%nat) else ([], 0%nat)
    | [] => ([], 0%nat)
    end in
  match ip ++ fp with
  | [] => (0%float, 0%nat)
  | ds =>
      let x :=
        (float_of_Z (digits_val ds) / float_of_Z (10 ^ Z.of_nat (length fp)))%float in
      (if neg then (- x)%float else x, (nsign + length ip + ndot + length fp)%nat)
  end.

Definition cstrs (l : list string) : list cstr := map list_ascii_of_string l.

Definition arg (s : string) : cstr := list_ascii_of_string s.

(** Ancestral state 20, one locus, flat output: the program run with [-a 20]. *)
Definition cfg_ex : config :=
  mkConfig 20 1 0 (set_nth 0 1%float (repeat 0%float MAX_STRS)) 0%float.

(** Two loci with proportions 0.4 and 0.6, ancestral state 20, one line per
    individual: the program run with [-a 20 -i -l 2 0.4 0.6]. *)
Definition cfg_im : config :=
  mkConfig 20 2 1
    (set_nth 1 0.6%float (set_nth 0 0.4%float (repeat 0%float MAX_STRS))) 1%float.

(** Two loci with proportions 0.5 and 0.49999999999999, as the command line
    [-l 2 0.5 0.49999999999999] leaves them: their sum, 1 - 1e-14 to the
    nearest double, passes the check of line 113. *)
Definition cfg_near_one : config :=
  cfg_l strtod_ex (arg "2") [arg "0.5"; arg "0.49999999999999"].

(** The draw 1 - 2^-48, the largest multiple of 2^-48 below 1. *)
Definition draw_near_one : double := 0x1.fffffffffffep-1%float.

Definition rows_ex : list cstr := cstrs ["10"; "01"; "11"]%string.

Definition nrep_ex : matrix := [[21; 20]; [20; 19]; [21; 19]].

Definition gen_ex : rng :=
  mkRng (fun k => match k with
                  | 0%nat => 0.7 | 1%nat => 0.3 | 2%nat => 0.2 | _ => 0.9
                  end%float) 0.

(** A generator that gives the draws of [gen_ex] from its third position on,
    and other draws after the first four of them. *)
Definition gen_ex' : rng :=
  mkRng (fun k => match k with
                  | 2%nat => 0.7 | 3%nat => 0.3 | 4%nat => 0.2 | 5%nat => 0.9
                  | _ => 0.1
                  end%float) 2.

Definition stdin_ex : cstr :=
  list_ascii_of_string
    ("ms 3 2 -t 4.0" ++ NL ++ "1 2 3" ++ NL ++ NL ++
     "//" ++ NL ++ "segsites: 2" ++ NL ++ "positions: 0.25 0.75 " ++ NL ++
     "10" ++ NL ++ "01" ++ NL ++ "11" ++ NL ++ NL ++
     "//" ++ NL ++ "segsites: 0" ++ NL)%string.

(** An allocator that grants every request. *)
Definition heap_ex : heap := mkHeap (fun _ => true) 0.

(** The buffers of three individuals as lines 135-140 leave them on
    [heap_ex]. *)
Definition buffers_ex : buffers :=
  match alloc_buffers heap_ex 3 with
  | Ok b => b
  | Exit _ _ => mkBuffers 0 0 [] heap_ex
  end.

Definition state_ex (inp : string) : state :=
  mkState buffers_ex 0 [] (list_ascii_of_string inp) gen_ex
    ("21" ++ TAB ++ "19" ++ TAB ++ "20" ++ NL)%string.

(** The output line as the specification gives it. *)
Definition flat_line_as_specified (g : rng) : Prop :=
  step_of (direction_draw g 0) = 1 -> step_of (direction_draw g 1) = -1 ->
  print_dataset cfg_ex 3 (fst (mutate cfg_ex 3 2 rows_ex g)) EmptyString
  = ("21" ++ TAB ++ "19" ++ TAB ++ "19" ++ NL)%string.

(** ** Reading the code: the steps that reach a cell *)

(** The steps of the sites [0 .. S-1], in site order, that are assigned to
    locus [j] and at which individual [ind] carries '1'. *)
Definition site_steps (cfg : config) (list_ : list cstr) (S : nat)
    (d r : nat -> double) (ind j : nat) : list Z :=
  map (fun i => step_of (d i))
    (filter (fun i => (choose_str cfg (r i) =? j)%nat
                      && Ascii.eqb (hap list_ ind i) "1")
       (seq 0 S)).

(** The bounds of an [int]. *)
Definition in_int (z : Z) : Prop := - 2 ^ 31 <= z < 2 ^ 31.

(** Three individuals over two sites, the first two with the same haplotype
    and the third without any '1'. *)
Definition rows_twin : list cstr := cstrs ["10"; "10"; "00"]%string.

(** A state entering its first dataset, for the examples. *)
Definition state0_ex (inp : string) : state :=
  mkState buffers_ex 0 [] (list_ascii_of_string inp) gen_ex EmptyString.

(** ** Reading the code: what an accepted configuration satisfies *)

Definition config_ok (cfg : config) : Prop :=
  length (thetas cfg) = MAX_STRS /\
  (linked_n cfg = 1 \/ theta_sum_bad (theta_sum cfg) = false) /\
  (im_flag cfg = 0 \/ im_flag cfg = 1).

(** ** Reading the code: decimal text *)

(** The value of a decimal numeral read digit by digit after [acc]. *)
Fixpoint uint_val (d : Decimal.uint) (acc : Z) : Z :=
  match d with
  | Decimal.Nil => acc
  | Decimal.D0 l => uint_val l (10 * acc + 0)
  | Decimal.D1 l => uint_val l (10 * acc + 1)
  | Decimal.D2 l => uint_val l (10 * acc + 2)
  | Decimal.D3 l => uint_val l (10 * acc + 3)
  | Decimal.D4 l => uint_val l (10 * acc + 4)
  | Decimal.D5 l => uint_val l (10 * acc + 5)
  | Decimal.D6 l => uint_val l (10 * acc + 6)
  | Decimal.D7 l => uint_val l (10 * acc + 7)
  | Decimal.D8 l => uint_val l (10 * acc + 8)
  | Decimal.D9 l => uint_val l (10 * acc + 9)
  end.

(** The text does not go on with a digit. *)
Definition no_digit_next (rest : cstr) : Prop :=
  match rest with
  | [] => True
  | c :: _ => isdigit c = false
  end.

(** The characters of [printf("%d", v)]. *)
Definition chars_d (v : Z) : cstr := list_ascii_of_string (fmt_d v).

(** White space only. *)
Definition blank (ws : cstr) : Prop := Forall (fun c => isspace c = true) ws.

(** No white space at all. *)
Definition solid (t : cstr) : Prop := Forall (fun c => isspace c = false) t.

(** The text ends here or goes on with white space. *)
Definition ends_token (r : cstr) : Prop :=
  match r with
  | [] => True
  | c :: _ => isspace c = true
  end.

(** No newline among the characters. *)
Definition one_line (l : cstr) : Prop := Forall (fun c => c <> newline) l.

(** ** Reading the code: the tokens of a sample *)

(** Tokens, each written after its separating white space. *)
Definition spaced (l : list (cstr * cstr)) : cstr :=
  flat_map (fun p => fst p ++ snd p) l.

(** Every separator is white space, every token is free of it, and neither
    is empty. *)
Definition well_spaced (l : list (cstr * cstr)) : Prop :=
  Forall (fun p => blank (fst p) /\ fst p <> [] /\ solid (snd p) /\ snd p <> []) l.

(** The buffers after the tokens were stored in [list[i]], [list[i+1]], ... *)
Fixpoint store_rows (i : nat) (toks : list cstr) (l : list cstr) : list cstr :=
  match toks with
  | [] => l
  | t :: ts => store_rows (S i) ts (set_nth i (write_str t (nth i l [])) l)
  end.

(** The sample of the worked example as it stands in the input. *)
Definition sample_ex : cstr :=
  list_ascii_of_string
    (NL ++ "positions: 0.25 0.75 " ++ NL ++ "10" ++ NL ++ "01" ++ NL ++ "11" ++ NL)%string.

(** The same sample after a line [prob: 0.5]. *)
Definition sample_prob_ex : cstr :=
  list_ascii_of_string
    (NL ++ "prob: 0.5" ++ NL ++ "positions: 0.25 0.75 " ++ NL ++
     "10" ++ NL ++ "01" ++ NL ++ "11" ++ NL)%string.

(** ** Reading the code: a whole dataset *)

(** Lines of the input, each followed by its newline. *)
Definition lines (ls : list cstr) : cstr := flat_map (fun l => l ++ [newline]) ls.

(** A line that one call of [fgets] reads whole, newline included. *)
Definition short_line (l : cstr) : Prop :=
  one_line l /\ (length l < MAX_LINE_LENGTH - 1)%nat.

(** Buffers that hold the rows of [rows_ex] and other characters after
    them, with a fourth buffer that belongs to no individual. *)
Definition rows_stale : list cstr := cstrs ["10x1"; "011"; "11"; "11"]%string.

(** The first dataset of [stdin_ex] with what follows it. *)
Definition dataset_ex : string :=
  (NL ++ "//" ++ NL ++ "segsites: 2" ++ NL ++ "positions: 0.25 0.75 " ++ NL ++
   "10" ++ NL ++ "01" ++ NL ++ "11" ++ NL ++ NL ++
   "//" ++ NL ++ "segsites: 0" ++ NL)%string.

(** A dataset as it stands in the input: the lines before the boundary line,
    the boundary line, the count line with the white space before
    [segsites:] and before the number, and the sample: white space and a
    first token, then the site numbers and the haplotypes, each after its
    white space. *)
Record dataset : Type := mkDataset {
  d_skipped : list cstr;
  d_boundary : cstr;
  d_ws : cstr;
  d_ws' : cstr;
  d_sites : Z;
  d_ws0 : cstr;
  d_first : cstr;
  d_positions : list (cstr * cstr);
  d_haplotypes : list (cstr * cstr)
}.

Definition dataset_text (d : dataset) : cstr :=
  lines (d_skipped d) ++ d_boundary d ++ newline ::
  d_ws d ++ list_ascii_of_string "segsites:" ++ d_ws' d ++ chars_d (d_sites d) ++
  d_ws0 d ++ d_first d ++ spaced (d_positions d) ++ spaced (d_haplotypes d).

(** A dataset within the limits of the reader: lines that [fgets] reads
    whole, at most [MAX_SITES_init] sites, numbers that [strtod] uses up
    whole, haplotypes of one character per site; without sites nothing
    follows the count, with sites the sample has a first token (not one with
    'r' as second character, and fitting the 100 characters of [astr]) and
    one haplotype per individual. *)
Definition dataset_ok (strtod : cstr -> double * nat) (nsam : Z) (d : dataset) : Prop :=
  ends_token (dataset_text d) /\
  Forall (fun l => short_line l /\ nth 0 l NUL <> "/"%char) (d_skipped d) /\
  short_line (d_boundary d) /\ nth 0 (d_boundary d) NUL = "/"%char /\
  blank (d_ws d) /\ blank (d_ws' d) /\
  0 <= d_sites d <= MAX_SITES_init /\
  well_spaced (d_positions d) /\
  length (d_positions d) = Z.to_nat (d_sites d) /\
  (forall p r, In p (d_positions d) -> ends_token r ->
     snd (strtod (snd p ++ r)) = length (snd p)) /\
  well_spaced (d_haplotypes d) /\
  Forall (fun h => length (snd h) = Z.to_nat (d_sites d)) (d_haplotypes d) /\
  if d_sites d =? 0
  then d_ws0 d = [] /\ d_first d = [] /\ d_haplotypes d = []
  else blank (d_ws0 d) /\ d_ws0 d <> [] /\ d_first d <> [] /\ solid (d_first d) /\
       (length (d_first d) < 100)%nat /\ nth 1 (d_first d) NUL <> "r"%char /\
       length (d_haplotypes d) = Z.to_nat nsam.

(** The engine and the formatter applied to the datasets in turn, the
    generator and the output handed from one to the next. *)
Fixpoint run_datasets (cfg : config) (nsam : Z) (ds : list dataset) (g : rng)
    (out : string) : string :=
  match ds with
  | [] => out
  | d :: ds =>
      let (nrep, g') := mutate cfg nsam (d_sites d) (map snd (d_haplotypes d)) g in
      run_datasets cfg nsam ds g' (print_dataset cfg nsam nrep out)
  end.

(** The buffers between the datasets of a run whose allocator grants every
    request: every haplotype buffer has the size given at allocation and
    [MAX_SITES] has not gone below its first value. *)
Definition buffers_ready (nsam : Z) (b : buffers) : Prop :=
  map (@length ascii) (list_ b)
  = repeat (Z.to_nat (MAX_SITES_init + 1)) (Z.to_nat nsam) /\
  MAX_SITES_init <= MAX_SITES b /\
  forall k, granted (mem b) k = true.

(** The two datasets of [stdin_ex]. *)
Definition datasets_ex : list dataset :=
  [ mkDataset [arg ""] (arg "//") [] (arg " ") 2
      (list_ascii_of_string NL) (arg "positions:")
      [(arg " ", arg "0.25"); (arg " ", arg "0.75")]
      [(list_ascii_of_string (" " ++ NL), arg "10");
       (list_ascii_of_string NL, arg "01");
       (list_ascii_of_string NL, arg "11")];
    mkDataset [arg ""; arg ""] (arg "//") [] (arg " ") 0 [] [] [] [] ].

(** ** Reading the code: the state of the option loop *)

(** The loop over the arguments arrives at [argv[k]] with the configuration
    [cfg]: after some iterations what is left of the loop is the loop run
    from [k] with [cfg]. *)
Definition arrives (strtod : cstr -> double * nat) (argv : list cstr) (k : nat)
    (cfg : config) : Prop :=
  exists m, forall fuel,
    parse_loop strtod (m + fuel) argv 1 config_init
    = parse_loop strtod fuel argv k cfg.



(* ------------------------------------------------------------------------- *)
(** * Properties *)

(** ** Loops and arrays *)

Lemma for_loop_last {S : Type} (n i : nat) (body : nat -> S -> S) (s : S) :
  for_loop (Datatypes.S n) i body s = body (i + n)%nat (for_loop n i body s).
Proof.
  revert i s. induction n as [|n IH]; intros i s.
  - simpl. now rewrite Nat.add_0_r.
  - change (for_loop (Datatypes.S (Datatypes.S n)) i body s)
      with (for_loop (Datatypes.S n) (Datatypes.S i) body (body i s)).
    rewrite IH. simpl. now rewrite Nat.add_succ_r.
Qed.

(** Invariant rule for a counted loop. *)
Lemma for_loop_inv {S : Type} (P : nat -> S -> Prop) (n i : nat)
    (body : nat -> S -> S) (s : S) :
  P i s ->
  (forall k t, (i <= k < i + n)%nat -> P k t -> P (Datatypes.S k) (body k t)) ->
  P (i + n)%nat (for_loop n i body s).
Proof.
  revert i s. induction n as [|n IH]; intros i s H0 Hstep.
  - simpl. now rewrite Nat.add_0_r.
  - simpl. rewrite <- Nat.add_succ_comm. apply IH.
    + apply Hstep; [lia | exact H0].
    + intros k t Hk. apply Hstep. lia.
Qed.

Lemma for_upto_inv {S : Type} (P : nat -> S -> Prop) (bound : Z)
    (body : nat -> S -> S) (s : S) :
  P 0%nat s ->
  (forall k t, (k < Z.to_nat bound)%nat -> P k t -> P (Datatypes.S k) (body k t)) ->
  P (Z.to_nat bound) (for_upto bound body s).
Proof.
  intros H0 Hstep. unfold for_upto.
  apply (for_loop_inv P (Z.to_nat bound) 0 body s H0).
  intros k t Hk. apply Hstep. lia.
Qed.

Lemma set_nth_length {A : Type} (i : nat) (x : A) (a : list A) :
  length (set_nth i x a) = length a.
Proof.
  revert i. induction a as [|h t IH]; intros [|i]; simpl; auto.
Qed.

Lemma nth_set_nth_eq {A : Type} (i : nat) (x d : A) (a : list A) :
  (i < length a)%nat -> nth i (set_nth i x a) d = x.
Proof.
  revert i. induction a as [|h t IH]; intros [|i] Hi; simpl in *; try lia; auto.
  apply IH. lia.
Qed.

Lemma nth_set_nth_neq {A : Type} (i k : nat) (x d : A) (a : list A) :
  k <> i -> nth k (set_nth i x a) d = nth k a d.
Proof.
  revert i k. induction a as [|h t IH]; intros [|i] [|k] Hk; simpl; auto; try congruence.
Qed.

Lemma vla_shape (nsam linked_n : Z) :
  shape (Z.to_nat nsam) (Z.to_nat linked_n) (vla nsam linked_n).
Proof.
  unfold shape, vla. split.
  - apply repeat_length.
  - intros r Hr. rewrite nth_repeat_lt by assumption. apply repeat_length.
Qed.

Lemma mset_shape (N L : nat) (m : matrix) (r c : nat) (v : Z) :
  shape N L m -> shape N L (mset m r c v).
Proof.
  intros [Hlen Hrow]. unfold mset. split.
  - now rewrite set_nth_length.
  - intros k Hk. destruct (Nat.eq_dec k r) as [->|Hne].
    + rewrite nth_set_nth_eq by lia. rewrite set_nth_length. now apply Hrow.
    + rewrite nth_set_nth_neq by assumption. now apply Hrow.
Qed.

Lemma mget_mset_same (N L : nat) (m : matrix) (r c : nat) (v : Z) :
  shape N L m -> (r < N)%nat -> (c < L)%nat -> mget (mset m r c v) r c = v.
Proof.
  intros [Hlen Hrow] Hr Hc. unfold mget, mset.
  rewrite nth_set_nth_eq by lia. apply nth_set_nth_eq. rewrite Hrow; lia.
Qed.

Lemma mget_mset_other (m : matrix) (r c r' c' : nat) (v : Z) :
  (r', c') <> (r, c) -> mget (mset m r c v) r' c' = mget m r' c'.
Proof.
  intros Hne. unfold mget, mset.
  destruct (Nat.eq_dec r' r) as [->|Hr].
  - destruct (Nat.lt_ge_cases r (length m)) as [Hlt|Hge].
    + rewrite nth_set_nth_eq by assumption.
      apply nth_set_nth_neq. congruence.
    + assert (E : forall (a : list (list Z)) i x, (length a <= i)%nat -> set_nth i x a = a).
      { induction a as [|h t IH]; intros [|i] x Hi; simpl in *; try lia; auto.
        f_equal. apply IH. lia. }
      now rewrite E.
  - now rewrite nth_set_nth_neq.
Qed.

(** ** The repeat-length matrix *)

Lemma fill_row (N L : nat) (bound : Z) (m : matrix) (ind : nat) (v : Z) :
  Z.to_nat bound = L -> shape N L m -> (ind < N)%nat ->
  let m' := for_upto bound (fun j nrep => mset nrep ind j v) m in
  shape N L m' /\
  (forall c, (c < L)%nat -> mget m' ind c = v) /\
  (forall r c, r <> ind -> mget m' r c = mget m r c).
Proof.
  intros HL Hm Hind. cbv zeta. subst L.
  apply (for_upto_inv (fun j t =>
    shape N (Z.to_nat bound) t /\
    (forall c, (c < j)%nat -> mget t ind c = v) /\
    (forall r c, r <> ind -> mget t r c = mget m r c))).
  - split; [exact Hm|]. split; [intros; lia | intros; reflexivity].
  - intros k t Hk (Hs & Hdone & Hrest). split; [|split].
    + now apply mset_shape.
    + intros c Hc. destruct (Nat.eq_dec c k) as [->|Hne].
      * now apply (mget_mset_same N (Z.to_nat bound)).
      * rewrite mget_mset_other by congruence. apply Hdone. lia.
    + intros r c Hr. rewrite mget_mset_other by congruence. now apply Hrest.
Qed.

Lemma init_nrep_spec (nsam : Z) (cfg : config) :
  let N := Z.to_nat nsam in
  let L := Z.to_nat (linked_n cfg) in
  shape N L (init_nrep nsam cfg) /\
  forall r c, (r < N)%nat -> (c < L)%nat -> mget (init_nrep nsam cfg) r c = ancstate cfg.
Proof.
  cbv zeta. unfold init_nrep.
  apply (for_upto_inv (fun ind t =>
    shape (Z.to_nat nsam) (Z.to_nat (linked_n cfg)) t /\
    forall r c, (r < ind)%nat -> (c < Z.to_nat (linked_n cfg))%nat ->
                mget t r c = ancstate cfg)).
  - split; [apply vla_shape | intros; lia].
  - intros k t Hk [Hs Hdone].
    destruct (fill_row _ _ (linked_n cfg) t k (ancstate cfg) eq_refl Hs Hk)
      as (Hs' & Hrow & Hrest).
    split; [exact Hs'|].
    intros r c Hr Hc. destruct (Nat.eq_dec r k) as [->|Hne].
    + now apply Hrow.
    + rewrite Hrest by assumption. apply Hdone; [lia | assumption].
Qed.

Lemma apply_step_spec (N L : nat) (nsam : Z) (list_ : list cstr) (i k : nat)
    (step : Z) (m : matrix) :
  Z.to_nat nsam = N -> shape N L m -> (k < L)%nat ->
  let m' := apply_step nsam list_ i k step m in
  shape N L m' /\
  (forall ind, (ind < N)%nat -> mget m' ind k = stepped list_ i ind step (mget m ind k)) /\
  (forall ind c, c <> k -> mget m' ind c = mget m ind c).
Proof.
  intros HN Hm Hk. cbv zeta. subst N. unfold apply_step.
  pose (P := fun (n : nat) (t : matrix) =>
    shape (Z.to_nat nsam) L t /\
    (forall ind, (ind < n)%nat -> mget t ind k = stepped list_ i ind step (mget m ind k)) /\
    (forall ind, (n <= ind)%nat -> mget t ind k = mget m ind k) /\
    (forall ind c, c <> k -> mget t ind c = mget m ind c)).
  assert (H : P (Z.to_nat nsam)
      (for_upto nsam (fun ind nrep =>
         if Ascii.eqb (hap list_ ind i) "1"
         then mset nrep ind k (int_add (mget nrep ind k) step)
         else nrep) m)).
  { apply (for_upto_inv P); unfold P.
    - split; [exact Hm|]. split; [intros; lia|]. split; intros; reflexivity.
    - intros n t Hn (Hs & Hdone & Htodo & Hother).
      assert (Hcur : mget t n k = mget m n k) by (apply Htodo; lia).
      destruct (Ascii.eqb (hap list_ n i) "1") eqn:E.
      + split; [now apply mset_shape|]. split; [|split].
        * intros ind Hind. destruct (Nat.eq_dec ind n) as [->|Hne].
          -- rewrite (mget_mset_same (Z.to_nat nsam) L) by assumption.
             unfold stepped. now rewrite E, Hcur.
          -- rewrite mget_mset_other by congruence. apply Hdone. lia.
        * intros ind Hind. rewrite mget_mset_other by (intros X; inversion X; lia).
          apply Htodo. lia.
        * intros ind c Hc. rewrite mget_mset_other by congruence. now apply Hother.
      + split; [exact Hs|]. split; [|split].
        * intros ind Hind. destruct (Nat.eq_dec ind n) as [->|Hne].
          -- unfold stepped. now rewrite E.
          -- apply Hdone. lia.
        * intros ind Hind. apply Htodo. lia.
        * exact Hother. }
  destruct H as (Hs & Hdone & _ & Hother). auto.
Qed.

(** ** Comparison of doubles *)

Lemma SFcompare_antisym (x y : spec_float) :
  SFcompare y x = option_map CompOpp (SFcompare x y).
Proof.
  destruct x as [sx|sx| |sx mx ex], y as [sy|sy| |sy my ey]; simpl;
    try reflexivity;
    try (destruct sx; reflexivity);
    try (destruct sy; reflexivity);
    try (destruct sx, sy; reflexivity).
  f_equal.
  change (Pos.compare_cont Eq my mx) with (Pos.compare my mx).
  change (Pos.compare_cont Eq mx my) with (Pos.compare mx my).
  rewrite (Z.compare_antisym ex ey), (Pos.compare_antisym mx my).
  destruct sx, sy; try reflexivity;
    destruct (Z.compare ex ey); simpl; try reflexivity;
    destruct (Pos.compare mx my); reflexivity.
Qed.

Lemma is_nan_false (x : double) :
  is_nan x = false -> exists c, SFcompare (Prim2SF x) (Prim2SF x) = Some c.
Proof.
  unfold is_nan. rewrite eqb_spec. unfold SFeqb.
  destruct (SFcompare (Prim2SF x) (Prim2SF x)) as [c|]; [eauto | discriminate].
Qed.

Lemma SFcompare_defined (x y : spec_float) (c c' : comparison) :
  SFcompare x x = Some c -> SFcompare y y = Some c' ->
  exists d, SFcompare x y = Some d.
Proof.
  destruct x, y; simpl; intros Hx Hy; try discriminate; eauto.
Qed.

(** On numbers, [a > b] is the negation of [a <= b]. *)
Lemma fgt_not_leb (a b : double) :
  is_nan a = false -> is_nan b = false -> fgt a b = negb (a <=? b)%float.
Proof.
  intros Ha Hb. unfold fgt. rewrite ltb_spec, leb_spec. unfold SFltb, SFleb.
  destruct (is_nan_false a Ha) as [ca Hca].
  destruct (is_nan_false b Hb) as [cb Hcb].
  destruct (SFcompare_defined _ _ _ _ Hca Hcb) as [d Hd].
  rewrite (SFcompare_antisym (Prim2SF a) (Prim2SF b)), Hd.
  destruct d; reflexivity.
Qed.

(** ** Locus assignment *)

Lemma locus_loop_spec (th : list double) (r : double) (n : nat) :
  forall j v t,
    ((forall k, (k < n)%nat -> fgt r (partial th v j k) = true) ->
     locus_loop th r n j v t = t) /\
    (forall k, (k < n)%nat -> fgt r (partial th v j k) = false ->
       (forall k', (k' < k)%nat -> fgt r (partial th v j k') = true) ->
       locus_loop th r n j v t = (j + k)%nat).
Proof.
  induction n as [|n IH]; intros j v t.
  - split; [reflexivity | intros; lia].
  - destruct (IH (S j) (v + nth j th 0)%float t) as [IHa IHb]. split.
    + intros Hall. simpl.
      rewrite (Hall 0%nat ltac:(lia) : fgt r (v + nth j th 0)%float = true).
      apply IHa. intros k Hk. apply (Hall (S k)). lia.
    + intros k Hk Hstop Hbefore. simpl. destruct k as [|k].
      * rewrite (Hstop : fgt r (v + nth j th 0)%float = false). lia.
      * rewrite (Hbefore 0%nat ltac:(lia) : fgt r (v + nth j th 0)%float = true).
        rewrite (IHb k ltac:(lia) Hstop); [lia|].
        intros k' Hk'. apply (Hbefore (S k')). lia.
Qed.

(** The locus chosen is the first whose running sum is not exceeded by the
    draw, and locus 0 when every running sum is exceeded. *)
Lemma choose_str_spec (cfg : config) (r : double) :
  let L := Z.to_nat (linked_n cfg) in
  let cum := cumsum (thetas cfg) in
  ((forall j, (j < L)%nat -> fgt r (cum j) = true) -> choose_str cfg r = 0%nat) /\
  (forall j, (j < L)%nat -> fgt r (cum j) = false ->
     (forall k, (k < j)%nat -> fgt r (cum k) = true) -> choose_str cfg r = j).
Proof.
  cbv zeta. unfold choose_str, cumsum.
  destruct (locus_loop_spec (thetas cfg) r (Z.to_nat (linked_n cfg)) 0%nat 0%float 0%nat)
    as [Ha Hb].
  split; [exact Ha | exact Hb].
Qed.

Lemma choose_str_lt (cfg : config) (r : double) :
  (0 < linked_n cfg) -> (choose_str cfg r < Z.to_nat (linked_n cfg))%nat.
Proof.
  intros HL. unfold choose_str.
  assert (H : forall n j v t, (t < j + n)%nat ->
            (locus_loop (thetas cfg) r n j v t < j + n)%nat).
  { induction n as [|n IH]; intros j v t Ht; simpl.
    - exact Ht.
    - destruct (fgt r (v + nth j (thetas cfg) 0)%float).
      + specialize (IH (S j) (v + nth j (thetas cfg) 0)%float t). lia.
      + lia. }
  apply (H (Z.to_nat (linked_n cfg)) 0%nat). lia.
Qed.

(** With a single locus the loop has one iteration, and both of its branches
    leave locus 0. *)
Lemma choose_str_single (cfg : config) (r : double) :
  linked_n cfg = 1 -> choose_str cfg r = 0%nat.
Proof.
  intros HL. unfold choose_str. rewrite HL. simpl.
  destruct (fgt r (0 + nth 0 (thetas cfg) 0)%float); reflexivity.
Qed.

(** ** The draws of a dataset *)

Lemma site_body_eq (cfg : config) (nsam : Z) (list_ : list cstr) (i : nat)
    (nrep : matrix) (g : rng) :
  site_body cfg nsam list_ i (nrep, g) =
  (apply_step nsam list_ i (choose_str cfg (draws g (S (cursor g))))
     (step_of (draws g (cursor g))) nrep,
   mkRng (draws g) (S (S (cursor g)))).
Proof. reflexivity. Qed.

Lemma site_loop_eq (cfg : config) (nsam : Z) (list_ : list cstr) (m : matrix)
    (g : rng) (n : nat) :
  for_loop n 0%nat (site_body cfg nsam list_) (m, g) =
  (fold_left
     (fun nrep i => apply_step nsam list_ i (choose_str cfg (locus_draw g i))
                      (step_of (direction_draw g i)) nrep)
     (seq 0 n) m,
   mkRng (draws g) (cursor g + 2 * n)%nat).
Proof.
  induction n as [|n IH].
  - simpl. rewrite Nat.add_0_r. now destruct g.
  - rewrite for_loop_last, IH, site_body_eq. cbn [draws cursor].
    rewrite seq_S, fold_left_app. cbn [fold_left Nat.add].
    unfold locus_draw, direction_draw.
    replace (S (cursor g + 2 * n))%nat with (cursor g + 2 * n + 1)%nat by lia.
    replace (S (cursor g + 2 * n + 1))%nat with (cursor g + 2 * S n)%nat by lia.
    reflexivity.
Qed.

Lemma mutate_eq (cfg : config) (nsam segsites : Z) (list_ : list cstr) (g : rng) :
  mutate cfg nsam segsites list_ g =
  (mutate_with cfg nsam list_ (Z.to_nat segsites) (direction_draw g) (locus_draw g),
   mkRng (draws g) (cursor g + 2 * Z.to_nat segsites)%nat).
Proof.
  unfold mutate, for_upto, mutate_with. apply site_loop_eq.
Qed.

Lemma fold_left_ext_in {A B : Type} (f f' : A -> B -> A) (l : list B) (a : A) :
  (forall x y, In y l -> f x y = f' x y) -> fold_left f l a = fold_left f' l a.
Proof.
  revert a. induction l as [|y l IH]; intros a H; simpl.
  - reflexivity.
  - rewrite (H a y (or_introl eq_refl)). apply IH.
    intros x z Hz. apply H. now right.
Qed.

Lemma mutate_with_ext (cfg : config) (nsam : Z) (list_ : list cstr) (S : nat)
    (d r d' r' : nat -> double) :
  (forall i, (i < S)%nat -> d i = d' i /\ r i = r' i) ->
  mutate_with cfg nsam list_ S d r = mutate_with cfg nsam list_ S d' r'.
Proof.
  intros H. unfold mutate_with. apply fold_left_ext_in.
  intros m i Hi. apply in_seq in Hi.
  destruct (H i ltac:(lia)) as [-> ->]. reflexivity.
Qed.

(* ------------------------------------------------------------------------- *)
(** * The claims *)

(** ** C1: locus assignment *)

(** C1, counterexample: the command line [-l 2 0.5 0.49999999999999] is
    accepted; with the draw 1 - 2^-48, which lies in [0,1), no cumulative sum
    reaches the draw and the site goes to locus 0, not to the last locus 1. *)
Lemma C1_fallback_not_last :
  parse_args strtod_ex
    (argv_l (arg "microsat") (arg "2") [arg "0.5"; arg "0.49999999999999"])
    = Ok cfg_near_one /\
  (0 <=? draw_near_one)%float = true /\ (draw_near_one <? 1)%float = true /\
  choose_str cfg_near_one draw_near_one = 0%nat /\
  ~ assigned_first_else_last cfg_near_one draw_near_one.
Proof.
  split; [vm_compute; reflexivity|].
  split; [vm_compute; reflexivity|].
  split; [vm_compute; reflexivity|].
  split; [vm_compute; reflexivity|].
  intros [_ H].
  assert (E : choose_str cfg_near_one draw_near_one = 1%nat).
  { apply H. intros j Hj.
    destruct j as [|[|j]]; [vm_compute; reflexivity | vm_compute; reflexivity |].
    change (Z.to_nat (linked_n cfg_near_one)) with 2%nat in Hj. lia. }
  vm_compute in E. discriminate E.
Qed.

(** C1, amended: for a draw and cumulative sums that are numbers, the site is
    assigned to the smallest-indexed locus [j] whose cumulative sum
    [theta[0] + ... + theta[j]] is at least the draw; when no cumulative sum
    reaches the draw, the site is assigned to locus 0. *)
Theorem C1_locus_assignment (cfg : config) (r : double) :
  let L := Z.to_nat (linked_n cfg) in
  let cum := cumsum (thetas cfg) in
  is_nan r = false ->
  (forall j, (j < L)%nat -> is_nan (cum j) = false) ->
  (forall j, (j < L)%nat -> (r <=? cum j)%float = true ->
     (forall k, (k < j)%nat -> (r <=? cum k)%float = false) ->
     choose_str cfg r = j) /\
  ((forall j, (j < L)%nat -> (r <=? cum j)%float = false) ->
     choose_str cfg r = 0%nat).
Proof.
  cbv zeta. intros Hr Hcum.
  destruct (choose_str_spec cfg r) as [Hnone Hfirst]. cbv zeta in Hnone, Hfirst.
  split.
  - intros j Hj Hreach Hbefore. apply Hfirst; [exact Hj | |].
    + rewrite fgt_not_leb by auto. now rewrite Hreach.
    + intros k Hk. rewrite fgt_not_leb by (auto; apply Hcum; lia).
      now rewrite Hbefore.
  - intros Hall. apply Hnone. intros j Hj.
    rewrite fgt_not_leb by auto. now rewrite Hall.
Qed.

Lemma C1_locus_assignment_witness :
  choose_str cfg_near_one 0.7%float = 1%nat /\
  choose_str cfg_near_one draw_near_one = 0%nat.
Proof.
  assert (Hcum : forall j, (j < Z.to_nat (linked_n cfg_near_one))%nat ->
                   is_nan (cumsum (thetas cfg_near_one) j) = false).
  { intros j Hj. destruct j as [|[|j]]; [vm_compute; reflexivity | vm_compute; reflexivity |].
    change (Z.to_nat (linked_n cfg_near_one)) with 2%nat in Hj. lia. }
  split.
  - apply (proj1 (C1_locus_assignment cfg_near_one 0.7%float eq_refl Hcum) 1%nat).
    + vm_compute. lia.
    + vm_compute. reflexivity.
    + intros k Hk. destruct k as [|k]; [vm_compute; reflexivity | lia].
  - apply (proj2 (C1_locus_assignment cfg_near_one draw_near_one eq_refl Hcum)).
    intros j Hj. destruct j as [|[|j]]; [vm_compute; reflexivity | vm_compute; reflexivity |].
    change (Z.to_nat (linked_n cfg_near_one)) with 2%nat in Hj. lia.
Defined.

(** ** C10: direction of the step *)

(** C10: at every site the step is -1 exactly when the direction draw, the
    first draw of the site, is strictly below 0.5, and +1 otherwise; a draw of
    exactly 0.5 gives +1. *)
Theorem C10_step_direction (cfg : config) (nsam : Z) (list_ : list cstr) (i : nat)
    (nrep : matrix) (g : rng) :
  let d := fst (ran1 g) in
  let r := fst (ran1 (snd (ran1 g))) in
  fst (site_body cfg nsam list_ i (nrep, g)) =
    apply_step nsam list_ i (choose_str cfg r) (step_of d) nrep /\
  (step_of d = -1 <-> (d <? 0.5)%float = true) /\
  (step_of d = 1 <-> (d <? 0.5)%float = false) /\
  step_of 0.5%float = 1.
Proof.
  cbv zeta. split; [reflexivity|].
  unfold step_of.
  destruct (fst (ran1 g) <? 0.5)%float; repeat split; intros; congruence || reflexivity.
Qed.

(** ** C6: datasets without segregating sites *)

(** C6: when the dataset has no segregating site, every cell of the matrix
    the engine returns holds the ancestral state, and no draw is used. *)
Theorem C6_no_segsites (cfg : config) (nsam : Z) (list_ : list cstr) (g : rng)
    (ind j : nat) :
  (ind < Z.to_nat nsam)%nat -> (j < Z.to_nat (linked_n cfg))%nat ->
  mget (fst (mutate cfg nsam 0 list_ g)) ind j = ancstate cfg /\
  snd (mutate cfg nsam 0 list_ g) = g.
Proof.
  intros Hind Hj. unfold mutate, for_upto. simpl.
  split; [|reflexivity].
  now apply (proj2 (init_nrep_spec nsam cfg)).
Qed.

Lemma C6_no_segsites_witness :
  mget (fst (mutate cfg_near_one 3 0 rows_ex gen_ex)) 2 1 = 0 /\
  snd (mutate cfg_near_one 3 0 rows_ex gen_ex) = gen_ex.
Proof.
  apply (C6_no_segsites cfg_near_one 3 rows_ex gen_ex 2 1).
  - vm_compute. lia.
  - vm_compute. lia.
Defined.

(** ** C4: two draws per site, in a fixed order *)

(** C4: over a dataset of [S] sites the engine uses exactly [2 * S] draws,
    site [k] taking draw [2 * k] for its direction and draw [2 * k + 1] for its
    locus; hence two generators that agree on these [2 * S] draws give the
    same matrix for the same haplotypes. *)
Theorem C4_draw_order (cfg : config) (nsam segsites : Z) (list_ : list cstr) (g : rng) :
  let S := Z.to_nat segsites in
  mutate cfg nsam segsites list_ g =
    (mutate_with cfg nsam list_ S (direction_draw g) (locus_draw g),
     mkRng (draws g) (cursor g + 2 * S)%nat) /\
  forall g' : rng,
    (forall k, (k < 2 * S)%nat ->
       draws g' (cursor g' + k)%nat = draws g (cursor g + k)%nat) ->
    fst (mutate cfg nsam segsites list_ g') = fst (mutate cfg nsam segsites list_ g).
Proof.
  cbv zeta. split; [apply mutate_eq|].
  intros g' Hagree. rewrite !mutate_eq. cbn [fst].
  apply mutate_with_ext. intros i Hi. unfold direction_draw, locus_draw.
  split.
  - apply Hagree. lia.
  - rewrite <- !Nat.add_assoc. apply Hagree. lia.
Qed.

Lemma C4_draw_order_witness :
  fst (mutate cfg_near_one 3 2 rows_ex gen_ex') =
  fst (mutate cfg_near_one 3 2 rows_ex gen_ex).
Proof.
  apply (proj2 (C4_draw_order cfg_near_one 3 2 rows_ex gen_ex)).
  intros k Hk.
  destruct k as [|[|[|[|k]]]]; [reflexivity | reflexivity | reflexivity | reflexivity |].
  change (Z.to_nat 2) with 2%nat in Hk. lia.
Defined.

(** ** C3: the worked example *)

(** C3, counterexample: with the draws 0.7, 0.3, 0.2, 0.9 the step is +1 at
    site 0 and -1 at site 1, and the line printed is not [21 19 19]. *)
Lemma C3_line_not_as_specified : ~ flat_line_as_specified gen_ex.
Proof.
  intros H.
  assert (E := H eq_refl eq_refl).
  vm_compute in E. discriminate E.
Qed.

(** C3, amended: for N=3, S=2, rows "10", "01", "11", ancestral state 20 and
    one locus, whenever the draws give step +1 at site 0 and step -1 at
    site 1, the flat-mode line is [21<TAB>19<TAB>20<NL>]. *)
Theorem C3_flat_line (g : rng) :
  step_of (direction_draw g 0) = 1 -> step_of (direction_draw g 1) = -1 ->
  print_dataset cfg_ex 3 (fst (mutate cfg_ex 3 2 rows_ex g)) EmptyString
  = ("21" ++ TAB ++ "19" ++ TAB ++ "20" ++ NL)%string.
Proof.
  intros H0 H1. rewrite mutate_eq. cbn [fst].
  unfold mutate_with. change (Z.to_nat 2) with 2%nat. cbn [seq fold_left].
  rewrite !(choose_str_single cfg_ex) by reflexivity.
  rewrite H0, H1. vm_compute. reflexivity.
Qed.

Lemma C3_flat_line_witness :
  print_dataset cfg_ex 3 (fst (mutate cfg_ex 3 2 rows_ex gen_ex)) EmptyString
  = ("21" ++ TAB ++ "19" ++ TAB ++ "20" ++ NL)%string.
Proof.
  apply (C3_flat_line gen_ex); reflexivity.
Defined.

(** ** C2: growth of the haplotype buffers *)

Lemma for_loop_exit_inv {S : Type} (P : nat -> S -> Prop) (n : nat)
    (body : nat -> S -> outcome S) :
  forall (i : nat) (s s' : S),
    P i s ->
    (forall k t t', (i <= k < i + n)%nat -> P k t -> body k t = Ok t' ->
       P (Datatypes.S k) t') ->
    for_loop_exit n i body s = Ok s' -> P (i + n)%nat s'.
Proof.
  induction n as [|n IH]; intros i s s' H0 Hstep E; cbn [for_loop_exit] in E.
  - injection E as <-. now rewrite Nat.add_0_r.
  - destruct (body i s) as [t|st d] eqn:Eb; [|discriminate E].
    rewrite <- Nat.add_succ_comm. apply (IH (Datatypes.S i) t s').
    + apply (Hstep i s t); [lia | exact H0 | exact Eb].
    + intros k u u' Hk. apply Hstep. lia.
    + exact E.
Qed.

Lemma for_upto_exit_inv {S : Type} (P : nat -> S -> Prop) (bound : Z)
    (body : nat -> S -> outcome S) (s s' : S) :
  P 0%nat s ->
  (forall k t t', (k < Z.to_nat bound)%nat -> P k t -> body k t = Ok t' ->
     P (Datatypes.S k) t') ->
  for_upto_exit bound body s = Ok s' -> P (Z.to_nat bound) s'.
Proof.
  intros H0 Hstep E.
  apply (for_loop_exit_inv P (Z.to_nat bound) body 0%nat s s' H0); [|exact E].
  intros k t t' Hk. apply Hstep. lia.
Qed.

Lemma map_length_repeat {A : Type} (x : list A) (n : nat) :
  map (@length A) (repeat x n) = repeat (length x) n.
Proof. induction n as [|n IH]; simpl; [reflexivity | now rewrite IH]. Qed.

(** The rows that [cmatrix] returns. *)
Lemma cmatrix_sizes (h h' : heap) (nsam len : Z) (m : list cstr) :
  cmatrix h nsam len = Ok (m, h') ->
  map (@length ascii) m = repeat (Z.to_nat (to_unsigned len)) (Z.to_nat nsam).
Proof.
  unfold cmatrix. destruct (request h) as [ok h1].
  destruct ok; cbn [negb]; [|discriminate].
  intros E.
  pose (P := fun (k : nat) (st : list cstr * heap) =>
    length (fst st) = Z.to_nat nsam /\
    forall i, (i < Z.to_nat nsam)%nat ->
      length (nth i (fst st) []) =
      if (i <? k)%nat then Z.to_nat (to_unsigned len) else 0%nat).
  assert (H : P (Z.to_nat nsam) (m, h')).
  { apply (for_upto_exit_inv P nsam _ _ _) in E; [exact E| |].
    - unfold P. cbn [fst]. split; [apply repeat_length|]. intros i Hi.
      rewrite nth_repeat_lt by exact Hi. reflexivity.
    - unfold P. intros k [t ht] [t' ht'] Hk [Hlen Hrows] Eb. cbn [fst] in *.
      destruct (request ht) as [ok h2]. destruct ok; cbn [negb] in Eb; [|discriminate Eb].
      injection Eb as <- <-. split; [now rewrite set_nth_length|].
      intros i Hi. destruct (Nat.eq_dec i k) as [->|Hne].
      + rewrite nth_set_nth_eq by lia.
        replace (k <? Datatypes.S k)%nat with true by (symmetry; apply Nat.ltb_lt; lia).
        apply repeat_length.
      + rewrite nth_set_nth_neq by exact Hne. rewrite Hrows by exact Hi.
        destruct (i <? k)%nat eqn:E1, (i <? Datatypes.S k)%nat eqn:E2; try reflexivity.
        * apply Nat.ltb_lt in E1. apply Nat.ltb_ge in E2. lia.
        * apply Nat.ltb_ge in E1. apply Nat.ltb_lt in E2. lia. }
  unfold P in H. destruct H as [Hlen Hrows]. cbn [fst] in *.
  apply (nth_ext _ _ 0%nat 0%nat).
  - now rewrite length_map, repeat_length.
  - intros i Hi. rewrite length_map in Hi.
    assert (Hi' : (i < Z.to_nat nsam)%nat) by (rewrite <- Hlen; exact Hi).
    rewrite nth_repeat_lt by exact Hi'.
    rewrite (nth_indep _ 0%nat (length (@nil ascii))) by (rewrite length_map; exact Hi).
    rewrite map_nth, Hrows by exact Hi'.
    now replace (i <? Z.to_nat nsam)%nat with true by (symmetry; apply Nat.ltb_lt; lia).
Qed.

Lemma alloc_buffers_facts (h : heap) (nsam : Z) (b : buffers) :
  alloc_buffers h nsam = Ok b ->
  MAX_SITES b = MAX_SITES_init /\ posit b = MAX_SITES_init /\
  map (@length ascii) (list_ b)
  = repeat (Z.to_nat (MAX_SITES_init + 1)) (Z.to_nat nsam).
Proof.
  unfold alloc_buffers.
  destruct (cmatrix h nsam (MAX_SITES_init + 1)) as [[l h1]|st d] eqn:Ec; [|discriminate].
  destruct (request h1) as [ok h2]. destruct ok; cbn [negb]; [|discriminate].
  intros E. injection E as <-. cbn [MAX_SITES posit list_].
  split; [reflexivity|]. split; [reflexivity|].
  exact (cmatrix_sizes h h1 nsam (MAX_SITES_init + 1) l Ec).
Qed.

Lemma grow_list (b b' : buffers) (segsites : Z) :
  grow b segsites = Ok b' -> list_ b' = list_ b.
Proof.
  unfold grow. destruct (segsites >=? MAX_SITES b).
  - destruct (request (mem b)) as [ok h]. destruct ok; cbn [negb]; [|discriminate].
    intros E. now injection E as <-.
  - intros E. now injection E as <-.
Qed.

(** The rows that [biggerlist] returns: as many as before, the first [nsam]
    of them with [MAX_SITES] characters. *)
Lemma biggerlist_sizes (nsam nmax : Z) (b b' : buffers) :
  biggerlist nsam nmax b = Ok b' ->
  MAX_SITES b' = wrap_int (to_unsigned nmax) /\ posit b' = posit b /\
  length (list_ b') = length (list_ b) /\
  forall i, (i < length (list_ b))%nat ->
    nth i (list_ b') [] =
    if (i <? Z.to_nat nsam)%nat
    then realloc_chars (nth i (list_ b) []) (to_size_t (wrap_int (to_unsigned nmax)))
    else nth i (list_ b) [].
Proof.
  unfold biggerlist.
  destruct (for_upto_exit nsam _ (list_ b, mem b)) as [[l h]|st d] eqn:E; [|discriminate].
  intros Eb. injection Eb as <-. cbn [MAX_SITES posit list_].
  split; [reflexivity|]. split; [reflexivity|].
  pose (P := fun (k : nat) (st : list cstr * heap) =>
    length (fst st) = length (list_ b) /\
    forall i, (i < length (list_ b))%nat ->
      nth i (fst st) [] =
      if (i <? k)%nat
      then realloc_chars (nth i (list_ b) []) (to_size_t (wrap_int (to_unsigned nmax)))
      else nth i (list_ b) []).
  assert (H : P (Z.to_nat nsam) (l, h)).
  { apply (for_upto_exit_inv P nsam _ _ _) in E; [exact E| |].
    - unfold P. cbn [fst]. split; [reflexivity|]. intros i Hi. reflexivity.
    - unfold P. intros k [t ht] [t' ht'] Hk [Hlen Hrows] Eb. cbn [fst] in *.
      destruct (request ht) as [ok h2]. destruct ok; cbn [negb] in Eb; [|discriminate Eb].
      injection Eb as <- <-. split; [now rewrite set_nth_length|].
      intros i Hi. destruct (Nat.eq_dec i k) as [->|Hne].
      + rewrite nth_set_nth_eq by lia.
        replace (k <? Datatypes.S k)%nat with true by (symmetry; apply Nat.ltb_lt; lia).
        rewrite Hrows by exact Hi.
        now replace (k <? k)%nat with false by (symmetry; apply Nat.ltb_ge; lia).
      + rewrite nth_set_nth_neq by exact Hne. rewrite Hrows by exact Hi.
        destruct (i <? k)%nat eqn:E1, (i <? Datatypes.S k)%nat eqn:E2; try reflexivity.
        * apply Nat.ltb_lt in E1. apply Nat.ltb_ge in E2. lia.
        * apply Nat.ltb_ge in E1. apply Nat.ltb_lt in E2. lia. }
  exact H.
Qed.

Lemma realloc_chars_length (buf : cstr) (n : Z) :
  length (realloc_chars buf n) = Z.to_nat n.
Proof.
  unfold realloc_chars. rewrite length_app, length_firstn, repeat_length. lia.
Qed.

Lemma for_loop_exit_ok {S : Type} (P : S -> Prop) (n : nat)
    (body : nat -> S -> outcome S) :
  (forall k t, P t -> exists t', body k t = Ok t' /\ P t') ->
  forall (i : nat) (s : S),
    P s -> exists s', for_loop_exit n i body s = Ok s' /\ P s'.
Proof.
  intros Hbody. induction n as [|n IH]; intros i s Hs; cbn [for_loop_exit].
  - eauto.
  - destruct (Hbody i s Hs) as (t & -> & Ht). now apply IH.
Qed.

Lemma alloc_buffers_granted (h : heap) (nsam : Z) :
  (forall k, granted h k = true) ->
  exists b, alloc_buffers h nsam = Ok b /\ forall k, granted (mem b) k = true.
Proof.
  intros Hg. unfold alloc_buffers, cmatrix, for_upto_exit.
  unfold request at 1. rewrite Hg. cbn [negb].
  match goal with
  | |- context [for_loop_exit ?n ?i0 ?body ?s0] =>
      assert (Hloop : exists s',
                for_loop_exit n i0 body s0 = Ok s' /\
                forall k, granted (snd s') k = true)
  end.
  { apply (for_loop_exit_ok
             (fun st : list cstr * heap => forall k, granted (snd st) k = true)).
    - intros k [m h0] Hh. cbn [snd] in Hh. unfold request. rewrite Hh. cbn [negb].
      eexists. split; [reflexivity|]. exact Hh.
    - exact Hg. }
  destruct Hloop as ([m h1] & E & Hh1).
  rewrite E. cbn [snd] in Hh1. unfold request. rewrite Hh1. cbn [negb].
  eexists. split; [reflexivity|]. exact Hh1.
Qed.

Lemma grow_granted (b : buffers) (segsites : Z) :
  (forall k, granted (mem b) k = true) ->
  exists b', grow b segsites = Ok b' /\ forall k, granted (mem b') k = true.
Proof.
  intros Hg. unfold grow, request. rewrite Hg. cbn [negb].
  destruct (segsites >=? MAX_SITES b); eexists; (split; [reflexivity | exact Hg]).
Qed.

Lemma biggerlist_granted (nsam nmax : Z) (b : buffers) :
  (forall k, granted (mem b) k = true) ->
  exists b', biggerlist nsam nmax b = Ok b'.
Proof.
  intros Hg. unfold biggerlist, for_upto_exit.
  match goal with
  | |- context [for_loop_exit ?n ?i0 ?body ?s0] =>
      assert (Hloop : exists s',
                for_loop_exit n i0 body s0 = Ok s' /\
                forall k, granted (snd s') k = true)
  end.
  { apply (for_loop_exit_ok
             (fun st : list cstr * heap => forall k, granted (snd st) k = true)).
    - intros k [m h0] Hh. cbn [snd] in Hh. unfold request. rewrite Hh. cbn [negb].
      eexists. split; [reflexivity|]. exact Hh.
    - exact Hg. }
  destruct Hloop as ([m h1] & E & _). rewrite E. eauto.
Qed.

(** C2, the code at a dataset of 2000 sites with three individuals.  Whatever
    the allocator decides, when the allocations of lines 135-140 and the
    growth of lines 158-166 go through, [MAX_SITES] and [posit] grow to 2010
    and the three haplotype buffers keep their 1001 characters, below the
    2000 the dataset needs, where [biggerlist] would have given each of them
    2010; and they do go through, as the call of [biggerlist] would, on an
    allocator that grants every request. *)
Theorem C2_list_not_regrown (h : heap) :
  (forall b0 b,
     alloc_buffers h 3 = Ok b0 -> grow b0 2000 = Ok b ->
     MAX_SITES b = 2010 /\ posit b = 2010 /\
     map (@length ascii) (list_ b) = [1001; 1001; 1001]%nat /\
     ~ capacity_ge 2000 b /\
     forall b', biggerlist 3 2010 b = Ok b' ->
       map (@length ascii) (list_ b') = [2010; 2010; 2010]%nat) /\
  ((forall k, granted h k = true) ->
   exists b0 b b',
     alloc_buffers h 3 = Ok b0 /\ grow b0 2000 = Ok b /\
     biggerlist 3 2010 b = Ok b').
Proof.
  split.
  2:{ intros Hgr.
      destruct (alloc_buffers_granted h 3 Hgr) as (b0 & Ea & Hg0).
      destruct (grow_granted b0 2000 Hg0) as (b & Eg & Hg1).
      destruct (biggerlist_granted 3 2010 b Hg1) as (b' & Eb).
      exists b0, b, b'. auto. }
  intros b0 b Ha Hg.
  destruct (alloc_buffers_facts h 3 b0 Ha) as (Hmax & _ & Hrows).
  pose proof (grow_list b0 b 2000 Hg) as Hl.
  assert (E : map (@length ascii) (list_ b) = [1001; 1001; 1001]%nat).
  { rewrite Hl, Hrows. reflexivity. }
  assert (Hb : MAX_SITES b = 2010 /\ posit b = 2010).
  { unfold grow in Hg. rewrite Hmax in Hg.
    change (2000 >=? MAX_SITES_init) with true in Hg. cbv iota in Hg.
    destruct (request (mem b0)) as [ok h1].
    destruct ok; cbn [negb] in Hg; [|discriminate Hg].
    injection Hg as <-. cbn [MAX_SITES posit]. split; reflexivity. }
  split; [exact (proj1 Hb)|]. split; [exact (proj2 Hb)|]. split; [exact E|]. split.
  - unfold capacity_ge. intros H.
    destruct (list_ b) as [|buf l]; [discriminate E|].
    inversion H as [|? ? Hbuf _]; subst.
    simpl in E. injection E as E _. rewrite E in Hbuf. lia.
  - intros b' Hb'.
    destruct (biggerlist_sizes 3 2010 b b' Hb') as (_ & _ & Hlen & Hnth).
    assert (Hl3 : length (list_ b) = 3%nat).
    { rewrite <- (length_map (@length ascii)), E. reflexivity. }
    assert (Hl3' : length (list_ b') = 3%nat) by exact (eq_trans Hlen Hl3).
    apply (nth_ext _ _ 0%nat 0%nat).
    + rewrite length_map. exact Hl3'.
    + intros i Hi. rewrite length_map in Hi.
      assert (Hi3 : (i < 3)%nat) by (rewrite <- Hl3'; exact Hi).
      rewrite (nth_indep _ 0%nat (length (@nil ascii))) by (rewrite length_map; exact Hi).
      rewrite map_nth.
      transitivity (length (realloc_chars (nth i (list_ b) [])
                              (to_size_t (wrap_int (to_unsigned 2010))))).
      * f_equal. rewrite Hnth by (rewrite Hl3; exact Hi3).
        change (Z.to_nat 3) with 3%nat.
        now replace (i <? 3)%nat with true by (symmetry; apply Nat.ltb_lt; exact Hi3).
      * rewrite realloc_chars_length.
        destruct i as [|[|[|i]]]; [reflexivity | reflexivity | reflexivity | lia].
Qed.

(** On an allocator that grants every request. *)
Lemma C2_list_not_regrown_witness :
  exists b0 b b',
    alloc_buffers heap_ex 3 = Ok b0 /\ grow b0 2000 = Ok b /\
    biggerlist 3 2010 b = Ok b' /\
    MAX_SITES b = 2010 /\ posit b = 2010 /\
    map (@length ascii) (list_ b) = [1001; 1001; 1001]%nat /\
    ~ capacity_ge 2000 b /\
    map (@length ascii) (list_ b') = [2010; 2010; 2010]%nat.
Proof.
  destruct (proj2 (C2_list_not_regrown heap_ex) (fun k => eq_refl))
    as (b0 & b & b' & Ea & Eg & Eb).
  destruct (proj1 (C2_list_not_regrown heap_ex) b0 b Ea Eg)
    as (HM & HP & Hl & Hc & Hb).
  exists b0, b, b'. repeat split; try assumption. exact (Hb b' Eb).
Defined.

(** ** The command line *)

Section CommandLine.

Variable strtod : cstr -> double * nat.

Lemma read_thetas_app (ts : list cstr) :
  forall (pre rest : list cstr) (j flag_c : nat) (cfg : config),
    length pre = S flag_c ->
    read_thetas strtod (pre ++ ts ++ rest) (length ts) j flag_c cfg =
    Ok ((flag_c + length ts)%nat, store_thetas j (map (atof strtod) ts) cfg).
Proof.
  induction ts as [|a ts IH]; intros pre rest j flag_c cfg Hpre.
  - simpl. now rewrite Nat.add_0_r.
  - cbn [length read_thetas].
    rewrite nth_error_app2 by lia. rewrite <- Hpre, Nat.sub_diag. cbn [nth_error app].
    replace (pre ++ a :: ts ++ rest) with ((pre ++ [a]) ++ ts ++ rest)
      by (rewrite <- app_assoc; reflexivity).
    rewrite Hpre.
    rewrite (IH (pre ++ [a]) rest (S j) (S flag_c)) by (rewrite length_app; simpl; lia).
    cbn [map store_thetas]. unfold add_theta.
    now rewrite Nat.add_succ_comm.
Qed.

Lemma read_thetas_short (n : nat) :
  forall (argv : list cstr) (j flag_c : nat) (cfg : config) (p : nat * config),
    read_thetas strtod argv n j flag_c cfg = Ok p ->
    (flag_c <= fst p)%nat /\
    length (thetas (snd p)) = length (thetas cfg) /\
    linked_n (snd p) = linked_n cfg.
Proof.
  induction n as [|n IH]; intros argv j flag_c cfg p H; cbn [read_thetas] in H.
  - injection H as <-. auto.
  - destruct (nth_error argv (S flag_c)) as [a|]; [|discriminate H].
    apply IH in H. destruct H as (H1 & H2 & H3). cbn in H2, H3.
    rewrite set_nth_length in H2. repeat split; auto; lia.
Qed.

Lemma store_thetas_fields (xs : list double) :
  forall j cfg,
    ancstate (store_thetas j xs cfg) = ancstate cfg /\
    linked_n (store_thetas j xs cfg) = linked_n cfg /\
    im_flag (store_thetas j xs cfg) = im_flag cfg /\
    length (thetas (store_thetas j xs cfg)) = length (thetas cfg).
Proof.
  induction xs as [|x xs IH]; intros j cfg; simpl.
  - auto.
  - destruct (IH (S j) (add_theta j x cfg)) as (H1 & H2 & H3 & H4).
    cbn in H1, H2, H3, H4. rewrite set_nth_length in H4. auto.
Qed.

(** Within the array, the sum is the sum of the values read, added one after
    the other to the sum so far. *)
Lemma store_thetas_sum (xs : list double) :
  forall j cfg,
    (j + length xs <= length (thetas cfg))%nat ->
    theta_sum (store_thetas j xs cfg) = fold_left PrimFloat.add xs (theta_sum cfg).
Proof.
  induction xs as [|x xs IH]; intros j cfg Hlen; simpl in *.
  - reflexivity.
  - rewrite IH by (cbn; rewrite set_nth_length; lia).
    cbn. rewrite nth_set_nth_eq by lia. reflexivity.
Qed.

Lemma store_thetas_nth (xs : list double) :
  forall j cfg k,
    (j + length xs <= length (thetas cfg))%nat ->
    nth k (thetas (store_thetas j xs cfg)) 0%float =
    if ((j <=? k) && (k <? j + length xs))%nat then nth (k - j) xs 0%float
    else nth k (thetas cfg) 0%float.
Proof.
  induction xs as [|x xs IH]; intros j cfg k Hlen; simpl in *.
  - destruct (j <=? k)%nat eqn:E1, (k <? j + 0)%nat eqn:E2; simpl; try reflexivity.
    apply Nat.leb_le in E1. apply Nat.ltb_lt in E2. lia.
  - rewrite IH by (cbn; rewrite set_nth_length; lia). cbn [thetas add_theta set_theta_sum set_theta].
    destruct (Nat.eq_dec k j) as [->|Hne].
    + replace ((S j <=? j)%nat) with false by (symmetry; apply Nat.leb_gt; lia).
      replace ((j <=? j)%nat) with true by (symmetry; apply Nat.leb_le; lia).
      replace ((j <? j + S (length xs))%nat) with true by (symmetry; apply Nat.ltb_lt; lia).
      simpl. rewrite Nat.sub_diag. apply nth_set_nth_eq. lia.
    + rewrite nth_set_nth_neq by assumption.
      destruct (S j <=? k)%nat eqn:E1.
      * apply Nat.leb_le in E1.
        replace ((j <=? k)%nat) with true by (symmetry; apply Nat.leb_le; lia).
        replace (k <? S j + length xs)%nat with (k <? j + S (length xs))%nat
          by (f_equal; lia).
        simpl. destruct (k <? j + S (length xs))%nat; [|reflexivity].
        replace (k - j)%nat with (S (k - S j)) by lia. reflexivity.
      * apply Nat.leb_gt in E1.
        replace ((j <=? k)%nat) with false by (symmetry; apply Nat.leb_gt; lia).
        reflexivity.
Qed.

End CommandLine.

Ltac break_match H :=
  match type of H with
  | context [if ?b then _ else _] => destruct b eqn:?
  | context [match ?x with _ => _ end] => destruct x eqn:?
  end.

Lemma parse_loop_length (strtod : cstr -> double * nat) (argv : list cstr) (fuel : nat) :
  forall flag_c cfg cfg',
    parse_loop strtod fuel argv flag_c cfg = Ok cfg' ->
    length (thetas cfg') = length (thetas cfg).
Proof.
  induction fuel as [|fuel IH]; intros flag_c cfg cfg' H; cbn [parse_loop] in H.
  - injection H as <-. reflexivity.
  - repeat (break_match H; try discriminate H);
      try (injection H as <-; reflexivity);
      try (apply IH in H; rewrite H; reflexivity).
    apply IH in H. rewrite H.
    match goal with
    | E : read_thetas _ _ _ _ _ _ = Ok _ |- _ =>
        apply read_thetas_short in E; destruct E as (_ & E & _); exact E
    end.
Qed.

(** The result of the loop does not depend on the fuel, once there is enough
    of it for the arguments that remain. *)
Lemma parse_loop_fuel (strtod : cstr -> double * nat) (argv : list cstr) (fuel : nat) :
  forall fuel' flag_c cfg,
    (length argv - flag_c <= fuel)%nat -> (length argv - flag_c <= fuel')%nat ->
    parse_loop strtod fuel argv flag_c cfg = parse_loop strtod fuel' argv flag_c cfg.
Proof.
  induction fuel as [|fuel IH]; intros fuel' flag_c cfg Hf Hf'.
  - destruct fuel' as [|fuel']; [reflexivity|]. cbn [parse_loop].
    replace (flag_c <? length argv)%nat with false
      by (symmetry; apply Nat.ltb_ge; lia).
    reflexivity.
  - destruct fuel' as [|fuel'].
    + cbn [parse_loop].
      replace (flag_c <? length argv)%nat with false
        by (symmetry; apply Nat.ltb_ge; lia).
      reflexivity.
    + cbn [parse_loop].
      destruct (flag_c <? length argv)%nat eqn:Hlt; [|reflexivity].
      apply Nat.ltb_lt in Hlt.
      destruct (Ascii.eqb (nth 0 (nth flag_c argv []) NUL) "-");
        [|apply IH; lia].
      destruct (Ascii.eqb (nth 1 (nth flag_c argv []) NUL) "a").
      { destruct (nth_error argv (S flag_c)); [apply IH; lia | reflexivity]. }
      destruct (Ascii.eqb (nth 1 (nth flag_c argv []) NUL) "i"); [apply IH; lia|].
      destruct (Ascii.eqb (nth 1 (nth flag_c argv []) NUL) "l"); [|reflexivity].
      destruct (nth_error argv (S flag_c)) as [v|]; [|reflexivity].
      destruct (negb (linked_n (set_linked_n (atoi v) cfg) =? 1)); [|apply IH; lia].
      destruct (read_thetas strtod argv _ 0 (S flag_c) _) as [[fc c]|] eqn:E;
        [|reflexivity].
      apply read_thetas_short in E. cbn in E.
      destruct (theta_sum_bad (theta_sum c)); [reflexivity|].
      apply IH; lia.
Qed.

(** ** C5: one locus *)

(** C5: whenever the command line leaves the locus count at 1, the theta
    proportions are [1.0] and every draw, whatever its value, assigns its site
    to locus 0. *)
Theorem C5_single_locus (strtod : cstr -> double * nat) (argv : list cstr)
    (cfg : config) :
  parse_args strtod argv = Ok cfg -> linked_n cfg = 1 ->
  firstn (Z.to_nat (linked_n cfg)) (thetas cfg) = [1%float] /\
  forall r : double, choose_str cfg r = 0%nat.
Proof.
  intros Hparse HL. split; [|intros r; now apply choose_str_single].
  unfold parse_args in Hparse.
  destruct (parse_loop strtod (length argv) argv 1 config_init) as [cfg0|] eqn:E;
    [|discriminate Hparse].
  injection Hparse as <-.
  apply parse_loop_length in E.
  unfold default_theta in *.
  destruct (linked_n cfg0 =? 1) eqn:E1.
  - unfold set_theta in *. cbn [linked_n thetas] in *. rewrite HL.
    destruct (thetas cfg0) as [|x t]; [discriminate E|]. reflexivity.
  - apply Z.eqb_neq in E1. contradiction.
Qed.

Lemma C5_single_locus_witness :
  firstn (Z.to_nat (linked_n cfg_ex)) (thetas cfg_ex) = [1%float] /\
  forall r : double, choose_str cfg_ex r = 0%nat.
Proof.
  apply (C5_single_locus strtod_ex (cstrs ["microsat"; "-a"; "20"]%string) cfg_ex).
  - vm_compute. reflexivity.
  - reflexivity.
Defined.

(** ** C7: the check of the theta sum *)


(** One iteration of the loop over the arguments. *)
Lemma parse_loop_step (strtod : cstr -> double * nat) (fuel : nat) (argv : list cstr)
    (flag_c : nat) (cfg : config) :
  parse_loop strtod (S fuel) argv flag_c cfg =
  if (flag_c <? length argv)%nat then
    let arg := nth flag_c argv [] in
    if Ascii.eqb (nth 0 arg NUL) "-" then
      let sw := nth 1 arg NUL in
      if Ascii.eqb sw "a" then
        match nth_error argv (S flag_c) with
        | None => Exit 1 no_values_a
        | Some v => parse_loop strtod fuel argv (S (S flag_c)) (set_ancstate (atoi v) cfg)
        end
      else if Ascii.eqb sw "i" then
        parse_loop strtod fuel argv (S flag_c) (set_im_flag 1 cfg)
      else if Ascii.eqb sw "l" then
        match nth_error argv (S flag_c) with
        | None => Exit 1 no_values_l
        | Some v =>
            let cfg := set_linked_n (atoi v) cfg in
            if negb (linked_n cfg =? 1) then
              match read_thetas strtod argv (Z.to_nat (linked_n cfg)) 0 (S flag_c) cfg with
              | Exit s d => Exit s d
              | Ok (flag_c, cfg) =>
                  if theta_sum_bad (theta_sum cfg)
                  then Exit 1 (theta_sum_exceeds (theta_sum cfg))
                  else parse_loop strtod fuel argv (S flag_c) cfg
              end
            else parse_loop strtod fuel argv (S (S flag_c)) cfg
        end
      else Exit 1 (option_unknown arg)
    else parse_loop strtod fuel argv (S (S flag_c)) cfg
  else Ok cfg.
Proof. reflexivity. Qed.

Lemma parse_argv_l (strtod : cstr -> double * nat) (prog n : cstr) (ts : list cstr) :
  1 < atoi n -> Z.of_nat (length ts) = atoi n -> (length ts <= MAX_STRS)%nat ->
  let sum := fold_left PrimFloat.add (map (atof strtod) ts) 0%float in
  parse_args strtod (argv_l prog n ts) =
  if theta_sum_bad sum then Exit 1 (theta_sum_exceeds sum)
  else Ok (cfg_l strtod n ts).
Proof.
  intros HL Hlen Hmax. cbv zeta.
  assert (Hsum : theta_sum (cfg_l strtod n ts)
                 = fold_left PrimFloat.add (map (atof strtod) ts) 0%float).
  { unfold cfg_l. rewrite store_thetas_sum; [reflexivity|].
    rewrite length_map.
    change (thetas (set_linked_n (atoi n) config_init)) with (repeat 0%float MAX_STRS).
    rewrite repeat_length. exact Hmax. }
  assert (Hn : linked_n (cfg_l strtod n ts) = atoi n).
  { unfold cfg_l.
    now rewrite (proj1 (proj2 (store_thetas_fields (map (atof strtod) ts) 0%nat _))). }
  unfold parse_args, argv_l. cbn [length]. rewrite parse_loop_step. cbn [length].
  replace (1 <? S (S (S (length ts))))%nat with true by reflexivity.
  cbv zeta. cbn [nth nth_error list_ascii_of_string].
  change (Ascii.eqb "-" "-") with true.
  change (Ascii.eqb "l" "a") with false.
  change (Ascii.eqb "l" "i") with false.
  change (Ascii.eqb "l" "l") with true.
  cbv iota. cbn [linked_n set_linked_n].
  replace (atoi n =? 1) with false by (symmetry; apply Z.eqb_neq; lia).
  cbn [negb]. rewrite <- Hlen, Nat2Z.id.
  change (prog :: ["-"%char; "l"%char] :: n :: ts)
    with ([prog; ["-"%char; "l"%char]; n] ++ ts).
  replace ([prog; ["-"%char; "l"%char]; n] ++ ts)
    with ([prog; ["-"%char; "l"%char]; n] ++ ts ++ []) by (now rewrite app_nil_r).
  rewrite (read_thetas_app strtod ts [prog; ["-"%char; "l"%char]; n] [] 0 2) by reflexivity.
  rewrite Hlen. fold (cfg_l strtod n ts). rewrite Hsum.
  destruct (theta_sum_bad _); [reflexivity|].
  rewrite parse_loop_step.
  replace (S (2 + length ts) <? length ([prog; ["-"%char; "l"%char]; n] ++ ts ++ []))%nat
    with false
    by (symmetry; apply Nat.ltb_ge; rewrite app_nil_r, length_app; simpl; lia).
  unfold default_theta. rewrite Hn.
  replace (atoi n =? 1) with false by (symmetry; apply Z.eqb_neq; lia).
  reflexivity.
Qed.

Lemma cfg_l_thetas (strtod : cstr -> double * nat) (n : cstr) (ts : list cstr) :
  (length ts <= MAX_STRS)%nat ->
  firstn (length ts) (thetas (cfg_l strtod n ts)) = map (atof strtod) ts.
Proof.
  intros Hmax.
  assert (Hlen : length (thetas (cfg_l strtod n ts)) = MAX_STRS).
  { unfold cfg_l.
    rewrite (proj2 (proj2 (proj2 (store_thetas_fields (map (atof strtod) ts) 0%nat _)))).
    apply repeat_length. }
  apply (nth_ext _ _ 0%float 0%float).
  - rewrite length_firstn, length_map, Hlen. lia.
  - intros k Hk. rewrite length_firstn, Hlen in Hk.
    rewrite nth_firstn. replace (k <? length ts)%nat with true
      by (symmetry; apply Nat.ltb_lt; lia).
    unfold cfg_l. rewrite store_thetas_nth
      by (rewrite length_map;
          change (thetas (set_linked_n (atoi n) config_init)) with (repeat 0%float MAX_STRS);
          rewrite repeat_length; exact Hmax).
    rewrite length_map. cbn [Nat.leb Nat.add].
    replace (k <? length ts)%nat with true by (symmetry; apply Nat.ltb_lt; lia).
    cbn [andb]. now rewrite Nat.sub_0_r.
Qed.


Lemma main_ok (strtod : cstr -> double * nat) (argv : list cstr) (stdin : cstr)
    (g : rng) (h : heap) (cfg : config) :
  parse_args strtod argv = Ok cfg ->
  main strtod argv stdin g h =
  let '(nsam, ms_datasets, inp) := read_header stdin in
  match alloc_buffers h nsam with
  | Exit s d => Some (mkResult EmptyString s (Some d))
  | Ok b =>
      dataset_loop strtod (S (length inp)) cfg nsam ms_datasets 0
        (mkState b 0 [] inp g EmptyString)
  end.
Proof.
  intros H. unfold main. destruct (read_header stdin) as [[nsam ms] inp].
  now rewrite H.
Qed.



(** What is left of the whole loop once it has arrived somewhere. *)
Lemma arrives_result (strtod : cstr -> double * nat) (argv : list cstr) (k : nat)
    (cfg : config) :
  arrives strtod argv k cfg ->
  parse_loop strtod (length argv) argv 1 config_init
  = parse_loop strtod (length argv) argv k cfg.
Proof.
  intros [m H]. rewrite <- (H (length argv)).
  apply parse_loop_fuel; lia.
Qed.


(** What the run does on that command line. *)
Example second_sequence_run :
  main strtod_ex
    (cstrs ["microsat"; "-l"; "2"; "0.5"; "0.5"; "-l"; "2"; "0.5"; "0.5"]%string)
    stdin_ex gen_ex heap_ex
  = Some (mkResult EmptyString 1 (Some (theta_sum_exceeds 2%float))).
Proof. vm_compute. reflexivity. Qed.

(** A sum that is not a number is above the tolerance on neither side, and
    passes the check. *)
Example nan_sum_passes :
  theta_sum_bad nan = false /\
  exists cfg,
    parse_args (strtod_table [("nan", nan); ("0.5", 0.5%float)]%string)
      (cstrs ["microsat"; "-l"; "2"; "nan"; "0.5"]%string) = Ok cfg /\
    linked_n cfg = 2 /\ theta_sum cfg = nan.
Proof.
  split; [reflexivity|]. eexists. split; [vm_compute; reflexivity|].
  split; reflexivity.
Qed.



(** ** C9: the start of a dataset *)

(** C9, counterexample: on the input [/x], [//] the skipping ends at the
    line [/x], which does not begin with the marker. *)
Lemma C9_stops_at_single_slash :
  ~ stops_at_marker (list_ascii_of_string ("/x" ++ NL ++ "//" ++ NL)%string).
Proof.
  intros H.
  specialize (H (list_ascii_of_string ("/x" ++ NL)%string)
                (list_ascii_of_string ("//" ++ NL)%string) eq_refl).
  discriminate H.
Qed.

Lemma fgets_lines_eq (inp : cstr) :
  fgets_lines inp =
  match fgets MAX_LINE_LENGTH inp with
  | None => []
  | Some (line, rest) => line :: fgets_lines rest
  end.
Proof.
  funelim (fgets_lines inp); rewrite e; reflexivity.
Qed.

Lemma skip_to_boundary_eq (inp : cstr) :
  skip_to_boundary inp =
  match fgets MAX_LINE_LENGTH inp with
  | None => None
  | Some (line, rest) =>
      if negb (Ascii.eqb (nth 0 line NUL) "/")
      then skip_to_boundary rest
      else Some (line, rest)
  end.
Proof.
  funelim (skip_to_boundary inp); rewrite e; reflexivity.
Qed.

Lemma skip_to_boundary_some (inp : cstr) :
  forall line rest,
    skip_to_boundary inp = Some (line, rest) ->
    exists skipped,
      fgets_lines inp = skipped ++ line :: fgets_lines rest /\
      Forall no_slash skipped /\
      nth 0 line NUL = "/"%char.
Proof.
  funelim (skip_to_boundary inp); intros line0 rest0 Hres.
  - rewrite (fgets_lines_eq inp), e.
    destruct (Ascii.eqb (nth 0 line NUL) "/") eqn:E; cbn [negb] in Hres.
    + injection Hres as <- <-. exists []. split; [|split].
      * reflexivity.
      * constructor.
      * now apply Ascii.eqb_eq.
    + destruct (H _ _ Hres) as (skipped & Hl & Hs & Hc).
      exists (line :: skipped). split; [|split].
      * cbn. now rewrite Hl.
      * constructor; [|exact Hs]. unfold no_slash. now apply Ascii.eqb_neq.
      * exact Hc.
  - discriminate Hres.
Qed.

Lemma skip_to_boundary_none (inp : cstr) :
  skip_to_boundary inp = None <-> Forall no_slash (fgets_lines inp).
Proof.
  funelim (skip_to_boundary inp).
  - rewrite (fgets_lines_eq inp), e.
    destruct (Ascii.eqb (nth 0 line NUL) "/") eqn:E; cbn [negb].
    + split; [discriminate|].
      intros HF. inversion HF as [|? ? Hl _]; subst.
      apply Ascii.eqb_eq in E. contradiction.
    + rewrite H. split.
      * intros HF. constructor; [|exact HF]. unfold no_slash. now apply Ascii.eqb_neq.
      * intros HF. now inversion HF.
  - rewrite (fgets_lines_eq inp), e. split; [constructor | reflexivity].
Qed.

Lemma fgets_chars_app (k : nat) :
  forall s line rest, fgets_chars k s = (line, rest) -> line ++ rest = s.
Proof.
  induction k as [|k IH]; intros s line rest H; simpl in H.
  - now inversion H.
  - destruct s as [|c s]; [now inversion H|].
    destruct (Ascii.eqb c newline); [now inversion H|].
    destruct (fgets_chars k s) as [l r] eqn:E. inversion H; subst.
    simpl. f_equal. now apply IH.
Qed.

(** The pieces that [fgets] cuts make up the input. *)
Lemma fgets_lines_concat (inp : cstr) : concat (fgets_lines inp) = inp.
Proof.
  funelim (fgets_lines inp).
  - cbn [concat]. rewrite H.
    destruct inp as [|c inp']; [discriminate e|].
    unfold fgets in e.
    assert (e' : fgets_chars (MAX_LINE_LENGTH - 1) (c :: inp') = (line, rest))
      by congruence.
    exact (fgets_chars_app _ _ _ _ e').
  - destruct inp; [reflexivity | discriminate e].
Qed.

(** The skipping stops at the first line that begins with '/'. *)
Lemma skip_to_boundary_finds (skipped : list cstr) :
  forall (inp line : cstr) (more : list cstr),
    fgets_lines inp = skipped ++ line :: more ->
    Forall no_slash skipped -> nth 0 line NUL = "/"%char ->
    exists rest, skip_to_boundary inp = Some (line, rest) /\ fgets_lines rest = more.
Proof.
  induction skipped as [|s skipped IH]; intros inp line more Hl Hs Hc;
    rewrite fgets_lines_eq in Hl;
    destruct (fgets MAX_LINE_LENGTH inp) as [[l r]|] eqn:E; try discriminate Hl;
    cbn [app] in Hl; injection Hl as -> Hmore; rewrite skip_to_boundary_eq, E.
  - rewrite Hc. change (Ascii.eqb "/" "/") with true. cbn [negb]. eauto.
  - inversion Hs as [|? ? Hno Hs']; subst.
    replace (Ascii.eqb (nth 0 s NUL) "/") with false
      by (symmetry; apply Ascii.eqb_neq; exact Hno).
    cbn [negb]. now apply IH.
Qed.

(** C9, amended: at the start of each dataset the reader skips the lines that
    [fgets] returns until one whose first character is '/'.  When the search
    ends at a line, that line begins with '/' and the lines before it do
    not; when the input holds a line that begins with '/', the search ends
    at the first such line, with the input left just after it, and the run
    does not end there; if the input ends before such a line, the run ends
    at once with status 1 and the diagnostic of line 149, and standard output
    holds what it held before this dataset. *)
Theorem C9_boundary (strtod : cstr -> double * nat) (fuel : nat) (cfg : config)
    (nsam ms_datasets count : Z) (st : state) :
  (forall line rest,
     skip_to_boundary (pfin st) = Some (line, rest) ->
     exists skipped,
       fgets_lines (pfin st) = skipped ++ line :: fgets_lines rest /\
       Forall no_slash skipped /\
       nth 0 line NUL = "/"%char) /\
  (forall skipped line more,
     fgets_lines (pfin st) = skipped ++ line :: more ->
     Forall no_slash skipped -> nth 0 line NUL = "/"%char ->
     (exists rest,
        skip_to_boundary (pfin st) = Some (line, rest) /\ fgets_lines rest = more) /\
     process_dataset strtod cfg nsam st <> Exit 1 line_retrieval_fault) /\
  (wrap_int (ms_datasets - count) <> 0 ->
   Forall no_slash (fgets_lines (pfin st)) ->
   process_dataset strtod cfg nsam st = Exit 1 line_retrieval_fault /\
   dataset_loop strtod (S fuel) cfg nsam ms_datasets count st =
     Some (mkResult (out st) 1 (Some line_retrieval_fault))).
Proof.
  split; [|split].
  - apply skip_to_boundary_some.
  - intros skipped line more Hl Hs Hc.
    destruct (skip_to_boundary_finds skipped (pfin st) line more Hl Hs Hc)
      as (rest & E & Hmore).
    split; [eauto|].
    unfold process_dataset. rewrite E.
    destruct (scan_segsites (segsites st) rest) as [seg inp1].
    destruct (grow (bufs st) seg) as [b|gs gd] eqn:Eg.
    + destruct (read_sample strtod nsam seg (astr st) (list_ b) inp1)
        as [[astr' l'] inp2].
      destruct (mutate cfg nsam seg l' (gen st)) as [nrep g]. discriminate.
    + unfold grow in Eg. destruct (seg >=? MAX_SITES (bufs st)); [|discriminate Eg].
      destruct (request (mem (bufs st))) as [ok h].
      destruct ok; cbn [negb] in Eg; [discriminate Eg|].
      injection Eg as <- <-. discriminate.
  - intros Hmore Hnone. apply skip_to_boundary_none in Hnone.
    assert (E : process_dataset strtod cfg nsam st = Exit 1 line_retrieval_fault).
    { unfold process_dataset. now rewrite Hnone. }
    split; [exact E|].
    cbn [dataset_loop]. apply Z.eqb_neq in Hmore. now rewrite Hmore, E.
Qed.

Lemma C9_boundary_witness :
  (exists skipped,
     fgets_lines (pfin (state_ex (NL ++ "x/" ++ NL ++ "/" ++ NL ++ "segsites: 0" ++ NL)))
       = skipped ++ list_ascii_of_string ("/" ++ NL)
                 :: fgets_lines (list_ascii_of_string ("segsites: 0" ++ NL)) /\
     Forall no_slash skipped /\
     nth 0 (list_ascii_of_string ("/" ++ NL)) NUL = "/"%char) /\
  ((exists rest,
      skip_to_boundary
        (pfin (state_ex (NL ++ "x/" ++ NL ++ "/" ++ NL ++ "segsites: 0" ++ NL)))
      = Some (list_ascii_of_string ("/" ++ NL), rest) /\
      fgets_lines rest = [list_ascii_of_string ("segsites: 0" ++ NL)]) /\
   process_dataset strtod_ex cfg_ex 3
     (state_ex (NL ++ "x/" ++ NL ++ "/" ++ NL ++ "segsites: 0" ++ NL))
   <> Exit 1 line_retrieval_fault) /\
  dataset_loop strtod_ex 1 cfg_ex 3 2 1 (state_ex ("segsites: 2" ++ NL ++ "10"))
    = Some (mkResult ("21" ++ TAB ++ "19" ++ TAB ++ "20" ++ NL)%string 1
              (Some line_retrieval_fault)).
Proof.
  split; [|split].
  - apply (proj1 (C9_boundary strtod_ex 0 cfg_ex 3 2 1
                    (state_ex (NL ++ "x/" ++ NL ++ "/" ++ NL ++ "segsites: 0" ++ NL)))).
    vm_compute. reflexivity.
  - apply (proj1 (proj2 (C9_boundary strtod_ex 0 cfg_ex 3 2 1
                    (state_ex (NL ++ "x/" ++ NL ++ "/" ++ NL ++ "segsites: 0" ++ NL))))
             [list_ascii_of_string NL; list_ascii_of_string ("x/" ++ NL)]).
    + vm_compute. reflexivity.
    + repeat constructor; discriminate.
    + reflexivity.
  - apply (proj2 (proj2 (C9_boundary strtod_ex 0 cfg_ex 3 2 1
                    (state_ex ("segsites: 2" ++ NL ++ "10"))))).
    + vm_compute. discriminate.
    + vm_compute. repeat constructor; discriminate.
Defined.

(** ** C8: the two layouts of the output *)

Lemma append_assoc (a b c : string) : ((a ++ b) ++ c = a ++ b ++ c)%string.
Proof. induction a as [|x a IH]; simpl; [reflexivity | now rewrite IH]. Qed.

Lemma append_nil_r (a : string) : (a ++ "" = a)%string.
Proof. induction a as [|x a IH]; simpl; [reflexivity | now rewrite IH]. Qed.

Lemma join_app (l1 l2 : list string) : join (l1 ++ l2) = (join l1 ++ join l2)%string.
Proof.
  induction l1 as [|x l1 IH]; simpl; [reflexivity|].
  now rewrite IH, append_assoc.
Qed.

Lemma for_loop_ext {S : Type} (n i : nat) (body body' : nat -> S -> S) (s : S) :
  (forall k t, (i <= k < i + n)%nat -> body k t = body' k t) ->
  for_loop n i body s = for_loop n i body' s.
Proof.
  revert i s. induction n as [|n IH]; intros i s H; simpl.
  - reflexivity.
  - rewrite (H i s) by lia. apply IH. intros k t Hk. apply H. lia.
Qed.

Lemma for_loop_append (f : nat -> string) (n : nat) :
  forall i out,
    for_loop n i (fun k o => (o ++ f k)%string) out
    = (out ++ join (map f (seq i n)))%string.
Proof.
  induction n as [|n IH]; intros i out; simpl.
  - now rewrite append_nil_r.
  - now rewrite IH, append_assoc.
Qed.

Lemma tabbed_app (l1 l2 : list string) :
  tabbed (l1 ++ l2) = (tabbed l1 ++ tabbed l2)%string.
Proof. unfold tabbed. now rewrite map_app, join_app. Qed.

Lemma concat_tab_snoc (l : list string) (x : string) :
  String.concat TAB (l ++ [x]) = (tabbed l ++ x)%string.
Proof.
  induction l as [|a l IH]; [reflexivity|].
  change ((a :: l) ++ [x]) with (a :: (l ++ [x])).
  destruct (l ++ [x]) as [|y l'] eqn:E; [now destruct l|].
  change (String.concat TAB (a :: y :: l'))
    with (a ++ TAB ++ String.concat TAB (y :: l'))%string.
  rewrite IH. unfold tabbed. simpl. now rewrite !append_assoc.
Qed.

Lemma tabbed_flat_map {A : Type} (f : A -> list string) (l : list A) :
  tabbed (flat_map f l) = join (map (fun a => tabbed (f a)) l).
Proof.
  induction l as [|a l IH]; [reflexivity|].
  simpl. now rewrite tabbed_app, IH.
Qed.

Lemma map_flat_map {A B C : Type} (g : B -> C) (f : A -> list B) (l : list A) :
  map g (flat_map f l) = flat_map (fun a => map g (f a)) l.
Proof.
  induction l as [|a l IH]; [reflexivity|].
  simpl. now rewrite map_app, IH.
Qed.

Lemma has_char_append (c : ascii) (a b : string) :
  has_char c (a ++ b) = has_char c a || has_char c b.
Proof.
  induction a as [|x a IH]; simpl; [reflexivity|].
  now rewrite IH, orb_assoc.
Qed.

Lemma uint_newline_free (d : Decimal.uint) :
  has_char newline (NilEmpty.string_of_uint d) = false.
Proof. induction d; simpl; auto. Qed.

Lemma fmt_d_newline_free (v : Z) : newline_free (fmt_d v).
Proof.
  unfold newline_free, fmt_d, NilZero.string_of_int, NilZero.string_of_uint.
  destruct (Z.to_int v) as [d|d]; destruct d; simpl;
    try reflexivity; apply uint_newline_free.
Qed.

Lemma tab_line_newline_free (vs : list Z) : newline_free (tab_line vs).
Proof.
  unfold newline_free, tab_line.
  induction vs as [|v vs IH]; [reflexivity|].
  cbn [map]. destruct (map fmt_d vs) as [|y l] eqn:E.
  - apply fmt_d_newline_free.
  - change (String.concat TAB (fmt_d v :: y :: l))
      with (fmt_d v ++ TAB ++ String.concat TAB (y :: l))%string.
    rewrite !has_char_append, IH, (fmt_d_newline_free v). reflexivity.
Qed.

(** The flat layout, for any separator choice made cell by cell. *)
Lemma print_flat_cells (cfg : config) (nsam : Z) (nrep : matrix) (out : string) :
  print_flat cfg nsam nrep out =
  (out ++ join (map (fun a =>
            join (map (fun b =>
              fmt_d (mget nrep b a) ++
              (if ((Z.of_nat b =? nsam - 1) && (Z.of_nat a =? linked_n cfg - 1))%Z
               then NL else TAB))
              (seq 0 (Z.to_nat nsam))))
            (seq 0 (Z.to_nat (linked_n cfg)))))%string.
Proof.
  unfold print_flat, for_upto.
  rewrite <- for_loop_append. apply for_loop_ext. intros a o _.
  rewrite <- for_loop_append. apply for_loop_ext. intros b o' _.
  destruct ((Z.of_nat b =? nsam - 1) && (Z.of_nat a =? linked_n cfg - 1));
    reflexivity.
Qed.

Lemma print_flat_line (cfg : config) (nsam : Z) (nrep : matrix) (out : string) :
  1 <= nsam -> 1 <= linked_n cfg ->
  print_flat cfg nsam nrep out =
  (out ++ tab_line (flat_values nsam (linked_n cfg) nrep) ++ NL)%string.
Proof.
  intros HN HL. rewrite print_flat_cells. f_equal.
  unfold tab_line, flat_values.
  destruct (Z.to_nat (linked_n cfg)) as [|L'] eqn:EL; [lia|].
  destruct (Z.to_nat nsam) as [|N'] eqn:EN; [lia|].
  rewrite (seq_S L'), map_app, join_app, flat_map_app. cbn [map join flat_map Nat.add].
  rewrite app_nil_r, append_nil_r.
  rewrite (seq_S N'). rewrite !map_app, join_app. cbn [map join Nat.add].
  rewrite append_nil_r.
  replace (Z.of_nat N' =? nsam - 1) with true by (symmetry; apply Z.eqb_eq; lia).
  replace (Z.of_nat L' =? linked_n cfg - 1) with true by (symmetry; apply Z.eqb_eq; lia).
  cbn [andb].
  rewrite app_assoc, concat_tab_snoc, tabbed_app, map_flat_map, tabbed_flat_map.
  rewrite !append_assoc. f_equal; [|f_equal].
  - f_equal. apply map_ext_in. intros a Ha. apply in_seq in Ha.
    unfold tabbed. rewrite !map_map. f_equal. apply map_ext_in. intros b Hb.
    replace (Z.of_nat a =? linked_n cfg - 1) with false
      by (symmetry; apply Z.eqb_neq; lia).
    now rewrite andb_false_r.
  - unfold tabbed. rewrite !map_map. f_equal. apply map_ext_in. intros b Hb.
    apply in_seq in Hb.
    replace (Z.of_nat b =? nsam - 1) with false by (symmetry; apply Z.eqb_neq; lia).
    reflexivity.
Qed.

Lemma print_im_lines (cfg : config) (nsam : Z) (nrep : matrix) (out : string) :
  1 <= linked_n cfg ->
  print_im cfg nsam nrep out =
  (out ++ text_of_lines
     (map (fun a => tab_line (row_values (linked_n cfg) nrep a)) (seq 0 (Z.to_nat nsam))
      ++ ["//"%string]))%string.
Proof.
  intros HL. unfold print_im, text_of_lines.
  rewrite map_app, join_app, map_map. cbn [map join].
  rewrite append_nil_r, <- (append_assoc out).
  f_equal. unfold for_upto at 1. rewrite <- for_loop_append.
  apply for_loop_ext. intros a o _.
  unfold for_upto. rewrite for_loop_append, append_assoc. f_equal.
  unfold tab_line, row_values.
  replace (Z.to_nat (linked_n cfg)) with (S (Z.to_nat (linked_n cfg - 1))) by lia.
  rewrite seq_S, !map_app. cbn [map Nat.add].
  rewrite concat_tab_snoc, append_assoc. f_equal.
  unfold tabbed. now rewrite !map_map.
Qed.

Lemma flat_values_length (nsam linked_n : Z) (nrep : matrix) :
  length (flat_values nsam linked_n nrep) = (Z.to_nat linked_n * Z.to_nat nsam)%nat.
Proof.
  unfold flat_values.
  assert (H : forall l : list nat,
            length (flat_map (fun a => map (fun b => mget nrep b a) (seq 0 (Z.to_nat nsam))) l)
            = (length l * Z.to_nat nsam)%nat).
  { induction l as [|a l IH]; [reflexivity|].
    cbn [flat_map length]. rewrite length_app, length_map, length_seq, IH. lia. }
  now rewrite H, length_seq.
Qed.

(** C8: for a dataset of [N >= 1] individuals and [L >= 1] loci, flat mode
    appends one newline-terminated line holding the [N * L] values in
    locus-major order separated by tabs; per-individual mode appends [N]
    newline-terminated lines of [L] tab-separated values each, individual by
    individual, and then the line [//]. *)
Theorem C8_output_layout (cfg : config) (nsam : Z) (nrep : matrix) (out : string) :
  1 <= linked_n cfg ->
  (im_flag cfg = 0 -> 1 <= nsam ->
     let vs := flat_values nsam (linked_n cfg) nrep in
     print_dataset cfg nsam nrep out = (out ++ text_of_lines [tab_line vs])%string /\
     length vs = (Z.to_nat (linked_n cfg) * Z.to_nat nsam)%nat /\
     newline_free (tab_line vs)) /\
  (im_flag cfg <> 0 ->
     let data :=
       map (fun a => tab_line (row_values (linked_n cfg) nrep a))
         (seq 0 (Z.to_nat nsam)) in
     print_dataset cfg nsam nrep out
       = (out ++ text_of_lines (data ++ ["//"%string]))%string /\
     length (data ++ ["//"%string]) = (Z.to_nat nsam + 1)%nat /\
     Forall newline_free (data ++ ["//"%string]) /\
     forall a, length (row_values (linked_n cfg) nrep a) = Z.to_nat (linked_n cfg)).
Proof.
  intros HL. split.
  - intros Hflat HN. cbv zeta. unfold print_dataset. rewrite Hflat. cbn [Z.eqb].
    split; [|split].
    + rewrite print_flat_line by assumption.
      unfold text_of_lines. cbn [map join]. now rewrite append_nil_r.
    + apply flat_values_length.
    + apply tab_line_newline_free.
  - intros Him. cbv zeta. unfold print_dataset.
    replace (im_flag cfg =? 0) with false by (symmetry; now apply Z.eqb_neq).
    split; [|split; [|split]].
    + now apply print_im_lines.
    + rewrite length_app, length_map, length_seq. reflexivity.
    + apply Forall_app. split.
      * apply Forall_forall. intros l Hl. apply in_map_iff in Hl.
        destruct Hl as (a & <- & _). apply tab_line_newline_free.
      * constructor; [reflexivity | constructor].
    + intros a. unfold row_values. now rewrite length_map, length_seq.
Qed.

Lemma C8_output_layout_witness :
  print_dataset cfg_ex 3 nrep_ex EmptyString
    = text_of_lines [tab_line [21; 20; 21]] /\
  print_dataset cfg_im 3 nrep_ex EmptyString
    = text_of_lines [tab_line [21; 20]; tab_line [20; 19]; tab_line [21; 19]; "//"%string].
Proof.
  split.
  - apply (proj1 (C8_output_layout cfg_ex 3 nrep_ex EmptyString ltac:(simpl; lia))
             eq_refl ltac:(lia)).
  - apply (proj2 (C8_output_layout cfg_im 3 nrep_ex EmptyString ltac:(simpl; lia))).
    simpl. discriminate.
Defined.

(** ** The run always ends *)

Lemma skip_ws_le (inp : cstr) : (length (skip_ws inp) <= length inp)%nat.
Proof.
  induction inp as [|c inp IH]; simpl; [lia|].
  destruct (isspace c); simpl; lia.
Qed.

Lemma take_token_le (inp : cstr) : (length (snd (take_token inp)) <= length inp)%nat.
Proof.
  induction inp as [|c inp IH]; simpl; [lia|].
  destruct (isspace c); simpl; [lia|].
  destruct (take_token inp); simpl in *; lia.
Qed.

Lemma scan_s_le (inp : cstr) : (length (snd (scan_s inp)) <= length inp)%nat.
Proof.
  unfold scan_s.
  pose proof (take_token_le (skip_ws inp)) as H1.
  pose proof (skip_ws_le inp) as H2.
  destruct (take_token (skip_ws inp)) as [[|c t] r]; simpl in *; lia.
Qed.

Lemma take_digits_le (inp : cstr) :
  forall acc seen,
    (length (snd (take_digits inp acc seen)) <= length inp)%nat.
Proof.
  induction inp as [|c inp IH]; intros acc seen; cbn [take_digits snd length]; [lia|].
  destruct (isdigit c); cbn [snd length]; [|lia].
  specialize (IH (10 * acc + Z.of_nat (nat_of_ascii c - 48)) true). lia.
Qed.

Lemma scan_d_le (inp : cstr) : (length (snd (scan_d inp)) <= length inp)%nat.
Proof.
  unfold scan_d. pose proof (skip_ws_le inp) as H.
  assert (Hd : forall neg s,
            (length (snd (match take_digits s 0 false with
                          | (v, true, r) => (Some (wrap_int (if neg : bool then - v else v)), r)
                          | (_, false, r) => (None, r)
                          end)) <= length s)%nat).
  { intros neg s. pose proof (take_digits_le s 0 false) as Hs.
    destruct (take_digits s 0 false) as [[v [|]] r]; exact Hs. }
  destruct (skip_ws inp) as [|c rest] eqn:E.
  - apply (Nat.le_trans _ _ _ (Hd false [])). simpl. lia.
  - destruct (Ascii.eqb c "-"); [|destruct (Ascii.eqb c "+")].
    + apply (Nat.le_trans _ _ _ (Hd true rest)). simpl in H. lia.
    + apply (Nat.le_trans _ _ _ (Hd false rest)). simpl in H. lia.
    + apply (Nat.le_trans _ _ _ (Hd false (c :: rest))). exact H.
Qed.

Lemma match_lit_le (lit : cstr) :
  forall inp, (length (snd (match_lit lit inp)) <= length inp)%nat.
Proof.
  induction lit as [|c lit IH]; intros inp; simpl; [lia|].
  destruct inp as [|c' rest]; simpl; [lia|].
  destruct (Ascii.eqb c c'); simpl; [|lia].
  specialize (IH rest). lia.
Qed.

Lemma scan_segsites_le (segsites : Z) (inp : cstr) :
  (length (snd (scan_segsites segsites inp)) <= length inp)%nat.
Proof.
  unfold scan_segsites.
  pose proof (match_lit_le (list_ascii_of_string "segsites:") (skip_ws inp)) as H1.
  pose proof (skip_ws_le inp) as H2.
  destruct (match_lit (list_ascii_of_string "segsites:") (skip_ws inp)) as [[|] r];
    simpl in *; [|lia].
  pose proof (scan_d_le (skip_ws r)) as H3.
  pose proof (skip_ws_le r) as H4.
  destruct (scan_d (skip_ws r)) as [[v|] r']; simpl in *; lia.
Qed.

Lemma scan_lf_le (strtod : cstr -> double * nat) (inp : cstr) :
  (length (snd (scan_lf strtod inp)) <= length inp)%nat.
Proof.
  unfold scan_lf. pose proof (skip_ws_le inp) as H.
  destruct (strtod (skip_ws inp)) as [x [|n]]; simpl; [lia|].
  destruct (skip_ws inp) as [|c rest]; simpl in *; [lia|].
  rewrite length_skipn. lia.
Qed.

Lemma read_sample_le (strtod : cstr -> double * nat) (nsam segsites : Z)
    (astr : cstr) (list_ : list cstr) (inp : cstr) :
  (length (snd (read_sample strtod nsam segsites astr list_ inp)) <= length inp)%nat.
Proof.
  unfold read_sample. destruct (segsites >? 0); [|simpl; lia].
  pose proof (scan_s_le inp) as H1.
  destruct (scan_s inp) as [t inp1]. cbn [snd] in H1.
  set (astr' := match t with Some t0 => t0 | None => astr end).
  set (inp2 := if Ascii.eqb (nth 1 astr' NUL) "r"
               then snd (scan_s (snd (scan_lf strtod inp1))) else inp1).
  assert (H2 : (length inp2 <= length inp1)%nat).
  { unfold inp2. destruct (Ascii.eqb (nth 1 astr' NUL) "r"); [|lia].
    pose proof (scan_s_le (snd (scan_lf strtod inp1))).
    pose proof (scan_lf_le strtod inp1). lia. }
  set (inp3 := for_upto segsites (fun _ i => snd (scan_lf strtod i)) inp2).
  assert (H3 : (length inp3 <= length inp2)%nat).
  { unfold inp3.
    apply (for_upto_inv (fun _ i => (length i <= length inp2)%nat)); [lia|].
    intros k i _ Hi. pose proof (scan_lf_le strtod i). lia. }
  match goal with
  | |- context [for_upto nsam ?body (list_, inp3)] =>
      assert (H4 : (length (snd (for_upto nsam body (list_, inp3))) <= length inp3)%nat)
  end.
  { apply (for_upto_inv (fun _ (p : list cstr * cstr) =>
                           (length (snd p) <= length inp3)%nat)); [simpl; lia|].
    intros k [l i] _ Hi. cbn [snd] in Hi.
    pose proof (scan_s_le i) as Hs. destruct (scan_s i) as [t' i']. simpl in *. lia. }
  destruct (for_upto nsam _ (list_, inp3)) as [l4 inp4]. simpl in *. lia.
Qed.

Lemma skip_to_boundary_shrinks (inp : cstr) :
  forall line rest,
    skip_to_boundary inp = Some (line, rest) -> (length rest < length inp)%nat.
Proof.
  funelim (skip_to_boundary inp); intros line0 rest0 Hres.
  - pose proof (fgets_shrinks _ _ _ e) as Hlt.
    destruct (negb (Ascii.eqb (nth 0 line NUL) "/")).
    + specialize (H _ _ Hres). lia.
    + injection Hres as <- <-. exact Hlt.
  - discriminate Hres.
Qed.

Lemma process_dataset_shrinks (strtod : cstr -> double * nat) (cfg : config)
    (nsam : Z) (st st' : state) :
  process_dataset strtod cfg nsam st = Ok st' ->
  (length (pfin st') < length (pfin st))%nat.
Proof.
  unfold process_dataset.
  destruct (skip_to_boundary (pfin st)) as [[line inp]|] eqn:E; [|discriminate].
  apply skip_to_boundary_shrinks in E.
  pose proof (scan_segsites_le (segsites st) inp) as H1.
  destruct (scan_segsites (segsites st) inp) as [seg inp1]. cbn [snd] in H1.
  destruct (grow (bufs st) seg) as [b|gs gd] eqn:Eg; [|discriminate].
  pose proof (read_sample_le strtod nsam seg (astr st) (list_ b) inp1)
    as H2.
  destruct (read_sample strtod nsam seg (astr st) (list_ b) inp1)
    as [[astr' l'] inp2]. cbn [snd] in H2.
  destruct (mutate cfg nsam seg l' (gen st)) as [nrep g].
  intros H. injection H as <-. cbn [pfin]. lia.
Qed.

(** With more fuel than characters of input the loop over datasets gives a
    result. *)
Lemma dataset_loop_returns (strtod : cstr -> double * nat) (cfg : config)
    (nsam ms_datasets : Z) (fuel : nat) :
  forall count st,
    (length (pfin st) < fuel)%nat ->
    exists r, dataset_loop strtod fuel cfg nsam ms_datasets count st = Some r.
Proof.
  induction fuel as [|fuel IH]; intros count st Hfuel; [lia|].
  cbn [dataset_loop].
  destruct (wrap_int (ms_datasets - count) =? 0); [eauto|].
  destruct (process_dataset strtod cfg nsam st) as [st'|s d] eqn:E; [|eauto].
  apply process_dataset_shrinks in E. apply IH. lia.
Qed.

(** Every run ends with a result. *)
Lemma main_returns (strtod : cstr -> double * nat) (argv : list cstr) (stdin : cstr)
    (g : rng) (h : heap) :
  exists r, main strtod argv stdin g h = Some r.
Proof.
  unfold main. destruct (read_header stdin) as [[nsam ms] inp].
  destruct (parse_args strtod argv) as [cfg|s d]; [|eauto].
  destruct (alloc_buffers h nsam) as [b|s d]; [|eauto].
  apply dataset_loop_returns. cbn [pfin]. lia.
Qed.

(** The haplotype buffers keep their sizes over a dataset. *)
Lemma write_str_length (tok buf : cstr) : length (write_str tok buf) = length buf.
Proof.
  unfold write_str. rewrite length_firstn, length_app. cbn [length].
  rewrite length_skipn. lia.
Qed.

Lemma set_nth_lengths (i : nat) (x : cstr) (l : list cstr) :
  length x = length (nth i l []) ->
  map (@length ascii) (set_nth i x l) = map (@length ascii) l.
Proof.
  revert i. induction l as [|h t IH]; intros [|i] H; simpl in *; try reflexivity.
  - now rewrite H.
  - f_equal. now apply IH.
Qed.

Lemma read_sample_capacity (strtod : cstr -> double * nat) (nsam segsites : Z)
    (astr : cstr) (list_ : list cstr) (inp : cstr) :
  map (@length ascii) (snd (fst (read_sample strtod nsam segsites astr list_ inp)))
  = map (@length ascii) list_.
Proof.
  unfold read_sample. destruct (segsites >? 0); [|reflexivity].
  destruct (scan_s inp) as [t inp1].
  match goal with
  | |- context [for_upto nsam ?body (list_, ?i0)] =>
      assert (H : map (@length ascii) (fst (for_upto nsam body (list_, i0)))
                  = map (@length ascii) list_)
  end.
  { apply (for_upto_inv (fun _ (p : list cstr * cstr) =>
             map (@length ascii) (fst p) = map (@length ascii) list_)); [reflexivity|].
    intros k [l i] _ Hl. cbn [fst] in Hl.
    destruct (scan_s i) as [[tok|] i']; cbn [fst]; [|exact Hl].
    rewrite set_nth_lengths; [exact Hl | apply write_str_length]. }
  destruct (for_upto nsam _ _) as [l4 inp4]. exact H.
Qed.

(** Over a dataset that is read to its end, whatever its number of sites,
    every haplotype buffer keeps the size it had. *)
Lemma process_dataset_capacity (strtod : cstr -> double * nat) (cfg : config)
    (nsam : Z) (st st' : state) :
  process_dataset strtod cfg nsam st = Ok st' ->
  map (@length ascii) (list_ (bufs st')) = map (@length ascii) (list_ (bufs st)).
Proof.
  unfold process_dataset.
  destruct (skip_to_boundary (pfin st)) as [[line inp]|]; [|discriminate].
  destruct (scan_segsites (segsites st) inp) as [seg inp1].
  destruct (grow (bufs st) seg) as [b|gs gd] eqn:Eg; [|discriminate].
  pose proof (read_sample_capacity strtod nsam seg (astr st)
                (list_ b) inp1) as H.
  destruct (read_sample strtod nsam seg (astr st) (list_ b) inp1)
    as [[astr' l'] inp2]. cbn [fst snd] in H.
  destruct (mutate cfg nsam seg l' (gen st)) as [nrep g].
  intros E. injection E as <-. cbn [bufs list_].
  now rewrite H, (grow_list _ _ _ Eg).
Qed.

(** A dataset without segregating sites reads nothing after its count and
    prints the initialised matrix. *)
Lemma process_dataset_no_segsites (strtod : cstr -> double * nat) (cfg : config)
    (nsam : Z) (st : state) (line inp inp' : cstr) :
  0 < MAX_SITES (bufs st) ->
  skip_to_boundary (pfin st) = Some (line, inp) ->
  scan_segsites (segsites st) inp = (0, inp') ->
  exists st',
    process_dataset strtod cfg nsam st = Ok st' /\
    segsites st' = 0 /\ pfin st' = inp' /\ gen st' = gen st /\
    out st' = print_dataset cfg nsam (init_nrep nsam cfg) (out st).
Proof.
  intros Hmax Hb Hs. unfold process_dataset. rewrite Hb, Hs.
  unfold grow.
  replace (0 >=? MAX_SITES (bufs st)) with false
    by (symmetry; rewrite Z.geb_leb; apply Z.leb_gt; exact Hmax).
  unfold read_sample. cbn [Z.gtb Z.compare].
  unfold mutate, for_upto. cbn [Z.to_nat for_loop].
  eexists. split; [reflexivity|]. cbn. auto.
Qed.


(** ** Two whole runs *)

Lemma cfg_ex_parsed :
  parse_args strtod_ex (cstrs ["microsat"; "-a"; "20"]%string) = Ok cfg_ex.
Proof. vm_compute. reflexivity. Qed.

Lemma cfg_im_parsed :
  parse_args strtod_ex
    (cstrs ["microsat"; "-a"; "20"; "-i"; "-l"; "2"; "0.4"; "0.6"]%string)
  = Ok cfg_im.
Proof. vm_compute. reflexivity. Qed.

(** [microsat -a 20] on two datasets of three individuals, the first with the
    sites of the worked example and the second without sites. *)
Example main_flat_run :
  main strtod_ex (cstrs ["microsat"; "-a"; "20"]%string) stdin_ex gen_ex heap_ex
  = Some (mkResult
            ("21" ++ TAB ++ "19" ++ TAB ++ "20" ++ NL ++
             "20" ++ TAB ++ "20" ++ TAB ++ "20" ++ NL)%string
            0 None).
Proof. vm_compute. reflexivity. Qed.

(** The same run on allocators that refuse the first request (the array of
    row pointers), the third (the second row) and the fifth ([posit]). *)
Example main_refused_runs :
  main strtod_ex (cstrs ["microsat"; "-a"; "20"]%string) stdin_ex gen_ex
    (mkHeap (fun k => negb (k =? 0)%nat) 0)
  = Some (mkResult EmptyString 1 (Some malloc_failure_1_cmatrix)) /\
  main strtod_ex (cstrs ["microsat"; "-a"; "20"]%string) stdin_ex gen_ex
    (mkHeap (fun k => negb (k =? 2)%nat) 0)
  = Some (mkResult EmptyString 1 (Some malloc_failure_2_cmatrix)) /\
  main strtod_ex (cstrs ["microsat"; "-a"; "20"]%string) stdin_ex gen_ex
    (mkHeap (fun k => negb (k =? 4)%nat) 0)
  = Some (mkResult EmptyString 1 (Some malloc_failure_posit)).
Proof. repeat split; vm_compute; reflexivity. Qed.

(** The same input under [microsat -a 20 -i -l 2 0.4 0.6]: the draws 0.3 and
    0.9 send site 0 to locus 0 and site 1 to locus 1. *)
Example main_im_run :
  main strtod_ex
    (cstrs ["microsat"; "-a"; "20"; "-i"; "-l"; "2"; "0.4"; "0.6"]%string)
    stdin_ex gen_ex heap_ex
  = Some (mkResult
            ("21" ++ TAB ++ "20" ++ NL ++ "20" ++ TAB ++ "19" ++ NL ++
             "21" ++ TAB ++ "19" ++ NL ++ "//" ++ NL ++
             "20" ++ TAB ++ "20" ++ NL ++ "20" ++ TAB ++ "20" ++ NL ++
             "20" ++ TAB ++ "20" ++ NL ++ "//" ++ NL)%string
            0 None).
Proof. vm_compute. reflexivity. Qed.

(** ** The effect of one site *)

(** One site changes, for every individual, only the cell of the chosen
    locus, and changes it by the step exactly when the individual carries
    '1' at the site. *)
Lemma site_body_cells (cfg : config) (nsam : Z) (list_ : list cstr) (i : nat)
    (nrep : matrix) (g : rng) :
  0 < linked_n cfg ->
  shape (Z.to_nat nsam) (Z.to_nat (linked_n cfg)) nrep ->
  let k := choose_str cfg (locus_draw g 0) in
  let step := step_of (direction_draw g 0) in
  let nrep' := fst (site_body cfg nsam list_ i (nrep, g)) in
  shape (Z.to_nat nsam) (Z.to_nat (linked_n cfg)) nrep' /\
  (forall ind, (ind < Z.to_nat nsam)%nat ->
     mget nrep' ind k = stepped list_ i ind step (mget nrep ind k)) /\
  (forall ind c, c <> k -> mget nrep' ind c = mget nrep ind c).
Proof.
  intros HL Hshape. cbv zeta. rewrite site_body_eq. cbn [fst].
  unfold locus_draw, direction_draw.
  replace (cursor g + 2 * 0 + 1)%nat with (S (cursor g)) by lia.
  replace (cursor g + 2 * 0)%nat with (cursor g) by lia.
  apply (apply_step_spec (Z.to_nat nsam) (Z.to_nat (linked_n cfg)));
    [reflexivity | exact Hshape | now apply choose_str_lt].
Qed.

(* ------------------------------------------------------------------------- *)
(** * Further properties of the program *)

(** ** The mutation engine, cell by cell *)

Lemma mutate_with_cells (cfg : config) (nsam : Z) (list_ : list cstr)
    (d r : nat -> double) (n : nat) :
  0 < linked_n cfg ->
  let m := mutate_with cfg nsam list_ n d r in
  shape (Z.to_nat nsam) (Z.to_nat (linked_n cfg)) m /\
  forall ind j, (ind < Z.to_nat nsam)%nat -> (j < Z.to_nat (linked_n cfg))%nat ->
    mget m ind j = fold_left int_add (site_steps cfg list_ n d r ind j) (ancstate cfg).
Proof.
  intros HL. cbv zeta. unfold mutate_with. induction n as [|n IH].
  - cbn [seq fold_left]. destruct (init_nrep_spec nsam cfg) as [Hs Hc].
    split; [exact Hs|]. intros ind j Hi Hj. now apply Hc.
  - destruct IH as [Hs Hc]. rewrite seq_S, fold_left_app. cbn [fold_left Nat.add].
    set (m := fold_left _ (seq 0 n) (init_nrep nsam cfg)) in *.
    destruct (apply_step_spec (Z.to_nat nsam) (Z.to_nat (linked_n cfg)) nsam list_ n
                (choose_str cfg (r n)) (step_of (d n)) m eq_refl Hs
                (choose_str_lt cfg (r n) HL)) as (Hs' & Hk & Ho).
    split; [exact Hs'|]. intros ind j Hi Hj.
    unfold site_steps. rewrite seq_S, filter_app, map_app, fold_left_app.
    fold (site_steps cfg list_ n d r ind j). rewrite <- (Hc ind j Hi Hj).
    cbn [filter Nat.add]. destruct (Nat.eq_dec j (choose_str cfg (r n))) as [->|Hne].
    + rewrite Nat.eqb_refl, Hk by exact Hi. cbn [andb]. unfold stepped.
      destruct (Ascii.eqb (hap list_ ind n) "1"); reflexivity.
    + rewrite Ho by exact Hne.
      replace (choose_str cfg (r n) =? j)%nat with false
        by (symmetry; apply Nat.eqb_neq; congruence).
      reflexivity.
Qed.

Lemma mutate_cells (cfg : config) (nsam segsites : Z) (list_ : list cstr) (g : rng) :
  0 < linked_n cfg ->
  let m := fst (mutate cfg nsam segsites list_ g) in
  shape (Z.to_nat nsam) (Z.to_nat (linked_n cfg)) m /\
  forall ind j, (ind < Z.to_nat nsam)%nat -> (j < Z.to_nat (linked_n cfg))%nat ->
    mget m ind j =
    fold_left int_add
      (site_steps cfg list_ (Z.to_nat segsites) (direction_draw g) (locus_draw g) ind j)
      (ancstate cfg).
Proof.
  intros HL. cbv zeta. rewrite mutate_eq. cbn [fst].
  now apply mutate_with_cells.
Qed.

(** X1: with at least one locus, the matrix that the engine returns has
    [nsam] rows of [linked_n] cells, and the cell of individual [ind] at
    locus [j] is the ancestral state to which the steps of the sites assigned
    to [j] where [ind] carries '1' were added one after the other, in site
    order. *)
Theorem X1_mutate_cells (cfg : config) (nsam segsites : Z) (list_ : list cstr)
    (g : rng) :
  0 < linked_n cfg ->
  let m := fst (mutate cfg nsam segsites list_ g) in
  shape (Z.to_nat nsam) (Z.to_nat (linked_n cfg)) m /\
  forall ind j, (ind < Z.to_nat nsam)%nat -> (j < Z.to_nat (linked_n cfg))%nat ->
    mget m ind j =
    fold_left int_add
      (site_steps cfg list_ (Z.to_nat segsites) (direction_draw g) (locus_draw g) ind j)
      (ancstate cfg).
Proof.
  exact (mutate_cells cfg nsam segsites list_ g).
Qed.

Lemma X1_mutate_cells_witness :
  mget (fst (mutate cfg_im 3 2 rows_ex gen_ex)) 2 1 = int_add 20 (-1) /\
  mget (fst (mutate cfg_im 3 2 rows_ex gen_ex)) 2 0 = int_add 20 1.
Proof.
  destruct (X1_mutate_cells cfg_im 3 2 rows_ex gen_ex ltac:(reflexivity)) as [_ H].
  split.
  - apply (H 2%nat 1%nat); vm_compute; lia.
  - apply (H 2%nat 0%nat); vm_compute; lia.
Defined.

Lemma site_steps_ext (cfg : config) (list_ : list cstr) (S : nat)
    (d r : nat -> double) (ind ind' j : nat) :
  (forall i, (i < S)%nat ->
     Ascii.eqb (hap list_ ind i) "1" = Ascii.eqb (hap list_ ind' i) "1") ->
  site_steps cfg list_ S d r ind j = site_steps cfg list_ S d r ind' j.
Proof.
  intros H. unfold site_steps. f_equal. apply filter_ext_in.
  intros i Hi. apply in_seq in Hi. rewrite H by lia. reflexivity.
Qed.

(** X2: two individuals whose haplotypes agree at every site of the dataset
    leave the engine with the same length at every locus. *)
Theorem X2_equal_rows_equal_lengths (cfg : config) (nsam segsites : Z)
    (list_ : list cstr) (g : rng) (ind ind' j : nat) :
  0 < linked_n cfg ->
  (ind < Z.to_nat nsam)%nat -> (ind' < Z.to_nat nsam)%nat ->
  (j < Z.to_nat (linked_n cfg))%nat ->
  (forall i, (i < Z.to_nat segsites)%nat -> hap list_ ind i = hap list_ ind' i) ->
  mget (fst (mutate cfg nsam segsites list_ g)) ind j =
  mget (fst (mutate cfg nsam segsites list_ g)) ind' j.
Proof.
  intros HL Hi Hi' Hj Hrows.
  destruct (mutate_cells cfg nsam segsites list_ g HL) as [_ H].
  rewrite (H ind j Hi Hj), (H ind' j Hi' Hj).
  f_equal. apply site_steps_ext. intros i Hlt. now rewrite Hrows.
Qed.

Lemma X2_equal_rows_equal_lengths_witness :
  mget (fst (mutate cfg_im 3 2 rows_twin gen_ex)) 0 0 =
  mget (fst (mutate cfg_im 3 2 rows_twin gen_ex)) 1 0.
Proof.
  apply (X2_equal_rows_equal_lengths cfg_im 3 2 rows_twin gen_ex 0 1 0).
  - reflexivity.
  - vm_compute. lia.
  - vm_compute. lia.
  - vm_compute. lia.
  - intros i Hi. destruct i as [|[|i]]; [reflexivity | reflexivity |].
    change (Z.to_nat 2) with 2%nat in Hi. lia.
Defined.

(** X3: an individual that carries '1' at no site of the dataset keeps the
    ancestral state at every locus, whatever the draws. *)
Theorem X3_no_one_no_change (cfg : config) (nsam segsites : Z)
    (list_ : list cstr) (g : rng) (ind j : nat) :
  0 < linked_n cfg ->
  (ind < Z.to_nat nsam)%nat -> (j < Z.to_nat (linked_n cfg))%nat ->
  (forall i, (i < Z.to_nat segsites)%nat -> hap list_ ind i <> "1"%char) ->
  mget (fst (mutate cfg nsam segsites list_ g)) ind j = ancstate cfg.
Proof.
  intros HL Hi Hj Hzero.
  destruct (mutate_cells cfg nsam segsites list_ g HL) as [_ H].
  rewrite (H ind j Hi Hj). unfold site_steps.
  rewrite (filter_ext_in _ (fun _ => false)), filter_false; [reflexivity|].
  intros i Hin. apply in_seq in Hin.
  replace (Ascii.eqb (hap list_ ind i) "1") with false
    by (symmetry; apply Ascii.eqb_neq; apply Hzero; lia).
  apply andb_false_r.
Qed.

Lemma X3_no_one_no_change_witness :
  mget (fst (mutate cfg_im 3 2 rows_twin gen_ex)) 2 1 = 20.
Proof.
  apply (X3_no_one_no_change cfg_im 3 2 rows_twin gen_ex 2 1).
  - reflexivity.
  - vm_compute. lia.
  - vm_compute. lia.
  - intros i Hi. destruct i as [|[|i]]; [discriminate | discriminate |].
    change (Z.to_nat 2) with 2%nat in Hi. lia.
Defined.

Lemma wrap_int_small (z : Z) : in_int z -> wrap_int z = z.
Proof.
  unfold in_int, wrap_int. intros H.
  rewrite Z.mod_small by lia. lia.
Qed.

Lemma fold_steps_bounds (l : list Z) :
  forall a,
    Forall (fun s => s = -1 \/ s = 1) l ->
    in_int (a - Z.of_nat (length l)) -> in_int (a + Z.of_nat (length l)) ->
    a - Z.of_nat (length l) <= fold_left int_add l a <= a + Z.of_nat (length l).
Proof.
  induction l as [|s l IH]; intros a Hl Hlo Hhi.
  - simpl in *. lia.
  - inversion Hl as [|? ? Hs Hl']; subst.
    cbn [fold_left length] in *. unfold in_int in *.
    assert (E : int_add a s = a + s).
    { unfold int_add. apply wrap_int_small. unfold in_int. lia. }
    rewrite E.
    specialize (IH (a + s) Hl'). unfold in_int in IH. lia.
Qed.

(** X4: when the ancestral state is at least [S] away from both bounds of an
    [int], where [S] is the number of sites, every length that the engine
    returns lies within [S] of the ancestral state. *)
Theorem X4_lengths_within_sites (cfg : config) (nsam segsites : Z)
    (list_ : list cstr) (g : rng) (ind j : nat) :
  0 < linked_n cfg -> 0 <= segsites ->
  in_int (ancstate cfg - segsites) -> in_int (ancstate cfg + segsites) ->
  (ind < Z.to_nat nsam)%nat -> (j < Z.to_nat (linked_n cfg))%nat ->
  ancstate cfg - segsites
    <= mget (fst (mutate cfg nsam segsites list_ g)) ind j
    <= ancstate cfg + segsites.
Proof.
  intros HL HS Hlo Hhi Hi Hj.
  destruct (mutate_cells cfg nsam segsites list_ g HL) as [_ H].
  rewrite (H ind j Hi Hj).
  set (l := site_steps cfg list_ (Z.to_nat segsites) (direction_draw g) (locus_draw g) ind j).
  assert (Hlen : (length l <= Z.to_nat segsites)%nat).
  { unfold l, site_steps. rewrite length_map.
    etransitivity; [apply filter_length_le|]. now rewrite length_seq. }
  assert (Hsteps : Forall (fun s => s = -1 \/ s = 1) l).
  { unfold l, site_steps. apply Forall_forall. intros s Hs.
    apply in_map_iff in Hs. destruct Hs as (i & <- & _).
    unfold step_of. destruct (direction_draw g i <? 0.5)%float; auto. }
  unfold in_int in *.
  pose proof (fold_steps_bounds l (ancstate cfg) Hsteps) as Hb.
  unfold in_int in Hb. lia.
Qed.

Lemma X4_lengths_within_sites_witness :
  20 - 2 <= mget (fst (mutate cfg_im 3 2 rows_ex gen_ex)) 2 1 <= 20 + 2.
Proof.
  apply (X4_lengths_within_sites cfg_im 3 2 rows_ex gen_ex 2 1).
  - reflexivity.
  - lia.
  - unfold in_int. simpl. lia.
  - unfold in_int. simpl. lia.
  - vm_compute. lia.
  - vm_compute. lia.
Defined.

(** X5: with at least one locus, the locus chosen for a site is a column of
    the matrix, for every draw and every array of thetas. *)
Theorem X5_locus_in_range (cfg : config) (r : double) :
  0 < linked_n cfg -> (choose_str cfg r < Z.to_nat (linked_n cfg))%nat.
Proof.
  exact (choose_str_lt cfg r).
Qed.

Lemma X5_locus_in_range_witness :
  (choose_str cfg_near_one draw_near_one < Z.to_nat (linked_n cfg_near_one))%nat.
Proof.
  apply (X5_locus_in_range cfg_near_one draw_near_one). reflexivity.
Defined.

(** ** The formatter at its edges *)

Lemma for_loop_id {S : Type} (n i : nat) (body : nat -> S -> S) (s : S) :
  (forall k t, body k t = t) -> for_loop n i body s = s.
Proof.
  intros H. revert i s. induction n as [|n IH]; intros i s; simpl; [reflexivity|].
  now rewrite H, IH.
Qed.



(** X7: in flat mode a dataset with no individual or no locus prints
    nothing, not even the newline; in per-individual mode a dataset with no
    individual prints the line [//] alone. *)
Theorem X7_print_degenerate (cfg : config) (nsam : Z) (nrep : matrix) (out : string) :
  (im_flag cfg = 0 -> nsam <= 0 \/ linked_n cfg <= 0 ->
     print_dataset cfg nsam nrep out = out) /\
  (im_flag cfg <> 0 -> nsam <= 0 ->
     print_dataset cfg nsam nrep out = (out ++ "//" ++ NL)%string).
Proof.
  unfold print_dataset. split.
  - intros Hflat Hdeg. rewrite Hflat. cbn [Z.eqb].
    unfold print_flat, for_upto. destruct Hdeg as [HN|HL].
    + apply for_loop_id. intros a o.
      replace (Z.to_nat nsam) with 0%nat by lia. reflexivity.
    + replace (Z.to_nat (linked_n cfg)) with 0%nat by lia. reflexivity.
  - intros Him HN.
    replace (im_flag cfg =? 0) with false by (symmetry; now apply Z.eqb_neq).
    unfold print_im, for_upto.
    replace (Z.to_nat nsam) with 0%nat by lia. reflexivity.
Qed.

Lemma X7_print_degenerate_witness :
  print_dataset cfg_ex 0 nrep_ex "20"%string = "20"%string /\
  print_dataset cfg_im 0 nrep_ex "20"%string = ("20" ++ "//" ++ NL)%string.
Proof.
  split.
  - apply (proj1 (X7_print_degenerate cfg_ex 0 nrep_ex "20"%string));
      [reflexivity | left; lia].
  - apply (proj2 (X7_print_degenerate cfg_im 0 nrep_ex "20"%string));
      [simpl; discriminate | lia].
Defined.

(** ** The buffers *)






Lemma size_in_range (nmax : Z) :
  0 <= nmax < 2 ^ 31 ->
  wrap_int (to_unsigned nmax) = nmax /\ to_size_t nmax = nmax /\ doubles nmax = nmax.
Proof.
  intros H. unfold to_unsigned, to_size_t, doubles, to_size_t.
  rewrite (Z.mod_small nmax (2 ^ 32)) by lia.
  rewrite (Z.mod_small nmax (2 ^ 64)) by lia.
  rewrite (Z.mod_small (nmax * 8) (2 ^ 64)) by lia.
  rewrite Z.div_mul by lia.
  split; [|auto]. apply wrap_int_small. unfold in_int. lia.
Qed.




(** What the growth of lines 158-166 leaves, for a number of sites that
    leaves room for the ten added to it. *)
Lemma grow_facts (b b' : buffers) (segsites : Z) :
  grow b segsites = Ok b' ->
  0 < MAX_SITES b -> segsites <= 2 ^ 31 - 11 ->
  segsites < MAX_SITES b' /\
  MAX_SITES b <= MAX_SITES b' /\
  (posit b = MAX_SITES b -> posit b' = MAX_SITES b').
Proof.
  unfold grow. intros E Hpos Hs.
  destruct (segsites >=? MAX_SITES b) eqn:Ege.
  - apply Z.geb_le in Ege.
    destruct (request (mem b)) as [ok h]. destruct ok; cbn [negb] in E; [|discriminate E].
    injection E as <-. cbn [MAX_SITES posit].
    unfold int_add. rewrite wrap_int_small by (unfold in_int; lia).
    rewrite (proj2 (proj2 (size_in_range (segsites + 10) ltac:(lia)))).
    repeat split; lia.
  - injection E as <-.
    assert (segsites < MAX_SITES b) by (rewrite Z.geb_leb in Ege; apply Z.leb_gt in Ege; lia).
    repeat split; auto; lia.
Qed.

Lemma process_dataset_bufs (strtod : cstr -> double * nat) (cfg : config)
    (nsam : Z) (st st' : state) :
  process_dataset strtod cfg nsam st = Ok st' ->
  exists b,
    grow (bufs st) (segsites st') = Ok b /\
    MAX_SITES (bufs st') = MAX_SITES b /\ posit (bufs st') = posit b /\
    mem (bufs st') = mem b.
Proof.
  unfold process_dataset.
  destruct (skip_to_boundary (pfin st)) as [[line inp]|]; [|discriminate].
  destruct (scan_segsites (segsites st) inp) as [seg inp1].
  destruct (grow (bufs st) seg) as [b|gs gd] eqn:Eg; [|discriminate].
  destruct (read_sample strtod nsam seg (astr st) (list_ b) inp1)
    as [[astr' l'] inp2].
  destruct (mutate cfg nsam seg l' (gen st)) as [nrep g].
  intros E. injection E as <-. cbn [bufs segsites MAX_SITES posit mem].
  exists b. auto.
Qed.

(** X10: over every dataset that is read to its end and whose number of
    sites leaves room for the ten that line 159 adds (at most 2^31 - 11),
    [MAX_SITES] stays positive and does not decrease, [posit] keeps holding
    [MAX_SITES] doubles, and [MAX_SITES] ends above the number of sites of
    the dataset, so that the positions fit. *)
Theorem X10_posit_keeps_up (strtod : cstr -> double * nat) (cfg : config)
    (nsam : Z) (st st' : state) :
  process_dataset strtod cfg nsam st = Ok st' ->
  0 < MAX_SITES (bufs st) -> posit (bufs st) = MAX_SITES (bufs st) ->
  segsites st' <= 2 ^ 31 - 11 ->
  posit (bufs st') = MAX_SITES (bufs st') /\
  MAX_SITES (bufs st) <= MAX_SITES (bufs st') /\
  segsites st' < MAX_SITES (bufs st').
Proof.
  intros E Hpos Hposit Hs. apply process_dataset_bufs in E.
  destruct E as (b & Eg & EM & EP & _).
  destruct (grow_facts (bufs st) b (segsites st') Eg Hpos Hs) as (H1 & H2 & H3).
  rewrite EM, EP. auto.
Qed.

Lemma X10_posit_keeps_up_witness :
  match process_dataset strtod_ex cfg_ex 3
          (state0_ex ("//" ++ NL ++ "segsites: 1500" ++ NL)) with
  | Ok st' =>
      posit (bufs st') = MAX_SITES (bufs st') /\
      1000 <= MAX_SITES (bufs st') /\
      segsites st' < MAX_SITES (bufs st')
  | Exit _ _ => False
  end.
Proof.
  destruct (process_dataset strtod_ex cfg_ex 3
              (state0_ex ("//" ++ NL ++ "segsites: 1500" ++ NL))) as [st'|s d] eqn:E.
  - apply (X10_posit_keeps_up strtod_ex cfg_ex 3 _ st' E).
    + reflexivity.
    + reflexivity.
    + vm_compute in E. injection E as <-. vm_compute. discriminate.
  - vm_compute in E. discriminate E.
Defined.

(** X11: over every dataset that is read to its end, whatever its number of
    sites, every haplotype buffer keeps the size it had: [list] is never
    reallocated. *)
Theorem X11_list_never_resized (strtod : cstr -> double * nat) (cfg : config)
    (nsam : Z) (st st' : state) :
  process_dataset strtod cfg nsam st = Ok st' ->
  map (@length ascii) (list_ (bufs st')) = map (@length ascii) (list_ (bufs st)).
Proof.
  exact (process_dataset_capacity strtod cfg nsam st st').
Qed.

Lemma X11_list_never_resized_witness :
  match process_dataset strtod_ex cfg_ex 3
          (state0_ex ("//" ++ NL ++ "segsites: 1500" ++ NL)) with
  | Ok st' =>
      map (@length ascii) (list_ (bufs st'))
      = map (@length ascii)
          (list_ (bufs (state0_ex ("//" ++ NL ++ "segsites: 1500" ++ NL))))
  | Exit _ _ => False
  end.
Proof.
  destruct (process_dataset strtod_ex cfg_ex 3
              (state0_ex ("//" ++ NL ++ "segsites: 1500" ++ NL))) as [st'|s d] eqn:E.
  - exact (X11_list_never_resized strtod_ex cfg_ex 3 _ st' E).
  - vm_compute in E. discriminate E.
Defined.

(** ** The loop over datasets *)

(** X12: every dataset that is read to its end uses at least one character
    of the input, so the loop over datasets cannot run longer than the input
    lasts, whatever number of datasets the header announces. *)
Theorem X12_dataset_uses_input (strtod : cstr -> double * nat) (cfg : config)
    (nsam : Z) (st st' : state) :
  process_dataset strtod cfg nsam st = Ok st' ->
  (length (pfin st') < length (pfin st))%nat.
Proof.
  exact (process_dataset_shrinks strtod cfg nsam st st').
Qed.

Lemma X12_dataset_uses_input_witness :
  match process_dataset strtod_ex cfg_ex 3
          (state0_ex ("//" ++ NL ++ "segsites: 0" ++ NL)) with
  | Ok st' =>
      (length (pfin st')
       < length (pfin (state0_ex ("//" ++ NL ++ "segsites: 0" ++ NL))))%nat
  | Exit _ _ => False
  end.
Proof.
  destruct (process_dataset strtod_ex cfg_ex 3
              (state0_ex ("//" ++ NL ++ "segsites: 0" ++ NL))) as [st'|s d] eqn:E.
  - exact (X12_dataset_uses_input strtod_ex cfg_ex 3 _ st' E).
  - vm_compute in E. discriminate E.
Defined.












(** ** The command line, further *)

Lemma read_thetas_im_flag (strtod : cstr -> double * nat) (argv : list cstr) (n : nat) :
  forall j flag_c cfg p,
    read_thetas strtod argv n j flag_c cfg = Ok p -> im_flag (snd p) = im_flag cfg.
Proof.
  induction n as [|n IH]; intros j flag_c cfg p H; cbn [read_thetas] in H.
  - now injection H as <-.
  - destruct (nth_error argv (S flag_c)) as [a|]; [|discriminate H].
    apply IH in H. exact H.
Qed.

Lemma parse_loop_config_ok (strtod : cstr -> double * nat) (argv : list cstr)
    (fuel : nat) :
  forall flag_c cfg cfg',
    config_ok cfg ->
    parse_loop strtod fuel argv flag_c cfg = Ok cfg' -> config_ok cfg'.
Proof.
  induction fuel as [|fuel IH]; intros flag_c cfg cfg' Hok H.
  - cbn [parse_loop] in H. now injection H as <-.
  - rewrite parse_loop_step in H. cbv zeta in H.
    destruct (flag_c <? length argv)%nat; [|now injection H as <-].
    destruct (Ascii.eqb (nth 0 (nth flag_c argv []) NUL) "-");
      [|now apply IH in H].
    destruct Hok as (Hlen & Hsum & Him).
    destruct (Ascii.eqb (nth 1 (nth flag_c argv []) NUL) "a").
    { destruct (nth_error argv (S flag_c)) as [v|]; [|discriminate H].
      apply IH in H; [exact H|]. repeat split; assumption. }
    destruct (Ascii.eqb (nth 1 (nth flag_c argv []) NUL) "i").
    { apply IH in H; [exact H|]. repeat split; auto. }
    destruct (Ascii.eqb (nth 1 (nth flag_c argv []) NUL) "l"); [|discriminate H].
    destruct (nth_error argv (S flag_c)) as [v|]; [|discriminate H].
    destruct (linked_n (set_linked_n (atoi v) cfg) =? 1) eqn:E1; cbn [negb] in H.
    + apply IH in H; [exact H|]. apply Z.eqb_eq in E1.
      repeat split; auto.
    + destruct (read_thetas strtod argv _ 0 (S flag_c) _) as [[fc c]|] eqn:E;
        [|discriminate H].
      destruct (theta_sum_bad (theta_sum c)) eqn:Ebad; [discriminate H|].
      apply IH in H; [exact H|].
      pose proof (read_thetas_im_flag _ _ _ _ _ _ _ E) as Hi.
      apply read_thetas_short in E. destruct E as (_ & El & _).
      cbn [snd] in *. repeat split; auto.
      * rewrite El. exact Hlen.
      * rewrite Hi. exact Him.
Qed.

(** X15: every configuration that the command line leaves has the array of
    thetas at its declared size, an output-mode flag of 0 or 1, and either
    one locus or a theta sum that passed the check of line 113; in
    particular a locus count of zero or below never comes without such a
    sum. *)
Theorem X15_accepted_config (strtod : cstr -> double * nat) (argv : list cstr)
    (cfg : config) :
  parse_args strtod argv = Ok cfg ->
  length (thetas cfg) = MAX_STRS /\
  (linked_n cfg = 1 \/ theta_sum_bad (theta_sum cfg) = false) /\
  (im_flag cfg = 0 \/ im_flag cfg = 1).
Proof.
  unfold parse_args.
  destruct (parse_loop strtod (length argv) argv 1 config_init) as [c|] eqn:E;
    [|discriminate].
  intros H. injection H as <-.
  apply parse_loop_config_ok in E.
  - destruct E as (Hlen & Hsum & Him). unfold default_theta.
    destruct (linked_n c =? 1); [|auto].
    unfold set_theta. cbn [thetas linked_n theta_sum im_flag].
    rewrite set_nth_length. auto.
  - unfold config_ok, config_init. cbn [thetas linked_n im_flag].
    rewrite repeat_length. auto.
Qed.

Lemma X15_accepted_config_witness :
  length (thetas cfg_im) = MAX_STRS /\
  (linked_n cfg_im = 1 \/ theta_sum_bad (theta_sum cfg_im) = false) /\
  (im_flag cfg_im = 0 \/ im_flag cfg_im = 1).
Proof.
  apply (X15_accepted_config strtod_ex
           (cstrs ["microsat"; "-a"; "20"; "-i"; "-l"; "2"; "0.4"; "0.6"]%string)).
  vm_compute. reflexivity.
Defined.




(** X17: a first [-l L] with [L] zero or negative reads no theta and is
    refused with status 1 by the check of the sum, whatever follows it. *)
Theorem X17_nonpositive_loci (strtod : cstr -> double * nat) (prog n : cstr)
    (rest : list cstr) :
  atoi n <= 0 ->
  parse_args strtod (argv_l prog n rest) = Exit 1 (theta_sum_exceeds 0%float).
Proof.
  intros Hn. unfold parse_args, argv_l. cbn [length].
  rewrite parse_loop_step. cbn [length].
  replace (1 <? S (S (S (length rest))))%nat with true by reflexivity.
  cbv zeta. cbn [nth nth_error list_ascii_of_string].
  change (Ascii.eqb "-" "-") with true.
  change (Ascii.eqb "l" "a") with false.
  change (Ascii.eqb "l" "i") with false.
  change (Ascii.eqb "l" "l") with true.
  cbv iota. cbn [linked_n set_linked_n].
  replace (atoi n =? 1) with false by (symmetry; apply Z.eqb_neq; lia).
  cbn [negb].
  replace (Z.to_nat (atoi n)) with 0%nat by lia.
  cbn [read_thetas theta_sum set_linked_n config_init].
  reflexivity.
Qed.

Lemma X17_nonpositive_loci_witness :
  parse_args strtod_ex (argv_l (arg "microsat") (arg "0") [arg "0.4"; arg "0.6"])
  = Exit 1 (theta_sum_exceeds 0%float).
Proof.
  apply (X17_nonpositive_loci strtod_ex (arg "microsat") (arg "0") [arg "0.4"; arg "0.6"]).
  vm_compute. discriminate.
Defined.

Lemma read_thetas_shift (strtod : cstr -> double * nat) (p rest : list cstr) (n : nat) :
  forall j k cfg,
    read_thetas strtod (p ++ rest) n j (length p + k) cfg =
    match read_thetas strtod rest n j k cfg with
    | Ok (f, c) => Ok ((length p + f)%nat, c)
    | Exit s d => Exit s d
    end.
Proof.
  induction n as [|n IH]; intros j k cfg; cbn [read_thetas].
  - reflexivity.
  - rewrite nth_error_app2 by lia.
    replace (S (length p + k) - length p)%nat with (S k) by lia.
    destruct (nth_error rest (S k)) as [a|]; [|reflexivity].
    replace (S (length p + k)) with (length p + S k)%nat by lia.
    apply IH.
Qed.

(** The arguments before the position reached play no part in what the loop
    does next. *)
Lemma parse_loop_shift (strtod : cstr -> double * nat) (p rest : list cstr)
    (fuel : nat) :
  forall k cfg,
    parse_loop strtod fuel (p ++ rest) (length p + k) cfg
    = parse_loop strtod fuel rest k cfg.
Proof.
  induction fuel as [|fuel IH]; intros k cfg; [reflexivity|].
  rewrite !parse_loop_step. cbv zeta.
  replace (length p + k <? length (p ++ rest))%nat with (k <? length rest)%nat.
  2:{ rewrite length_app. destruct (k <? length rest)%nat eqn:E.
      - apply Nat.ltb_lt in E. symmetry. apply Nat.ltb_lt. lia.
      - apply Nat.ltb_ge in E. symmetry. apply Nat.ltb_ge. lia. }
  destruct (k <? length rest)%nat; [|reflexivity].
  rewrite app_nth2_plus.
  rewrite (nth_error_app2 p rest (n:=S (length p + k))) by lia.
  replace (S (length p + k) - length p)%nat with (S k) by lia.
  assert (E1 : forall c, parse_loop strtod fuel (p ++ rest) (S (length p + k)) c
                         = parse_loop strtod fuel rest (S k) c).
  { intros c. replace (S (length p + k)) with (length p + S k)%nat by lia. apply IH. }
  assert (E2 : forall c, parse_loop strtod fuel (p ++ rest) (S (S (length p + k))) c
                         = parse_loop strtod fuel rest (S (S k)) c).
  { intros c. replace (S (S (length p + k))) with (length p + S (S k))%nat by lia.
    apply IH. }
  destruct (Ascii.eqb (nth 0 (nth k rest []) NUL) "-"); [|apply E2].
  destruct (Ascii.eqb (nth 1 (nth k rest []) NUL) "a").
  { destruct (nth_error rest (S k)); [apply E2 | reflexivity]. }
  destruct (Ascii.eqb (nth 1 (nth k rest []) NUL) "i"); [apply E1|].
  destruct (Ascii.eqb (nth 1 (nth k rest []) NUL) "l"); [|reflexivity].
  destruct (nth_error rest (S k)) as [v|]; [|reflexivity].
  destruct (negb (linked_n (set_linked_n (atoi v) cfg) =? 1)); [|apply E2].
  replace (S (length p + k)) with (length p + S k)%nat by lia.
  rewrite read_thetas_shift.
  destruct (read_thetas strtod rest _ 0 (S k) _) as [[f c]|]; [|reflexivity].
  destruct (theta_sum_bad (theta_sum c)); [reflexivity|].
  replace (S (length p + f)) with (length p + S f)%nat by lia. apply IH.
Qed.

Lemma parse_loop_skip (strtod : cstr -> double * nat) (pre : list cstr) (a : cstr)
    (post : list cstr) (cfg : config) (fuel : nat) :
  nth 0 a NUL <> "-"%char ->
  parse_loop strtod (S fuel) (pre ++ a :: post) (length pre) cfg
  = parse_loop strtod fuel (pre ++ a :: post) (S (S (length pre))) cfg.
Proof.
  intros Ha. apply Ascii.eqb_neq in Ha. rewrite parse_loop_step.
  replace (length pre <? length (pre ++ a :: post))%nat with true
    by (symmetry; apply Nat.ltb_lt; rewrite length_app; simpl; lia).
  cbv zeta. rewrite app_nth2 by lia. rewrite Nat.sub_diag. cbn [nth].
  now rewrite Ha.
Qed.

(** X18: an argument that the loop over the arguments meets, wherever it
    stands on the command line, and that does not begin with '-' is skipped
    together with the argument after it, whatever that one is: the command
    line is read as if both were absent.  (An argument taken as the value of
    an option is not met by the loop.) *)
Theorem X18_nonoption_skips_next (strtod : cstr -> double * nat) (pre : list cstr)
    (a b : cstr) (rest : list cstr) (cfg : config) :
  nth 0 a NUL <> "-"%char ->
  (arrives strtod (pre ++ a :: b :: rest) (length pre) cfg ->
   arrives strtod (pre ++ rest) (length pre) cfg ->
   parse_args strtod (pre ++ a :: b :: rest) = parse_args strtod (pre ++ rest)) /\
  (arrives strtod (pre ++ [a]) (length pre) cfg ->
   arrives strtod pre (length pre) cfg ->
   parse_args strtod (pre ++ [a]) = parse_args strtod pre).
Proof.
  intros Ha. split.
  - intros H1 H2. unfold parse_args.
    rewrite (arrives_result strtod _ _ _ H1), (arrives_result strtod _ _ _ H2).
    rewrite !length_app. cbn [length].
    replace (length pre + S (S (length rest)))%nat
      with (S (length pre + S (length rest))) by lia.
    rewrite (parse_loop_skip strtod pre a (b :: rest) cfg _ Ha).
    pose proof (parse_loop_shift strtod (pre ++ [a; b]) rest
                  (length pre + S (length rest)) 0 cfg) as E3.
    rewrite <- app_assoc in E3. cbn [app] in E3.
    rewrite length_app in E3. cbn [length] in E3.
    replace (length pre + 2 + 0)%nat with (S (S (length pre))) in E3 by lia.
    rewrite E3.
    pose proof (parse_loop_shift strtod pre rest (length pre + length rest) 0 cfg) as E1.
    rewrite Nat.add_0_r in E1. rewrite E1.
    rewrite (parse_loop_fuel strtod rest (length pre + S (length rest))
               (length pre + length rest)) by lia.
    reflexivity.
  - intros H1 H2. unfold parse_args.
    rewrite (arrives_result strtod _ _ _ H1), (arrives_result strtod _ _ _ H2).
    rewrite length_app. cbn [length].
    replace (length pre + 1)%nat with (S (length pre)) by lia.
    rewrite (parse_loop_skip strtod pre a [] cfg _ Ha).
    destruct (length pre) as [|n] eqn:En.
    + cbn [parse_loop]. destruct pre; [reflexivity | discriminate En].
    + rewrite !parse_loop_step. rewrite length_app. cbn [length]. rewrite En.
      replace (S (S (S n)) <? S n + 1)%nat with false
        by (symmetry; apply Nat.ltb_ge; lia).
      now rewrite Nat.ltb_irrefl.
Qed.

(** After [-i], the argument [x] hides the unknown option [-q]. *)
Lemma X18_nonoption_skips_next_witness :
  parse_args strtod_ex
    ([arg "microsat"; arg "-i"] ++ arg "x" :: arg "-q" :: [arg "-a"; arg "20"])
  = parse_args strtod_ex ([arg "microsat"; arg "-i"] ++ [arg "-a"; arg "20"]).
Proof.
  apply (proj1 (X18_nonoption_skips_next strtod_ex [arg "microsat"; arg "-i"]
                  (arg "x") (arg "-q") [arg "-a"; arg "20"]
                  (set_im_flag 1 config_init) ltac:(vm_compute; discriminate))).
  - exists 1%nat. intros fuel. reflexivity.
  - exists 1%nat. intros fuel. reflexivity.
Defined.

(** ** Numbers in the input *)

Lemma uint_val_acc (d : Decimal.uint) :
  forall p, uint_val d (Z.pos p) = Z.pos (Pos.of_uint_acc d p).
Proof.
  induction d; intros p; cbn [uint_val Pos.of_uint_acc];
    try reflexivity;
    match goal with
    | |- uint_val _ ?a = Z.pos (Pos.of_uint_acc _ ?q) =>
        replace a with (Z.pos q) by lia; apply IHd
    end.
Qed.

Lemma uint_val_of_uint (d : Decimal.uint) : uint_val d 0 = Z.of_uint d.
Proof.
  unfold Z.of_uint.
  induction d; cbn [uint_val Pos.of_uint]; try reflexivity; try exact IHd;
    cbn [Z.mul Z.add]; rewrite uint_val_acc; reflexivity.
Qed.

Lemma take_digits_uint (d : Decimal.uint) (rest : cstr) :
  forall acc seen,
    take_digits (list_ascii_of_string (NilEmpty.string_of_uint d) ++ rest) acc seen
    = take_digits rest (uint_val d acc)
        (match d with Decimal.Nil => seen | _ => true end).
Proof.
  induction d; intros acc seen;
    cbn [NilEmpty.string_of_uint list_ascii_of_string app uint_val];
    try reflexivity;
    cbn [take_digits];
    match goal with
    | |- context [isdigit ?c] => change (isdigit c) with true
    end;
    cbv iota; rewrite IHd;
    match goal with
    | |- take_digits _ (uint_val _ ?a) ?s = take_digits _ (uint_val _ ?b) _ =>
        replace a with b by (vm_compute Z.of_nat; reflexivity)
    end;
    destruct d; reflexivity.
Qed.

Lemma take_digits_stop (rest : cstr) (acc : Z) (seen : bool) :
  no_digit_next rest -> take_digits rest acc seen = (acc, seen, rest).
Proof.
  destruct rest as [|c rest]; intros H; cbn [take_digits]; [reflexivity|].
  simpl in H. now rewrite H.
Qed.

Lemma take_digits_nilzero (d : Decimal.uint) (rest : cstr) :
  no_digit_next rest ->
  take_digits (list_ascii_of_string (NilZero.string_of_uint d) ++ rest) 0 false
  = (Z.of_uint d, true, rest).
Proof.
  intros Hrest. rewrite <- uint_val_of_uint.
  destruct d;
    try (unfold NilZero.string_of_uint; rewrite take_digits_uint;
         now rewrite take_digits_stop by exact Hrest).
  cbn. now rewrite take_digits_stop by exact Hrest.
Qed.

Lemma nilzero_head (d : Decimal.uint) :
  exists c s, list_ascii_of_string (NilZero.string_of_uint d) = c :: s /\
              isdigit c = true.
Proof.
  destruct d; cbn; eauto.
Qed.

Lemma isdigit_plain (c : ascii) :
  isdigit c = true ->
  isspace c = false /\ Ascii.eqb c "-" = false /\ Ascii.eqb c "+" = false.
Proof.
  intros H. split; [|split].
  - unfold isdigit, isspace in *. apply andb_prop in H. destruct H as [H1 H2].
    apply Nat.leb_le in H1. apply Nat.leb_le in H2.
    destruct (nat_of_ascii c =? 32)%nat eqn:E; [apply Nat.eqb_eq in E; lia|].
    destruct (9 <=? nat_of_ascii c)%nat eqn:E1; [|reflexivity].
    destruct (nat_of_ascii c <=? 13)%nat eqn:E2; [|reflexivity].
    apply Nat.leb_le in E2. lia.
  - destruct (Ascii.eqb c "-") eqn:E; [|reflexivity].
    apply Ascii.eqb_eq in E. subst c. discriminate H.
  - destruct (Ascii.eqb c "+") eqn:E; [|reflexivity].
    apply Ascii.eqb_eq in E. subst c. discriminate H.
Qed.

(** What [printf("%d")] writes, [%d] reads back. *)
Lemma scan_d_chars_d (v : Z) (rest : cstr) :
  in_int v -> no_digit_next rest ->
  scan_d (chars_d v ++ rest) = (Some v, rest).
Proof.
  intros Hv Hrest. pose proof (of_to v) as Hof.
  unfold chars_d, fmt_d, NilZero.string_of_int.
  destruct (Z.to_int v) as [d|d]; cbn [Z.of_int] in Hof.
  - destruct (nilzero_head d) as (c & s & Hs & Hc).
    destruct (isdigit_plain c Hc) as (Hsp & Hm & Hp).
    pose proof (take_digits_nilzero d rest Hrest) as Ht.
    unfold scan_d. rewrite Hs in *. cbn [app skip_ws]. rewrite Hsp, Hm, Hp.
    cbn [app] in Ht. rewrite Ht, Hof.
    now rewrite wrap_int_small by exact Hv.
  - pose proof (take_digits_nilzero d rest Hrest) as Ht.
    unfold scan_d. cbn [list_ascii_of_string app skip_ws].
    change (isspace "-") with false. cbv iota.
    change (Ascii.eqb "-" "-") with true. cbv iota.
    rewrite Ht. replace (- Z.of_uint d) with v by lia.
    now rewrite wrap_int_small by exact Hv.
Qed.

Lemma skip_ws_blank (ws x : cstr) : blank ws -> skip_ws (ws ++ x) = skip_ws x.
Proof.
  induction ws as [|c ws IH]; intros H; [reflexivity|].
  inversion H as [|? ? Hc Hws]; subst. cbn [app skip_ws]. rewrite Hc. now apply IH.
Qed.

Lemma skip_ws_head (c : ascii) (x : cstr) :
  isspace c = false -> skip_ws (c :: x) = c :: x.
Proof. intros H. cbn [skip_ws]. now rewrite H. Qed.

Lemma chars_d_head (v : Z) :
  exists c s, chars_d v = c :: s /\ isspace c = false.
Proof.
  unfold chars_d, fmt_d, NilZero.string_of_int.
  destruct (Z.to_int v) as [d|d].
  - destruct (nilzero_head d) as (c & s & Hs & Hc).
    exists c, s. split; [exact Hs|]. now apply isdigit_plain.
  - cbn [list_ascii_of_string]. eauto.
Qed.

Lemma scan_d_blank (ws x : cstr) : blank ws -> scan_d (ws ++ x) = scan_d x.
Proof.
  intros H. unfold scan_d. rewrite (skip_ws_blank ws x H). reflexivity.
Qed.

Lemma match_lit_app (lit r : cstr) : match_lit lit (lit ++ r) = (true, r).
Proof.
  induction lit as [|c lit IH]; [reflexivity|].
  cbn [app match_lit]. now rewrite Ascii.eqb_refl.
Qed.


Lemma scan_segsites_read (old v : Z) (ws ws' rest : cstr) :
  blank ws -> blank ws' -> in_int v -> no_digit_next rest ->
  scan_segsites old
    (ws ++ list_ascii_of_string "segsites:" ++ ws' ++ chars_d v ++ rest)
  = (v, rest).
Proof.
  intros Hws Hws' Hv Hrest. unfold scan_segsites.
  rewrite (skip_ws_blank ws _ Hws).
  assert (E : forall x, skip_ws (list_ascii_of_string "segsites:" ++ x)
                        = list_ascii_of_string "segsites:" ++ x) by reflexivity.
  rewrite E, match_lit_app, (skip_ws_blank ws' _ Hws').
  destruct (chars_d_head v) as (c & s & Hs & Hc).
  rewrite Hs. cbn [app]. rewrite (skip_ws_head c) by exact Hc.
  change (c :: s ++ rest) with ((c :: s) ++ rest). rewrite <- Hs.
  now rewrite scan_d_chars_d.
Qed.

(** X19: a count line [segsites: v], with any white space before it and
    after the colon and with [v] written as [printf("%d")] writes it, sets
    [segsites] to [v] and leaves the input just after the number. *)
Theorem X19_segsites_read (old v : Z) (ws ws' rest : cstr) :
  blank ws -> blank ws' -> in_int v -> no_digit_next rest ->
  scan_segsites old
    (ws ++ list_ascii_of_string "segsites:" ++ ws' ++ chars_d v ++ rest)
  = (v, rest).
Proof.
  exact (scan_segsites_read old v ws ws' rest).
Qed.

Lemma X19_segsites_read_witness :
  scan_segsites 7 (list_ascii_of_string (NL ++ "segsites: -12" ++ NL ++ "x")%string)
  = (-12, list_ascii_of_string (NL ++ "x")%string).
Proof.
  apply (X19_segsites_read 7 (-12) (list_ascii_of_string NL) (list_ascii_of_string " ")
           (list_ascii_of_string (NL ++ "x")%string)).
  - repeat constructor.
  - repeat constructor.
  - unfold in_int. simpl. lia.
  - reflexivity.
Defined.



(** X21: [-a v], with [v] in decimal, sets the ancestral state to [v] and
    leaves one locus with theta 1.0 and flat output. *)
Theorem X21_ancestral_option (strtod : cstr -> double * nat) (prog : cstr) (v : Z) :
  in_int v ->
  parse_args strtod [prog; list_ascii_of_string "-a"; chars_d v]
  = Ok (set_theta 0 1%float (set_ancstate v config_init)).
Proof.
  intros Hv.
  assert (Ha : atoi (chars_d v) = v).
  { unfold atoi. rewrite <- (app_nil_r (chars_d v)).
    now rewrite scan_d_chars_d by (exact Hv || exact I). }
  unfold parse_args. cbn [length]. rewrite parse_loop_step. cbv zeta.
  cbn [length nth nth_error list_ascii_of_string Nat.ltb Nat.leb].
  change (Ascii.eqb "-" "-") with true.
  change (Ascii.eqb "a" "a") with true.
  cbv iota. rewrite Ha, parse_loop_step.
  cbn [length Nat.ltb Nat.leb]. reflexivity.
Qed.

Lemma X21_ancestral_option_witness :
  parse_args strtod_ex [arg "microsat"; arg "-a"; arg "-30"]
  = Ok (set_theta 0 1%float (set_ancstate (-30) config_init)).
Proof.
  apply (X21_ancestral_option strtod_ex (arg "microsat") (-30)).
  unfold in_int. simpl. lia.
Defined.

(** ** Lines and tokens of the input *)

Lemma fgets_chars_line (l rest : cstr) :
  forall k, one_line l -> (length l < k)%nat ->
    fgets_chars k (l ++ newline :: rest) = (l ++ [newline], rest).
Proof.
  induction l as [|c l IH]; intros k Hl Hk.
  - destruct k as [|k]; [simpl in Hk; lia|]. reflexivity.
  - destruct k as [|k]; [simpl in Hk; lia|].
    inversion Hl as [|? ? Hc Hl']; subst.
    cbn [app fgets_chars].
    replace (Ascii.eqb c newline) with false by (symmetry; now apply Ascii.eqb_neq).
    rewrite IH by (simpl in Hk; assumption || lia). reflexivity.
Qed.

Lemma fgets_line (l rest : cstr) :
  one_line l -> (length l < MAX_LINE_LENGTH - 1)%nat ->
  fgets MAX_LINE_LENGTH (l ++ newline :: rest) = Some (l ++ [newline], rest).
Proof.
  intros Hl Hk. unfold fgets.
  destruct (l ++ newline :: rest) as [|c x] eqn:E; [now destruct l|].
  rewrite <- E. now rewrite fgets_chars_line.
Qed.

Lemma take_token_solid (t r : cstr) :
  solid t -> ends_token r -> take_token (t ++ r) = (t, r).
Proof.
  intros Ht Hr. induction t as [|c t IH].
  - destruct r as [|c r]; [reflexivity|]. simpl in Hr. cbn [app take_token].
    now rewrite Hr.
  - inversion Ht as [|? ? Hc Ht']; subst. cbn [app take_token].
    rewrite Hc, (IH Ht'). reflexivity.
Qed.

Lemma scan_s_token (ws t r : cstr) :
  blank ws -> t <> [] -> solid t -> ends_token r ->
  scan_s (ws ++ t ++ r) = (Some t, r).
Proof.
  intros Hws Hne Ht Hr. unfold scan_s. rewrite (skip_ws_blank ws _ Hws).
  destruct t as [|c t]; [contradiction|].
  inversion Ht as [|? ? Hc _]; subst.
  cbn [app]. rewrite (skip_ws_head c) by exact Hc.
  change (c :: t ++ r) with ((c :: t) ++ r).
  now rewrite (take_token_solid (c :: t) r Ht Hr).
Qed.

Lemma isspace_not_digit (c : ascii) : isspace c = true -> isdigit c = false.
Proof.
  intros H. destruct (isdigit c) eqn:E; [|reflexivity].
  apply isdigit_plain in E. destruct E as [E _]. congruence.
Qed.

Lemma blank_no_digit (ws x : cstr) : blank ws -> ws <> [] -> no_digit_next (ws ++ x).
Proof.
  intros H Hne. destruct ws as [|c ws]; [contradiction|].
  inversion H; subst. cbn. now apply isspace_not_digit.
Qed.

Lemma blank_ends_token (ws x : cstr) : blank ws -> ws <> [] -> ends_token (ws ++ x).
Proof.
  intros H Hne. destruct ws as [|c ws]; [contradiction|].
  inversion H; subst. assumption.
Qed.

Lemma read_header_line (tok ws1 ws2 tail seed rest : cstr) (N D : Z) :
  tok <> [] -> solid tok ->
  blank ws1 -> ws1 <> [] -> blank ws2 -> ws2 <> [] ->
  in_int N -> in_int D -> no_digit_next tail ->
  let hl := tok ++ ws1 ++ chars_d N ++ ws2 ++ chars_d D ++ tail in
  one_line hl -> (length hl < MAX_LINE_LENGTH - 1)%nat ->
  one_line seed -> (length seed < MAX_LINE_LENGTH - 1)%nat ->
  read_header (hl ++ newline :: seed ++ newline :: rest) = (N, D, rest).
Proof.
  intros Htok Hsolid Hws1 Hne1 Hws2 Hne2 HN HD Htail hl Hhl Hlen Hseed Hslen.
  unfold read_header. rewrite (fgets_line hl _ Hhl Hlen).
  unfold hl. rewrite <- !app_assoc.
  pose proof (scan_s_token [] tok
                (ws1 ++ chars_d N ++ ws2 ++ chars_d D ++ tail ++ [newline])
                (Forall_nil _) Htok Hsolid
                (blank_ends_token ws1 _ Hws1 Hne1)) as Etok.
  cbn [app] in Etok. rewrite Etok.
  rewrite (scan_d_blank ws1 _ Hws1).
  rewrite scan_d_chars_d by (exact HN || now apply blank_no_digit).
  rewrite (scan_d_blank ws2 _ Hws2).
  rewrite scan_d_chars_d.
  - now rewrite (fgets_line seed rest Hseed Hslen).
  - exact HD.
  - destruct tail as [|c tail]; [reflexivity | exact Htail].
Qed.

(** X22: a first line made of a word, the sample size and the number of
    datasets in decimal, separated by blanks and followed by anything that
    does not start with a digit, gives [nsam] and [ms_datasets]; the second
    line is dropped and reading goes on after it.  Both lines must fit in one
    [fgets] call, and the word with its terminator in the 20 characters of
    [dummy]. *)
Theorem X22_header_read (tok ws1 ws2 tail seed rest : cstr) (N D : Z) :
  tok <> [] -> solid tok -> (length tok < 20)%nat ->
  blank ws1 -> ws1 <> [] -> blank ws2 -> ws2 <> [] ->
  in_int N -> in_int D -> no_digit_next tail ->
  let hl := tok ++ ws1 ++ chars_d N ++ ws2 ++ chars_d D ++ tail in
  one_line hl -> (length hl < MAX_LINE_LENGTH - 1)%nat ->
  one_line seed -> (length seed < MAX_LINE_LENGTH - 1)%nat ->
  read_header (hl ++ newline :: seed ++ newline :: rest) = (N, D, rest).
Proof.
  intros Htok Hsolid _.
  apply (read_header_line tok ws1 ws2 tail seed rest N D Htok Hsolid).
Qed.

Lemma X22_header_read_witness :
  read_header stdin_ex =
  (3, 2,
   list_ascii_of_string
     (NL ++ "//" ++ NL ++ "segsites: 2" ++ NL ++ "positions: 0.25 0.75 " ++ NL ++
      "10" ++ NL ++ "01" ++ NL ++ "11" ++ NL ++ NL ++
      "//" ++ NL ++ "segsites: 0" ++ NL)%string).
Proof.
  apply (X22_header_read (arg "ms") (arg " ") (arg " ") (arg " -t 4.0") (arg "1 2 3")
           _ 3 2).
  - discriminate.
  - repeat constructor.
  - simpl. lia.
  - repeat constructor.
  - discriminate.
  - repeat constructor.
  - discriminate.
  - unfold in_int. simpl. lia.
  - unfold in_int. simpl. lia.
  - reflexivity.
  - repeat constructor; discriminate.
  - vm_compute. lia.
  - repeat constructor; discriminate.
  - vm_compute. lia.
Defined.

Lemma fgets_chars_bound (k : nat) :
  forall inp l r, fgets_chars k inp = (l, r) -> (length l <= k)%nat.
Proof.
  induction k as [|k IH]; intros inp l r H; simpl in H.
  - inversion H. simpl. lia.
  - destruct inp as [|c inp]; [inversion H; simpl; lia|].
    destruct (Ascii.eqb c newline); [inversion H; simpl; lia|].
    destruct (fgets_chars k inp) as [l' r'] eqn:E. inversion H; subst.
    simpl. specialize (IH _ _ _ E). lia.
Qed.

Lemma skip_to_boundary_line (inp : cstr) :
  forall line rest,
    skip_to_boundary inp = Some (line, rest) ->
    (length line <= MAX_LINE_LENGTH - 1)%nat.
Proof.
  funelim (skip_to_boundary inp); intros line0 rest0 Hres.
  - destruct (negb (Ascii.eqb (nth 0 line NUL) "/")).
    + now apply (H line0 rest0).
    + injection Hres as <- <-.
      destruct inp as [|c inp]; [discriminate e|]. unfold fgets in e.
      assert (e' : fgets_chars (MAX_LINE_LENGTH - 1) (c :: inp) = (line, rest))
        by congruence.
      exact (fgets_chars_bound _ _ _ _ e').
  - discriminate Hres.
Qed.

(** X23: when the search for the start of a dataset succeeds, the pieces
    that [fgets] cuts the input into are the pieces that were skipped, none
    of which begins with '/', then the line found, which begins with '/' and
    has at most 999 characters, then the pieces of what is left to read; put
    end to end, the skipped pieces, the line found and what is left are the
    input: nothing is lost or reordered. *)
Theorem X23_boundary_splits_input (inp line rest : cstr) :
  skip_to_boundary inp = Some (line, rest) ->
  exists skipped,
    fgets_lines inp = skipped ++ line :: fgets_lines rest /\
    inp = concat skipped ++ line ++ rest /\
    Forall no_slash skipped /\
    nth 0 line NUL = "/"%char /\
    (length line <= MAX_LINE_LENGTH - 1)%nat.
Proof.
  intros H. pose proof (skip_to_boundary_line inp line rest H) as Hlen.
  apply skip_to_boundary_some in H. destruct H as (skipped & Hl & Hs & Hc).
  exists skipped. split; [exact Hl|]. repeat split; try assumption.
  rewrite <- (fgets_lines_concat inp), Hl, concat_app. cbn [concat].
  now rewrite (fgets_lines_concat rest).
Qed.

Lemma X23_boundary_splits_input_witness :
  exists skipped,
    fgets_lines
      (list_ascii_of_string (NL ++ "x/" ++ NL ++ "//" ++ NL ++ "segsites: 0" ++ NL)%string)
    = skipped ++ list_ascii_of_string ("//" ++ NL)%string
        :: fgets_lines (list_ascii_of_string ("segsites: 0" ++ NL)%string) /\
    list_ascii_of_string (NL ++ "x/" ++ NL ++ "//" ++ NL ++ "segsites: 0" ++ NL)%string
    = concat skipped ++ list_ascii_of_string ("//" ++ NL)%string
        ++ list_ascii_of_string ("segsites: 0" ++ NL)%string /\
    Forall no_slash skipped /\
    nth 0 (list_ascii_of_string ("//" ++ NL)%string) NUL = "/"%char /\
    (length (list_ascii_of_string ("//" ++ NL)%string) <= MAX_LINE_LENGTH - 1)%nat.
Proof.
  apply (X23_boundary_splits_input
           (list_ascii_of_string
              (NL ++ "x/" ++ NL ++ "//" ++ NL ++ "segsites: 0" ++ NL)%string)).
  vm_compute. reflexivity.
Defined.

(** ** Reading a sample *)

Lemma skipn_length_app {A : Type} (p y : list A) : skipn (length p) (p ++ y) = y.
Proof. induction p as [|a p IH]; [reflexivity | exact IH]. Qed.

Lemma spaced_ends_token (l : list (cstr * cstr)) (tail : cstr) :
  well_spaced l -> ends_token tail -> ends_token (spaced l ++ tail).
Proof.
  intros Hl Ht. destruct l as [|[w t] l]; [exact Ht|].
  inversion Hl as [|? ? (Hb & Hne & _) _]; subst. cbn [fst snd] in *.
  unfold spaced. cbn [flat_map fst snd]. rewrite <- !app_assoc.
  now apply blank_ends_token.
Qed.

Lemma scan_lf_token (strtod : cstr -> double * nat) (w p y : cstr) :
  blank w -> solid p -> p <> [] ->
  snd (strtod (p ++ y)) = length p ->
  snd (scan_lf strtod (w ++ p ++ y)) = y.
Proof.
  intros Hw Hp Hne Hs. unfold scan_lf. rewrite (skip_ws_blank w _ Hw).
  destruct p as [|c p]; [contradiction|].
  inversion Hp as [|? ? Hc _]; subst.
  cbn [app]. rewrite (skip_ws_head c) by exact Hc.
  change (c :: p ++ y) with ((c :: p) ++ y) in *.
  destruct (strtod ((c :: p) ++ y)) as [x n]. cbn [snd] in Hs. subst n.
  cbn [length snd]. apply (skipn_length_app (c :: p) y).
Qed.

Lemma positions_loop (strtod : cstr -> double * nat) (ps : list (cstr * cstr)) :
  forall (i : nat) (y : cstr),
    well_spaced ps -> ends_token y ->
    (forall p r, In p ps -> ends_token r ->
       snd (strtod (snd p ++ r)) = length (snd p)) ->
    for_loop (length ps) i (fun _ inp => snd (scan_lf strtod inp)) (spaced ps ++ y) = y.
Proof.
  induction ps as [|[w p] ps IH]; intros i y Hps Hy Hs; [reflexivity|].
  inversion Hps as [|? ? (Hb & _ & Hso & Hne) Hps']; subst. cbn [fst snd] in *.
  cbn [length for_loop]. unfold spaced. cbn [flat_map fst snd].
  rewrite <- !app_assoc.
  rewrite (scan_lf_token strtod w p _ Hb Hso Hne)
    by (apply (Hs (w, p)); [now left | now apply spaced_ends_token]).
  apply IH; [exact Hps' | exact Hy |]. intros q r Hq. apply Hs. now right.
Qed.

Lemma haplotypes_loop (hs : list (cstr * cstr)) :
  forall (i : nat) (l : list cstr) (tail : cstr),
    well_spaced hs -> ends_token tail ->
    for_loop (length hs) i
      (fun i (st : list cstr * cstr) =>
         let (l, inp) := st in
         let (t, inp) := scan_s inp in
         (match t with
          | Some t => set_nth i (write_str t (nth i l [])) l
          | None => l
          end, inp))
      (l, spaced hs ++ tail)
    = (store_rows i (map snd hs) l, tail).
Proof.
  induction hs as [|[w h] hs IH]; intros i l tail Hhs Ht; [reflexivity|].
  inversion Hhs as [|? ? (Hb & _ & Hso & Hne) Hhs']; subst. cbn [fst snd] in *.
  cbn [length for_loop map store_rows snd]. unfold spaced. cbn [flat_map fst snd].
  rewrite <- !app_assoc.
  rewrite (scan_s_token w h _ Hb Hne Hso) by (now apply spaced_ends_token).
  now apply IH.
Qed.

Lemma store_rows_length (toks : list cstr) :
  forall i l, length (store_rows i toks l) = length l.
Proof.
  induction toks as [|t ts IH]; intros i l; cbn [store_rows]; [reflexivity|].
  now rewrite IH, set_nth_length.
Qed.

Lemma store_rows_below (toks : list cstr) :
  forall i l j, (j < i)%nat -> nth j (store_rows i toks l) [] = nth j l [].
Proof.
  induction toks as [|t ts IH]; intros i l j Hj; cbn [store_rows]; [reflexivity|].
  rewrite IH by lia. apply nth_set_nth_neq. lia.
Qed.

Lemma store_rows_nth (toks : list cstr) :
  forall i l k,
    (k < length toks)%nat -> (i + length toks <= length l)%nat ->
    nth (i + k) (store_rows i toks l) []
    = write_str (nth k toks []) (nth (i + k) l []).
Proof.
  induction toks as [|t ts IH]; intros i l k Hk Hl; [simpl in Hk; lia|].
  cbn [store_rows length] in *. destruct k as [|k].
  - rewrite Nat.add_0_r, store_rows_below by lia.
    cbn [nth]. apply nth_set_nth_eq. lia.
  - replace (i + S k)%nat with (S i + k)%nat by lia.
    rewrite IH by (rewrite ?set_nth_length; lia).
    cbn [nth]. rewrite nth_set_nth_neq by lia. reflexivity.
Qed.

Lemma write_str_nth (t buf : cstr) (i : nat) :
  (i <= length t)%nat -> (S (length t) <= length buf)%nat ->
  nth i (write_str t buf) NUL = nth i (t ++ [NUL]) NUL.
Proof.
  intros Hi Hb. unfold write_str. rewrite nth_firstn.
  replace (i <? length buf)%nat with true by (symmetry; apply Nat.ltb_lt; lia).
  change (t ++ NUL :: skipn (S (length t)) buf)
    with (t ++ [NUL] ++ skipn (S (length t)) buf).
  rewrite app_assoc. apply app_nth1. rewrite length_app. simpl. lia.
Qed.

(** [strtod_dec] uses up a plain decimal that is followed by white space
    or by nothing. *)
Lemma span_digits_app (ds r : cstr) :
  Forall (fun c => isdigit c = true) ds -> no_digit_next r ->
  span_digits (ds ++ r) = (ds, r).
Proof.
  intros Hds Hr. induction Hds as [|c ds Hc _ IH]; cbn [app span_digits].
  - destruct r as [|c r]; [reflexivity|]. cbn in Hr. cbn [span_digits]. now rewrite Hr.
  - now rewrite Hc, IH.
Qed.

Lemma isdigit_not_sign (c : ascii) :
  isdigit c = true ->
  Ascii.eqb c "-" = false /\ Ascii.eqb c "+" = false /\ Ascii.eqb c "." = false.
Proof.
  intros H. repeat split; apply Ascii.eqb_neq; intros ->; discriminate H.
Qed.

Lemma isspace_not_dot (c : ascii) : isspace c = true -> Ascii.eqb c "." = false.
Proof.
  intros H. apply Ascii.eqb_neq. intros ->. discriminate H.
Qed.

Lemma strtod_dec_decimal (ip fp r : cstr) :
  Forall (fun c => isdigit c = true) ip -> ip <> [] ->
  Forall (fun c => isdigit c = true) fp ->
  ends_token r ->
  snd (strtod_dec (ip ++ "."%char :: fp ++ r)) = length (ip ++ "."%char :: fp).
Proof.
  intros Hip Hne Hfp Hr.
  assert (Hnd : no_digit_next r).
  { destruct r as [|c r]; [exact I|]. cbn in *. now apply isspace_not_digit. }
  unfold strtod_dec.
  destruct ip as [|c ip]; [contradiction|].
  inversion Hip as [|? ? Hc Hip']; subst.
  destruct (isdigit_not_sign c Hc) as (Hm & Hp & _).
  cbn [app]. rewrite Hm, Hp.
  change (c :: ip ++ "."%char :: fp ++ r) with ((c :: ip) ++ "."%char :: fp ++ r).
  rewrite (span_digits_app (c :: ip) ("."%char :: fp ++ r) Hip) by reflexivity.
  change (Ascii.eqb "." ".") with true. cbv iota.
  rewrite (span_digits_app fp r Hfp Hnd). cbn [fst app].
  cbn [snd length]. rewrite length_app. cbn [length]. lia.
Qed.

(** X24: for a dataset with sites whose sample is a first token (not one
    with 'r' as second character, and fitting the 100 characters of [astr]),
    then one number per site and one haplotype per individual, all separated
    by white space, where [strtod] uses up each number whole when white
    space or the end of the input follows it, and every haplotype with its
    terminator fits its buffer: the first token is left in [astr],
    [list[ind]] holds the haplotype of individual [ind] character by
    character, followed by NUL, and the input is left just after the last
    haplotype. *)
Theorem X24_sample_read (strtod : cstr -> double * nat) (nsam segsites : Z)
    (astr : cstr) (list_ : list cstr) (ws0 first : cstr)
    (ps hs : list (cstr * cstr)) (tail : cstr) :
  0 < segsites ->
  blank ws0 -> first <> [] -> solid first -> (length first < 100)%nat ->
  nth 1 first NUL <> "r"%char ->
  well_spaced ps -> length ps = Z.to_nat segsites ->
  (forall p r, In p ps -> ends_token r ->
     snd (strtod (snd p ++ r)) = length (snd p)) ->
  well_spaced hs -> length hs = Z.to_nat nsam -> length list_ = Z.to_nat nsam ->
  ends_token tail ->
  (forall ind, (ind < Z.to_nat nsam)%nat ->
     (S (length (nth ind (map snd hs) [])) <= length (nth ind list_ []))%nat) ->
  let '(astr', list', inp') :=
    read_sample strtod nsam segsites astr list_
      (ws0 ++ first ++ spaced ps ++ spaced hs ++ tail) in
  astr' = first /\ inp' = tail /\
  forall ind i,
    (ind < Z.to_nat nsam)%nat -> (i <= length (nth ind (map snd hs) []))%nat ->
    hap list' ind i = nth i (nth ind (map snd hs) [] ++ [NUL]) NUL.
Proof.
  intros HS Hws0 Hne Hsolid _ Hr Hps Hlps Hstrtod Hhs Hlhs Hll Htail Hfit.
  unfold read_sample.
  replace (segsites >? 0) with true by (symmetry; apply Z.gtb_lt; lia).
  rewrite (scan_s_token ws0 first _ Hws0 Hne Hsolid).
  2:{ destruct ps as [|[w p] ps]; [simpl in Hlps; lia|].
      apply (spaced_ends_token ((w, p) :: ps)); [exact Hps|].
      now apply spaced_ends_token. }
  replace (Ascii.eqb (nth 1 first NUL) "r") with false
    by (symmetry; now apply Ascii.eqb_neq).
  unfold for_upto.
  rewrite <- Hlps, positions_loop by (try assumption; now apply spaced_ends_token).
  rewrite <- Hlhs, haplotypes_loop by assumption.
  split; [reflexivity|]. split; [reflexivity|].
  intros ind i Hind Hi. unfold hap.
  pose proof (store_rows_nth (map snd hs) 0 list_ ind) as Hrow.
  cbn [Nat.add] in Hrow. rewrite length_map in Hrow.
  transitivity (nth i (write_str (nth ind (map snd hs) []) (nth ind list_ [])) NUL).
  - f_equal. apply Hrow; lia.
  - apply write_str_nth; [exact Hi|]. apply Hfit. lia.
Qed.

Lemma X24_sample_read_witness :
  let '(astr', list', inp') :=
    read_sample strtod_dec 3 2 [] (list_ buffers_ex) sample_ex in
  astr' = arg "positions:" /\ inp' = list_ascii_of_string NL /\
  forall ind i,
    (ind < Z.to_nat 3)%nat ->
    (i <= length (nth ind (map snd
                     [(arg NL, arg "10"); (arg NL, arg "01"); (arg NL, arg "11")]) []))%nat ->
    hap list' ind i
    = nth i (nth ind (map snd
                [(arg NL, arg "10"); (arg NL, arg "01"); (arg NL, arg "11")]) []
             ++ [NUL]) NUL.
Proof.
  apply (X24_sample_read strtod_dec 3 2 [] (list_ buffers_ex)
           (list_ascii_of_string NL) (arg "positions:")
           [(arg " ", arg "0.25"); (arg " ", arg "0.75")]
           [(list_ascii_of_string (" " ++ NL), arg "10"); (arg NL, arg "01");
            (arg NL, arg "11")]
           (list_ascii_of_string NL)).
  - lia.
  - repeat constructor.
  - discriminate.
  - repeat constructor.
  - simpl. lia.
  - discriminate.
  - repeat constructor; discriminate.
  - reflexivity.
  - intros p r [<-|[<-|[]]] Hr;
      [apply (strtod_dec_decimal (arg "0") (arg "25") r)
      |apply (strtod_dec_decimal (arg "0") (arg "75") r)];
      try exact Hr; try discriminate; repeat constructor.
  - repeat constructor; discriminate.
  - reflexivity.
  - vm_compute. reflexivity.
  - reflexivity.
  - intros ind Hind. change (Z.to_nat 3) with 3%nat in Hind.
    destruct ind as [|[|[|ind]]]; [vm_compute; lia | vm_compute; lia | vm_compute; lia | lia].
Defined.

(** X25: when the second character of the first token (which fits the 100
    characters of [astr]) is 'r', as in [prob:], one number and one further
    token are used up before the site numbers; the haplotypes are then
    stored as in the plain case, [strtod] using up each number whole when
    white space follows it. *)
Theorem X25_sample_read_annotated (strtod : cstr -> double * nat) (nsam segsites : Z)
    (astr : cstr) (list_ : list cstr) (ws0 first wq q wt t : cstr)
    (ps hs : list (cstr * cstr)) (tail : cstr) :
  0 < segsites ->
  blank ws0 -> first <> [] -> solid first -> (length first < 100)%nat ->
  nth 1 first NUL = "r"%char ->
  blank wq -> wq <> [] -> solid q -> q <> [] ->
  (forall r, ends_token r -> snd (strtod (q ++ r)) = length q) ->
  blank wt -> wt <> [] -> solid t -> t <> [] ->
  well_spaced ps -> length ps = Z.to_nat segsites ->
  (forall p r, In p ps -> ends_token r ->
     snd (strtod (snd p ++ r)) = length (snd p)) ->
  well_spaced hs -> length hs = Z.to_nat nsam -> length list_ = Z.to_nat nsam ->
  ends_token tail ->
  (forall ind, (ind < Z.to_nat nsam)%nat ->
     (S (length (nth ind (map snd hs) [])) <= length (nth ind list_ []))%nat) ->
  let '(astr', list', inp') :=
    read_sample strtod nsam segsites astr list_
      (ws0 ++ first ++ wq ++ q ++ wt ++ t ++ spaced ps ++ spaced hs ++ tail) in
  astr' = first /\ inp' = tail /\
  forall ind i,
    (ind < Z.to_nat nsam)%nat -> (i <= length (nth ind (map snd hs) []))%nat ->
    hap list' ind i = nth i (nth ind (map snd hs) [] ++ [NUL]) NUL.
Proof.
  intros HS Hws0 Hne Hsolid _ Hr Hwq Hwqne Hq Hqne Hqs Hwt Hwtne Ht Htne
         Hps Hlps Hstrtod Hhs Hlhs Hll Htail Hfit.
  assert (Hends : ends_token (spaced ps ++ spaced hs ++ tail)).
  { destruct ps as [|[w p] ps]; [simpl in Hlps; lia|].
    apply (spaced_ends_token ((w, p) :: ps)); [exact Hps|].
    now apply spaced_ends_token. }
  unfold read_sample.
  replace (segsites >? 0) with true by (symmetry; apply Z.gtb_lt; lia).
  rewrite (scan_s_token ws0 first _ Hws0 Hne Hsolid) by (now apply blank_ends_token).
  rewrite Hr. change (Ascii.eqb "r" "r") with true. cbv iota.
  rewrite (scan_lf_token strtod wq q _ Hwq Hq Hqne)
    by (apply Hqs; now apply blank_ends_token).
  rewrite (scan_s_token wt t _ Hwt Htne Ht Hends). cbn [snd].
  unfold for_upto.
  rewrite <- Hlps, positions_loop by (try assumption; now apply spaced_ends_token).
  rewrite <- Hlhs, haplotypes_loop by assumption.
  split; [reflexivity|]. split; [reflexivity|].
  intros ind i Hind Hi. unfold hap.
  pose proof (store_rows_nth (map snd hs) 0 list_ ind) as Hrow.
  cbn [Nat.add] in Hrow. rewrite length_map in Hrow.
  transitivity (nth i (write_str (nth ind (map snd hs) []) (nth ind list_ [])) NUL).
  - f_equal. apply Hrow; lia.
  - apply write_str_nth; [exact Hi|]. apply Hfit. lia.
Qed.

Lemma X25_sample_read_annotated_witness :
  let '(astr', list', inp') :=
    read_sample strtod_dec 3 2 [] (list_ buffers_ex) sample_prob_ex in
  astr' = arg "prob:" /\ inp' = list_ascii_of_string NL /\
  forall ind i,
    (ind < Z.to_nat 3)%nat ->
    (i <= length (nth ind (map snd
                     [(arg NL, arg "10"); (arg NL, arg "01"); (arg NL, arg "11")]) []))%nat ->
    hap list' ind i
    = nth i (nth ind (map snd
                [(arg NL, arg "10"); (arg NL, arg "01"); (arg NL, arg "11")]) []
             ++ [NUL]) NUL.
Proof.
  apply (X25_sample_read_annotated strtod_dec 3 2 [] (list_ buffers_ex)
           (list_ascii_of_string NL) (arg "prob:") (arg " ") (arg "0.5")
           (list_ascii_of_string NL) (arg "positions:")
           [(arg " ", arg "0.25"); (arg " ", arg "0.75")]
           [(list_ascii_of_string (" " ++ NL), arg "10"); (arg NL, arg "01");
            (arg NL, arg "11")]
           (list_ascii_of_string NL)).
  - lia.
  - repeat constructor.
  - discriminate.
  - repeat constructor.
  - simpl. lia.
  - reflexivity.
  - repeat constructor.
  - discriminate.
  - repeat constructor.
  - discriminate.
  - intros r Hr. apply (strtod_dec_decimal (arg "0") (arg "5") r);
      try exact Hr; try discriminate; repeat constructor.
  - repeat constructor.
  - discriminate.
  - repeat constructor.
  - discriminate.
  - repeat constructor; discriminate.
  - reflexivity.
  - intros p r [<-|[<-|[]]] Hr;
      [apply (strtod_dec_decimal (arg "0") (arg "25") r)
      |apply (strtod_dec_decimal (arg "0") (arg "75") r)];
      try exact Hr; try discriminate; repeat constructor.
  - repeat constructor; discriminate.
  - reflexivity.
  - vm_compute. reflexivity.
  - reflexivity.
  - intros ind Hind. change (Z.to_nat 3) with 3%nat in Hind.
    destruct ind as [|[|[|ind]]]; [vm_compute; lia | vm_compute; lia | vm_compute; lia | lia].
Defined.

(** ** A whole dataset, from the input to the output *)

Lemma skip_to_boundary_found (skipped : list cstr) (bl rest : cstr) :
  Forall (fun l => short_line l /\ nth 0 l NUL <> "/"%char) skipped ->
  short_line bl -> nth 0 bl NUL = "/"%char ->
  skip_to_boundary (lines skipped ++ bl ++ newline :: rest)
  = Some (bl ++ [newline], rest).
Proof.
  intros Hs [Hbl Hlen] Hslash.
  induction Hs as [|l ls [[Hl Hll] Hno] _ IH]; cbn [lines flat_map app].
  - rewrite skip_to_boundary_eq, (fgets_line bl rest Hbl Hlen).
    destruct bl as [|c bl]; [discriminate Hslash|].
    cbn [app nth] in *. rewrite Hslash. reflexivity.
  - rewrite skip_to_boundary_eq. rewrite <- !app_assoc. cbn [app].
    rewrite (fgets_line l _ Hl Hll).
    replace (Ascii.eqb (nth 0 (l ++ [newline]) NUL) "/") with false.
    + exact IH.
    + symmetry. apply Ascii.eqb_neq. destruct l as [|c l]; [discriminate|exact Hno].
Qed.

(** X26: when the input starts with lines that each fit one [fgets] call
    and do not begin with '/', followed by such a line that does begin with
    '/', the search for the start of a dataset stops at that line and leaves
    the input just after its newline. *)
Theorem X26_boundary_found (skipped : list cstr) (bl rest : cstr) :
  Forall (fun l => short_line l /\ nth 0 l NUL <> "/"%char) skipped ->
  short_line bl -> nth 0 bl NUL = "/"%char ->
  skip_to_boundary (lines skipped ++ bl ++ newline :: rest)
  = Some (bl ++ [newline], rest).
Proof.
  apply skip_to_boundary_found.
Qed.

Lemma X26_boundary_found_witness :
  skip_to_boundary
    (lines [arg "ms 3 1"; arg ""] ++ arg "//" ++ newline :: arg "segsites: 0")
  = Some (arg "//" ++ [newline], arg "segsites: 0").
Proof.
  apply (X26_boundary_found [arg "ms 3 1"; arg ""] (arg "//") (arg "segsites: 0")).
  - repeat constructor; try discriminate; vm_compute; lia.
  - split; [repeat constructor; discriminate | vm_compute; lia].
  - reflexivity.
Defined.

Lemma apply_step_ext (nsam : Z) (l1 l2 : list cstr) (i k : nat) (step : Z)
    (nrep : matrix) :
  (forall ind, (ind < Z.to_nat nsam)%nat -> hap l1 ind i = hap l2 ind i) ->
  apply_step nsam l1 i k step nrep = apply_step nsam l2 i k step nrep.
Proof.
  intros H. unfold apply_step, for_upto. apply for_loop_ext.
  intros ind m Hind. rewrite (H ind) by lia. reflexivity.
Qed.

Lemma mutate_ext (cfg : config) (nsam segsites : Z) (l1 l2 : list cstr) (g : rng) :
  (forall ind i, (ind < Z.to_nat nsam)%nat -> (i < Z.to_nat segsites)%nat ->
     hap l1 ind i = hap l2 ind i) ->
  mutate cfg nsam segsites l1 g = mutate cfg nsam segsites l2 g.
Proof.
  intros H. unfold mutate, for_upto. apply for_loop_ext.
  intros i [nrep g'] Hi. unfold site_body.
  destruct (ran1 g') as [d g1]. destruct (ran1 g1) as [random g2].
  f_equal. apply apply_step_ext. intros ind Hind. apply H; lia.
Qed.

(** X27: the engine reads the haplotype buffers only at the first
    [segsites] characters of the first [nsam] rows: whatever else the
    buffers hold, such as the terminator or characters left from a longer
    dataset read before, has no effect on the lengths or on the generator. *)
Theorem X27_engine_reads_block (cfg : config) (nsam segsites : Z)
    (l1 l2 : list cstr) (g : rng) :
  (forall ind i, (ind < Z.to_nat nsam)%nat -> (i < Z.to_nat segsites)%nat ->
     hap l1 ind i = hap l2 ind i) ->
  mutate cfg nsam segsites l1 g = mutate cfg nsam segsites l2 g.
Proof.
  apply mutate_ext.
Qed.

Lemma X27_engine_reads_block_witness :
  mutate cfg_im 3 2 rows_ex gen_ex = mutate cfg_im 3 2 rows_stale gen_ex.
Proof.
  apply (X27_engine_reads_block cfg_im 3 2 rows_ex rows_stale gen_ex).
  intros ind i Hind Hi.
  change (Z.to_nat 3) with 3%nat in Hind. change (Z.to_nat 2) with 2%nat in Hi.
  destruct ind as [|[|[|ind]]]; [| | |lia];
    (destruct i as [|[|i]]; [reflexivity|reflexivity|lia]).
Defined.

Lemma read_sample_plain (strtod : cstr -> double * nat) (nsam segsites : Z)
    (astr : cstr) (list_ : list cstr) (ws0 first : cstr)
    (ps hs : list (cstr * cstr)) (tail : cstr) :
  0 < segsites ->
  blank ws0 -> first <> [] -> solid first -> nth 1 first NUL <> "r"%char ->
  well_spaced ps -> length ps = Z.to_nat segsites ->
  (forall p r, In p ps -> ends_token r ->
     snd (strtod (snd p ++ r)) = length (snd p)) ->
  well_spaced hs -> length hs = Z.to_nat nsam ->
  ends_token tail ->
  read_sample strtod nsam segsites astr list_
    (ws0 ++ first ++ spaced ps ++ spaced hs ++ tail)
  = (first, store_rows 0 (map snd hs) list_, tail).
Proof.
  intros HS Hws0 Hne Hsolid Hr Hps Hlps Hstrtod Hhs Hlhs Htail.
  unfold read_sample.
  replace (segsites >? 0) with true by (symmetry; apply Z.gtb_lt; lia).
  rewrite (scan_s_token ws0 first _ Hws0 Hne Hsolid).
  2:{ destruct ps as [|[w p] ps]; [simpl in Hlps; lia|].
      apply (spaced_ends_token ((w, p) :: ps)); [exact Hps|].
      now apply spaced_ends_token. }
  replace (Ascii.eqb (nth 1 first NUL) "r") with false
    by (symmetry; now apply Ascii.eqb_neq).
  unfold for_upto.
  rewrite <- Hlps, positions_loop by (try assumption; now apply spaced_ends_token).
  rewrite <- Hlhs, haplotypes_loop by assumption.
  reflexivity.
Qed.

Lemma store_rows_hap (rows l : list cstr) (n ind i : nat) :
  length l = length rows ->
  Forall (fun r => length r = n) rows ->
  Forall (fun buf => (S n <= length buf)%nat) l ->
  (ind < length rows)%nat -> (i < n)%nat ->
  hap (store_rows 0 rows l) ind i = hap rows ind i.
Proof.
  intros Hl Hrows Hcap Hind Hi. unfold hap.
  pose proof (store_rows_nth rows 0 l ind) as Hrow. cbn [Nat.add] in Hrow.
  assert (Hlen : length (nth ind rows []) = n).
  { rewrite Forall_forall in Hrows. apply Hrows. now apply nth_In. }
  assert (Hbuf : (S n <= length (nth ind l []))%nat).
  { rewrite Forall_forall in Hcap. apply Hcap. apply nth_In. lia. }
  transitivity (nth i (write_str (nth ind rows []) (nth ind l [])) NUL).
  - f_equal. apply Hrow; lia.
  - assert (Hi' : (i < length (nth ind rows []))%nat) by (rewrite Hlen; exact Hi).
    rewrite write_str_nth.
    + apply app_nth1. exact Hi'.
    + apply Nat.lt_le_incl. exact Hi'.
    + rewrite Hlen. exact Hbuf.
Qed.

Lemma process_dataset_wellformed (strtod : cstr -> double * nat) (cfg : config)
    (nsam : Z) (st : state) (skipped : list cstr) (bl ws ws' : cstr) (v : Z)
    (ws0 first : cstr) (ps hs : list (cstr * cstr)) (tail : cstr) (b : buffers) :
  Forall (fun l => short_line l /\ nth 0 l NUL <> "/"%char) skipped ->
  short_line bl -> nth 0 bl NUL = "/"%char ->
  blank ws -> blank ws' -> 0 < v -> in_int v ->
  blank ws0 -> ws0 <> [] -> first <> [] -> solid first ->
  nth 1 first NUL <> "r"%char ->
  well_spaced ps -> length ps = Z.to_nat v ->
  (forall p r, In p ps -> ends_token r ->
     snd (strtod (snd p ++ r)) = length (snd p)) ->
  well_spaced hs -> length hs = Z.to_nat nsam ->
  Forall (fun h => length (snd h) = Z.to_nat v) hs ->
  ends_token tail ->
  length (list_ (bufs st)) = Z.to_nat nsam ->
  capacity_ge (v + 1) (bufs st) ->
  grow (bufs st) v = Ok b ->
  pfin st = lines skipped ++ bl ++ newline ::
            ws ++ list_ascii_of_string "segsites:" ++ ws' ++ chars_d v ++
            ws0 ++ first ++ spaced ps ++ spaced hs ++ tail ->
  exists st',
    process_dataset strtod cfg nsam st = Ok st' /\
    segsites st' = v /\ astr st' = first /\ pfin st' = tail /\
    gen st' = mkRng (draws (gen st)) (cursor (gen st) + 2 * Z.to_nat v) /\
    out st' = print_dataset cfg nsam
                (fst (mutate cfg nsam v (map snd hs) (gen st))) (out st).
Proof.
  intros Hsk Hbl Hslash Hws Hws' Hv Hint Hws0 Hws0ne Hne Hsolid Hr Hps Hlps Hstrtod
         Hhs Hlhs Hrows Htail Hll Hcap Hgrow Hpfin.
  unfold process_dataset. rewrite Hpfin.
  rewrite (skip_to_boundary_found skipped bl _ Hsk Hbl Hslash).
  rewrite (scan_segsites_read (segsites st) v ws ws' _ Hws Hws' Hint)
    by (now apply blank_no_digit).
  rewrite Hgrow, (grow_list _ _ _ Hgrow).
  rewrite (read_sample_plain strtod nsam v (astr st) (list_ (bufs st)) ws0 first
             ps hs tail) by assumption.
  assert (Hm : mutate cfg nsam v (store_rows 0 (map snd hs) (list_ (bufs st))) (gen st)
               = mutate cfg nsam v (map snd hs) (gen st)).
  { apply mutate_ext. intros ind i Hind Hi.
    apply (store_rows_hap (map snd hs) (list_ (bufs st)) (Z.to_nat v)).
    - rewrite length_map. congruence.
    - rewrite Forall_map. exact Hrows.
    - unfold capacity_ge in Hcap. eapply Forall_impl; [|exact Hcap].
      cbv beta. intros buf Hb. lia.
    - rewrite length_map. lia.
    - exact Hi. }
  rewrite Hm. rewrite mutate_eq. cbn [fst].
  eexists. split; [reflexivity|]. cbn [segsites astr pfin gen out].
  repeat split; reflexivity.
Qed.

(** X28: a dataset as [ms] writes it, within the limits of the reader, goes
    through the reader, the engine and the formatter as one.  With at least
    one individual and one locus: after any lines that do not begin with
    '/', a line that does, the count line [segsites: v] with [v > 0], a
    first token (not one with 'r' as second character, and fitting [astr]),
    [v] numbers, each used up whole by [strtod] when white space follows it,
    and [nsam] haplotypes of [v] characters each, when every haplotype
    buffer holds at least [v + 1] characters and the allocator grants the
    growth of [posit] where [v] asks for it, the iteration succeeds, leaves
    the input just after the last haplotype, has used exactly [2 v] draws,
    and has appended to the output the lengths that the engine computes
    from the haplotypes as they stand in the input. *)
Theorem X28_dataset_processed (strtod : cstr -> double * nat) (cfg : config)
    (nsam : Z) (st : state) (skipped : list cstr) (bl ws ws' : cstr) (v : Z)
    (ws0 first : cstr) (ps hs : list (cstr * cstr)) (tail : cstr) (b : buffers) :
  0 < nsam -> 0 < linked_n cfg ->
  Forall (fun l => short_line l /\ nth 0 l NUL <> "/"%char) skipped ->
  short_line bl -> nth 0 bl NUL = "/"%char ->
  blank ws -> blank ws' -> 0 < v -> in_int v ->
  blank ws0 -> ws0 <> [] -> first <> [] -> solid first ->
  (length first < 100)%nat -> nth 1 first NUL <> "r"%char ->
  well_spaced ps -> length ps = Z.to_nat v ->
  (forall p r, In p ps -> ends_token r ->
     snd (strtod (snd p ++ r)) = length (snd p)) ->
  well_spaced hs -> length hs = Z.to_nat nsam ->
  Forall (fun h => length (snd h) = Z.to_nat v) hs ->
  ends_token tail ->
  length (list_ (bufs st)) = Z.to_nat nsam ->
  capacity_ge (v + 1) (bufs st) ->
  grow (bufs st) v = Ok b ->
  pfin st = lines skipped ++ bl ++ newline ::
            ws ++ list_ascii_of_string "segsites:" ++ ws' ++ chars_d v ++
            ws0 ++ first ++ spaced ps ++ spaced hs ++ tail ->
  exists st',
    process_dataset strtod cfg nsam st = Ok st' /\
    segsites st' = v /\ astr st' = first /\ pfin st' = tail /\
    gen st' = mkRng (draws (gen st)) (cursor (gen st) + 2 * Z.to_nat v) /\
    out st' = print_dataset cfg nsam
                (fst (mutate cfg nsam v (map snd hs) (gen st))) (out st).
Proof.
  intros _ _ Hsk Hbl Hslash Hws Hws' Hv Hint Hws0 Hws0ne Hne Hsolid _.
  apply (process_dataset_wellformed strtod cfg nsam st skipped bl ws ws' v ws0 first
           ps hs tail b Hsk Hbl Hslash Hws Hws' Hv Hint Hws0 Hws0ne Hne Hsolid).
Qed.

Lemma X28_dataset_processed_witness :
  exists st',
    process_dataset strtod_dec cfg_ex 3 (state0_ex dataset_ex) = Ok st' /\
    segsites st' = 2 /\ astr st' = arg "positions:" /\
    pfin st' = list_ascii_of_string
                 (NL ++ NL ++ "//" ++ NL ++ "segsites: 0" ++ NL)%string /\
    gen st' = mkRng (draws (gen (state0_ex dataset_ex)))
                (cursor (gen (state0_ex dataset_ex)) + 2 * Z.to_nat 2) /\
    out st' = print_dataset cfg_ex 3
                (fst (mutate cfg_ex 3 2
                        (map snd [(list_ascii_of_string (" " ++ NL), arg "10");
                                  (list_ascii_of_string NL, arg "01");
                                  (list_ascii_of_string NL, arg "11")])
                        (gen (state0_ex dataset_ex))))
                (out (state0_ex dataset_ex)).
Proof.
  apply (X28_dataset_processed strtod_dec cfg_ex 3 (state0_ex dataset_ex)
           [arg ""] (arg "//") [] (arg " ") 2 (list_ascii_of_string NL)
           (arg "positions:")
           [(arg " ", arg "0.25"); (arg " ", arg "0.75")]
           [(list_ascii_of_string (" " ++ NL), arg "10");
            (list_ascii_of_string NL, arg "01");
            (list_ascii_of_string NL, arg "11")]
           (list_ascii_of_string (NL ++ NL ++ "//" ++ NL ++ "segsites: 0" ++ NL)%string)
           buffers_ex).
  - lia.
  - simpl. lia.
  - repeat constructor; try discriminate; vm_compute; lia.
  - split; [repeat constructor; discriminate | vm_compute; lia].
  - reflexivity.
  - constructor.
  - repeat constructor.
  - lia.
  - unfold in_int. simpl. lia.
  - repeat constructor.
  - discriminate.
  - discriminate.
  - repeat constructor.
  - simpl. lia.
  - vm_compute. discriminate.
  - repeat constructor; discriminate.
  - reflexivity.
  - intros p r [<-|[<-|[]]] Hr;
      [apply (strtod_dec_decimal (arg "0") (arg "25") r)
      |apply (strtod_dec_decimal (arg "0") (arg "75") r)];
      try exact Hr; try discriminate; repeat constructor.
  - repeat constructor; discriminate.
  - reflexivity.
  - repeat constructor.
  - reflexivity.
  - vm_compute. reflexivity.
  - unfold capacity_ge. repeat constructor; vm_compute; discriminate.
  - reflexivity.
  - reflexivity.
Defined.

(** ** A whole run *)

Lemma ends_token_no_digit (r : cstr) : ends_token r -> no_digit_next r.
Proof.
  destruct r as [|c r]; [trivial|]. cbn. apply isspace_not_digit.
Qed.

Lemma datasets_text_ends (strtod : cstr -> double * nat) (nsam : Z)
    (ds : list dataset) (tail : cstr) :
  Forall (dataset_ok strtod nsam) ds -> ends_token tail ->
  ends_token (flat_map dataset_text ds ++ tail).
Proof.
  intros Hds Ht. destruct Hds as [|d ds Hd _]; [exact Ht|].
  destruct Hd as [He _]. cbn [flat_map].
  destruct (dataset_text d) as [|c x] eqn:E.
  - exfalso. unfold dataset_text in E.
    destruct (lines (d_skipped d)); [|discriminate E].
    destruct (d_boundary d); discriminate E.
  - exact He.
Qed.

Lemma datasets_text_length (ds : list dataset) :
  (length ds <= length (flat_map dataset_text ds))%nat.
Proof.
  induction ds as [|d ds IH]; [apply Nat.le_refl|].
  cbn [flat_map length]. rewrite length_app.
  assert (1 <= length (dataset_text d))%nat; [|lia].
  unfold dataset_text. rewrite !length_app. cbn [length]. lia.
Qed.

Lemma buffers_ready_facts (nsam v : Z) (b : buffers) :
  buffers_ready nsam b -> v <= MAX_SITES_init ->
  length (list_ b) = Z.to_nat nsam /\ capacity_ge (v + 1) b.
Proof.
  unfold buffers_ready, capacity_ge. intros (H & _ & _) Hv. split.
  - rewrite <- (length_map (@length ascii)), H. apply repeat_length.
  - apply Forall_forall. intros buf Hin.
    assert (Hl : In (length buf) (map (@length ascii) (list_ b))) by (now apply in_map).
    rewrite H in Hl. apply repeat_spec in Hl. rewrite Hl. lia.
Qed.

Lemma mutate_no_sites (cfg : config) (nsam : Z) (l : list cstr) (g : rng) :
  mutate cfg nsam 0 l g = (init_nrep nsam cfg, g).
Proof. reflexivity. Qed.

(** On an allocator that grants every request the first allocations and
    every growth succeed. *)
Lemma grow_mem (b b' : buffers) (segsites : Z) :
  grow b segsites = Ok b' -> granted (mem b') = granted (mem b).
Proof.
  unfold grow. destruct (segsites >=? MAX_SITES b).
  - unfold request. destruct (granted (mem b) (requests (mem b))); cbn [negb]; [|discriminate].
    intros E. now injection E as <-.
  - intros E. now injection E as <-.
Qed.

Lemma process_dataset_ready (strtod : cstr -> double * nat) (cfg : config) (nsam : Z)
    (st st' : state) :
  process_dataset strtod cfg nsam st = Ok st' ->
  buffers_ready nsam (bufs st) -> segsites st' <= MAX_SITES_init ->
  buffers_ready nsam (bufs st').
Proof.
  intros E (Hrows & Hmax & Hg) Hs.
  pose proof (process_dataset_capacity strtod cfg nsam st st' E) as Hcap.
  destruct (process_dataset_bufs strtod cfg nsam st st' E) as (b & Eg & EM & _ & Em).
  destruct (grow_facts (bufs st) b (segsites st') Eg) as (_ & Hle & _).
  { unfold MAX_SITES_init in Hmax. lia. }
  { unfold MAX_SITES_init in Hs. lia. }
  split; [|split].
  - now rewrite Hcap.
  - rewrite EM. lia.
  - intros k. rewrite Em, (grow_mem _ _ _ Eg). apply Hg.
Qed.

Lemma process_dataset_ok (strtod : cstr -> double * nat) (cfg : config) (nsam : Z)
    (st : state) (d : dataset) (rest : cstr) :
  dataset_ok strtod nsam d -> ends_token rest ->
  buffers_ready nsam (bufs st) ->
  pfin st = dataset_text d ++ rest ->
  exists st',
    process_dataset strtod cfg nsam st = Ok st' /\
    pfin st' = rest /\ buffers_ready nsam (bufs st') /\
    gen st' = snd (mutate cfg nsam (d_sites d) (map snd (d_haplotypes d)) (gen st)) /\
    out st' = print_dataset cfg nsam
                (fst (mutate cfg nsam (d_sites d) (map snd (d_haplotypes d)) (gen st)))
                (out st).
Proof.
  intros (_ & Hsk & Hbl & Hslash & Hws & Hws' & Hv & Hps & Hlps & Hstrtod & Hhs &
          Hrows & Hcase) Hrest Hbufs Hpfin.
  destruct (buffers_ready_facts nsam (d_sites d) (bufs st) Hbufs (proj2 Hv))
    as [Hll Hcap].
  destruct (grow_granted (bufs st) (d_sites d) (proj2 (proj2 Hbufs))) as (b & Hgrow & _).
  unfold dataset_text in Hpfin. rewrite <- !app_assoc in Hpfin.
  cbn [app] in Hpfin. rewrite <- !app_assoc in Hpfin.
  assert (Hres : exists st',
            process_dataset strtod cfg nsam st = Ok st' /\
            segsites st' = d_sites d /\ pfin st' = rest /\
            gen st' = snd (mutate cfg nsam (d_sites d) (map snd (d_haplotypes d)) (gen st)) /\
            out st' = print_dataset cfg nsam
                        (fst (mutate cfg nsam (d_sites d) (map snd (d_haplotypes d))
                                (gen st)))
                        (out st)).
  { destruct (d_sites d =? 0) eqn:Ez.
    - apply Z.eqb_eq in Ez. destruct Hcase as (E0 & Ef & Eh).
      rewrite Ez in *. rewrite E0, Ef, Eh in *.
      destruct (d_positions d) as [|p ps]; [|discriminate Hlps].
      cbn [spaced flat_map app] in Hpfin.
      destruct (process_dataset_no_segsites strtod cfg nsam st
                  (d_boundary d ++ [newline])
                  (d_ws d ++ list_ascii_of_string "segsites:" ++ d_ws' d ++ chars_d 0 ++ rest)
                  rest) as (st' & E & Hseg & Hp & Hg & Ho).
      + destruct Hbufs as (_ & Hmax & _). unfold MAX_SITES_init in Hmax. lia.
      + rewrite Hpfin. apply skip_to_boundary_found; assumption.
      + apply scan_segsites_read; try assumption.
        * unfold in_int. lia.
        * now apply ends_token_no_digit.
      + exists st'. rewrite mutate_no_sites. cbn [fst snd]. auto.
    - apply Z.eqb_neq in Ez.
      destruct Hcase as (Hws0 & Hne0 & Hne & Hsolid & _ & Hr & Hlhs).
      destruct (process_dataset_wellformed strtod cfg nsam st (d_skipped d)
                  (d_boundary d) (d_ws d) (d_ws' d) (d_sites d) (d_ws0 d) (d_first d)
                  (d_positions d) (d_haplotypes d) rest b)
        as (st' & E & Hseg & _ & Hp & Hg & Ho); try assumption.
      + lia.
      + unfold in_int, MAX_SITES_init in *. lia.
      + exists st'. rewrite mutate_eq. cbn [fst snd]. rewrite mutate_eq in Ho. auto. }
  destruct Hres as (st' & E & Hseg & Hp & Hg & Ho).
  exists st'. split; [exact E|]. split; [exact Hp|]. split; [|auto].
  apply (process_dataset_ready strtod cfg nsam st st' E Hbufs). rewrite Hseg. lia.
Qed.

Lemma dataset_loop_run (strtod : cstr -> double * nat) (cfg : config)
    (nsam D : Z) (tail : cstr) :
  D < 2 ^ 31 -> ends_token tail ->
  forall (ds : list dataset) (fuel : nat) (count : Z) (st : state),
    Forall (dataset_ok strtod nsam) ds ->
    0 <= count -> count + Z.of_nat (length ds) = D ->
    (length ds < fuel)%nat ->
    buffers_ready nsam (bufs st) ->
    pfin st = flat_map dataset_text ds ++ tail ->
    dataset_loop strtod fuel cfg nsam D count st
    = Some (mkResult (run_datasets cfg nsam ds (gen st) (out st)) 0 None).
Proof.
  intros HD Htail. induction ds as [|d ds IH]; intros fuel count st Hds Hc HcD Hf Hb Hp.
  - destruct fuel as [|fuel]; [simpl in Hf; lia|].
    cbn [dataset_loop run_datasets]. cbn [length] in HcD.
    replace (D - count) with 0 by lia. reflexivity.
  - destruct fuel as [|fuel]; [simpl in Hf; lia|].
    cbn [length] in HcD, Hf. cbn [dataset_loop run_datasets].
    rewrite wrap_int_small by (unfold in_int; lia).
    replace (D - count =? 0) with false by (symmetry; apply Z.eqb_neq; lia).
    inversion Hds as [|? ? Hd Hds']; subst.
    cbn [flat_map] in Hp. rewrite <- app_assoc in Hp.
    destruct (process_dataset_ok strtod cfg nsam st d _ Hd
                (datasets_text_ends strtod nsam ds tail Hds' Htail) Hb Hp)
      as (st' & E & Hp' & Hb' & Hg' & Ho').
    rewrite E. rewrite wrap_int_small by (unfold in_int; lia).
    rewrite (IH fuel (count + 1) st'); try assumption; try lia.
    rewrite Hg', Ho'.
    now destruct (mutate cfg nsam (d_sites d) (map snd (d_haplotypes d)) (gen st)).
Qed.

(** X29: a run on input as [ms] writes it, within the limits of the reader.
    When the command line is accepted with configuration [cfg] of at least
    one locus, the first line (its first word fitting [dummy]) gives a
    positive [nsam] and the number of datasets, and that many datasets
    follow the second line, each with at most [MAX_SITES_init] sites and
    numbers that [strtod] uses up whole when white space follows them, and
    the allocator grants every request, the run ends with status 0, writes
    no diagnostic, and its standard output is the output of the formatter on
    the lengths that the engine computes for each dataset in turn from the
    haplotypes as they stand in the input, the generator going from one
    dataset to the next. *)
Theorem X29_run_of_datasets (strtod : cstr -> double * nat) (argv : list cstr)
    (cfg : config) (tok ws1 ws2 htail seed : cstr) (N : Z) (ds : list dataset)
    (tail : cstr) (g : rng) (h : heap) :
  parse_args strtod argv = Ok cfg -> 0 < linked_n cfg -> 0 < N ->
  (forall k, granted h k = true) ->
  tok <> [] -> solid tok -> (length tok < 20)%nat ->
  blank ws1 -> ws1 <> [] -> blank ws2 -> ws2 <> [] ->
  in_int N -> in_int (Z.of_nat (length ds)) -> no_digit_next htail ->
  let hl := tok ++ ws1 ++ chars_d N ++ ws2 ++ chars_d (Z.of_nat (length ds)) ++ htail in
  one_line hl -> (length hl < MAX_LINE_LENGTH - 1)%nat ->
  one_line seed -> (length seed < MAX_LINE_LENGTH - 1)%nat ->
  Forall (dataset_ok strtod N) ds -> ends_token tail ->
  main strtod argv
    (hl ++ newline :: seed ++ newline :: flat_map dataset_text ds ++ tail) g h
  = Some (mkResult (run_datasets cfg N ds g EmptyString) 0 None).
Proof.
  intros Hargs _ _ Hgr Htok Hsolid _ Hws1 Hne1 Hws2 Hne2 HN HD Hhtail hl Hhl Hlen Hseed
         Hslen Hds Htail.
  rewrite (main_ok strtod argv _ g h cfg Hargs).
  pose proof (read_header_line tok ws1 ws2 htail seed
                (flat_map dataset_text ds ++ tail) N (Z.of_nat (length ds))
                Htok Hsolid Hws1 Hne1 Hws2 Hne2 HN HD Hhtail Hhl Hlen Hseed Hslen)
    as Hh.
  fold hl in Hh. rewrite Hh.
  destruct (alloc_buffers_granted h N Hgr) as (b & Ea & Hgb). rewrite Ea.
  apply (dataset_loop_run strtod cfg N (Z.of_nat (length ds)) tail).
  - unfold in_int in HD. lia.
  - exact Htail.
  - exact Hds.
  - lia.
  - lia.
  - cbn [length]. rewrite length_app.
    pose proof (datasets_text_length ds). lia.
  - cbn [bufs]. destruct (alloc_buffers_facts h N b Ea) as (HM & _ & Hrows).
    split; [exact Hrows|]. split; [rewrite HM; lia | exact Hgb].
  - reflexivity.
Qed.

Lemma X29_run_of_datasets_witness :
  main strtod_dec (cstrs ["microsat"; "-a"; "20"]%string) stdin_ex gen_ex heap_ex
  = Some (mkResult (run_datasets cfg_ex 3 datasets_ex gen_ex EmptyString) 0 None).
Proof.
  apply (X29_run_of_datasets strtod_dec (cstrs ["microsat"; "-a"; "20"]%string) cfg_ex
           (arg "ms") (arg " ") (arg " ") (arg " -t 4.0") (arg "1 2 3") 3
           datasets_ex (list_ascii_of_string NL) gen_ex heap_ex).
  - vm_compute. reflexivity.
  - simpl. lia.
  - lia.
  - reflexivity.
  - discriminate.
  - repeat constructor.
  - simpl. lia.
  - repeat constructor.
  - discriminate.
  - repeat constructor.
  - discriminate.
  - unfold in_int. lia.
  - unfold in_int. simpl. lia.
  - reflexivity.
  - repeat constructor; discriminate.
  - vm_compute. lia.
  - repeat constructor; discriminate.
  - vm_compute. lia.
  - assert (Hline : forall s : string,
              one_line (arg s) -> (length (arg s) < 100)%nat -> nth 0 (arg s) NUL <> "/"%char ->
              short_line (arg s) /\ nth 0 (arg s) NUL <> "/"%char).
    { intros s H1 H2 H3. split; [split; [exact H1 | unfold MAX_LINE_LENGTH; lia] | exact H3]. }
    assert (Hb : short_line (arg "//")).
    { split; [repeat constructor; discriminate | vm_compute; lia]. }
    unfold datasets_ex. constructor; [|constructor; [|constructor]].
    + unfold dataset_ok.
      cbn [d_skipped d_boundary d_ws d_ws' d_sites d_ws0 d_first d_positions d_haplotypes].
      split; [reflexivity|].
      split; [constructor; [apply Hline; [constructor | simpl; lia | discriminate] | constructor]|].
      split; [exact Hb|].
      split; [reflexivity|].
      split; [constructor|].
      split; [repeat constructor|].
      split; [unfold MAX_SITES_init; lia|].
      split; [repeat constructor; discriminate|].
      split; [reflexivity|].
      split; [intros p r [<-|[<-|[]]] Hr;
              [apply (strtod_dec_decimal (arg "0") (arg "25") r)
              |apply (strtod_dec_decimal (arg "0") (arg "75") r)];
              try exact Hr; try discriminate; repeat constructor|].
      split; [repeat constructor; discriminate|].
      split; [repeat constructor|].
      change (2 =? 0) with false. cbv iota.
      split; [repeat constructor|].
      split; [discriminate|].
      split; [discriminate|].
      split; [repeat constructor|].
      split; [simpl; lia|].
      split; [vm_compute; discriminate | reflexivity].
    + unfold dataset_ok.
      cbn [d_skipped d_boundary d_ws d_ws' d_sites d_ws0 d_first d_positions d_haplotypes].
      split; [reflexivity|].
      split; [constructor; [apply Hline; [constructor | simpl; lia | discriminate] |
              constructor; [apply Hline; [constructor | simpl; lia | discriminate] |
              constructor]]|].
      split; [exact Hb|].
      split; [reflexivity|].
      split; [constructor|].
      split; [repeat constructor|].
      split; [unfold MAX_SITES_init; lia|].
      split; [constructor|].
      split; [reflexivity|].
      split; [intros p r []|].
      split; [constructor|].
      split; [constructor|].
      change (0 =? 0) with true. cbv iota. repeat split.
  - reflexivity.
Defined.
